(** * Umami tag injector: the streaming response writer

    A shallow embedding of [umami_injector.go]: the classifier
    ([htmlCandidateFromHeadersAndSniff], [sniffHTML]), the splice engine
    ([tryInject]) and the interception state machine ([streamWriter] with
    [Write], [Flush], [Hijack], [finish]), together with the pieces of the Go
    standard library they call ([bytes.ToLower], [bytes.Index],
    [http.Header], ...), and the proofs of the properties the design
    document states about them. *)

From Stdlib Require Import ZArith Lia Bool Ascii String List.
From stdpp Require Import base option list gmap strings.

Set Default Proof Using "Type".

(** ** Bytes and strings

    A Go [[]byte] is a list of [ascii] (eight bits each); a Go [string] that
    the code only stores or concatenates is a Rocq [string]. *)

Abbreviation bytes := (list ascii).

(** [[]byte(s)] *)
Definition bytesOf (s : string) : bytes := list_ascii_of_string s.

(** [string(b)] *)
Definition stringOf (b : bytes) : string := string_of_list_ascii b.

(** The numeric value of a byte, and [byte(z)] (truncation to eight bits). *)
Definition byteZ (c : ascii) : Z := Z.of_N (N_of_ascii c).
Definition byteOf (z : Z) : ascii := ascii_of_N (Z.to_N (z mod 256)).

(** ** unicode/utf8 *)

Module utf8.

Definition RuneError : Z := 0xFFFD.
Definition RuneSelf : Z := 0x80.
Definition MaxRune : Z := 0x10FFFF.

(** The tables [first] and [acceptRanges]: for a lead byte, the length of
    the sequence and the range accepted for its second byte; [None] is the
    table's [xx] (not a lead byte). *)
Definition leadInfo (p0 : Z) : option (nat * Z * Z) :=
  if (p0 <? 0xC2)%Z then None
  else if (p0 <=? 0xDF)%Z then Some (2, 0x80%Z, 0xBF%Z)
  else if (p0 =? 0xE0)%Z then Some (3, 0xA0%Z, 0xBF%Z)
  else if (p0 <=? 0xEC)%Z then Some (3, 0x80%Z, 0xBF%Z)
  else if (p0 =? 0xED)%Z then Some (3, 0x80%Z, 0x9F%Z)
  else if (p0 <=? 0xEF)%Z then Some (3, 0x80%Z, 0xBF%Z)
  else if (p0 =? 0xF0)%Z then Some (4, 0x90%Z, 0xBF%Z)
  else if (p0 <=? 0xF3)%Z then Some (4, 0x80%Z, 0xBF%Z)
  else if (p0 =? 0xF4)%Z then Some (4, 0x80%Z, 0x8F%Z)
  else None.

Definition notCont (b : Z) : bool := (b <? 0x80)%Z || (0xBF <? b)%Z.

(** [utf8.DecodeRune]: the first rune of [p] and its width; an invalid or
    truncated sequence is [(RuneError, 1)]. *)
Definition DecodeRune (p : bytes) : Z * nat :=
  match p with
  | [] => (RuneError, 0)
  | c0 :: rest =>
    let p0 := byteZ c0 in
    if (p0 <? RuneSelf)%Z then (p0, 1) else
    match leadInfo p0 with
    | None => (RuneError, 1)
    | Some (sz, lo, hi) =>
      if length p <? sz then (RuneError, 1) else
      match rest with
      | [] => (RuneError, 1)
      | c1 :: rest1 =>
        let b1 := byteZ c1 in
        if (b1 <? lo)%Z || (hi <? b1)%Z then (RuneError, 1) else
        if sz <=? 2 then
          (Z.lor (Z.shiftl (Z.land p0 0x1F) 6) (Z.land b1 0x3F), 2)
        else
        match rest1 with
        | [] => (RuneError, 1)
        | c2 :: rest2 =>
          let b2 := byteZ c2 in
          if notCont b2 then (RuneError, 1) else
          if sz <=? 3 then
            (Z.lor (Z.lor (Z.shiftl (Z.land p0 0x0F) 12)
                          (Z.shiftl (Z.land b1 0x3F) 6))
                   (Z.land b2 0x3F), 3)
          else
          match rest2 with
          | [] => (RuneError, 1)
          | c3 :: _ =>
            let b3 := byteZ c3 in
            if notCont b3 then (RuneError, 1) else
            (Z.lor (Z.lor (Z.lor (Z.shiftl (Z.land p0 0x07) 18)
                                 (Z.shiftl (Z.land b1 0x3F) 12))
                          (Z.shiftl (Z.land b2 0x3F) 6))
                   (Z.land b3 0x3F), 4)
          end
        end
      end
    end
  end.

(** [utf8.AppendRune] onto the empty slice, for a rune [0 <= r]: surrogates
    and runes above [MaxRune] are written as [RuneError]. *)
Definition encode3 (r : Z) : bytes :=
  [byteOf (Z.lor 0xE0 (Z.shiftr r 12));
   byteOf (Z.lor 0x80 (Z.land (Z.shiftr r 6) 0x3F));
   byteOf (Z.lor 0x80 (Z.land r 0x3F))].

Definition AppendRune (r : Z) : bytes :=
  if (r <=? 0x7F)%Z then [byteOf r]
  else if (r <=? 0x7FF)%Z then
    [byteOf (Z.lor 0xC0 (Z.shiftr r 6)); byteOf (Z.lor 0x80 (Z.land r 0x3F))]
  else if (MaxRune <? r)%Z || ((0xD800 <=? r)%Z && (r <=? 0xDFFF)%Z) then
    encode3 RuneError
  else if (r <=? 0xFFFF)%Z then encode3 r
  else
    [byteOf (Z.lor 0xF0 (Z.shiftr r 18));
     byteOf (Z.lor 0x80 (Z.land (Z.shiftr r 12) 0x3F));
     byteOf (Z.lor 0x80 (Z.land (Z.shiftr r 6) 0x3F));
     byteOf (Z.lor 0x80 (Z.land r 0x3F))].

Definition UTFMax : Z := 4.

(** [utf8.RuneStart]: the byte is not a continuation byte. *)
Definition RuneStart (b : ascii) : bool :=
  negb (Z.land (byteZ b) 0xC0 =? 0x80)%Z.

(** The loop of [DecodeLastRune],
    [for start--; start >= lim; start-- { if RuneStart(p[start]) { break } }],
    entered with [start] already decremented; it runs at most [UTFMax]
    times. *)
Fixpoint lastRuneStart (p : bytes) (start lim : Z) (fuel : nat) : Z :=
  match fuel with
  | O => start
  | S fuel' =>
    if (start <? lim)%Z then start
    else if RuneStart (nth (Z.to_nat start) p "000"%char) then start
    else lastRuneStart p (start - 1) lim fuel'
  end.

(** [utf8.DecodeLastRune] (and [DecodeLastRuneInString]): the last rune of
    [p] and its width. *)
Definition DecodeLastRune (p : bytes) : Z * nat :=
  let end_ := Z.of_nat (length p) in
  if (end_ =? 0)%Z then (RuneError, 0)
  else
    let r := byteZ (nth (Z.to_nat (end_ - 1)) p "000"%char) in
    if (r <? RuneSelf)%Z then (r, 1)
    else
      let lim := if (end_ - UTFMax <? 0)%Z then 0%Z else (end_ - UTFMax)%Z in
      let start := lastRuneStart p (end_ - 2) lim 4 in
      let start := if (start <? 0)%Z then 0%Z else start in
      let '(r, size) := DecodeRune (drop (Z.to_nat start) p) in
      if negb (start + Z.of_nat size =? end_)%Z then (RuneError, 1)
      else (r, size).

End utf8.

(** ** unicode *)

Module unicode.

(** [unicode.IsSpace]: the Latin-1 switch, then the [White_Space] table. *)
Definition IsSpace (r : Z) : bool :=
  if (r <=? 0xFF)%Z then
    ((0x09 <=? r)%Z && (r <=? 0x0D)%Z) || (r =? 0x20)%Z || (r =? 0x85)%Z
    || (r =? 0xA0)%Z
  else
    (r =? 0x1680)%Z || ((0x2000 <=? r)%Z && (r <=? 0x200A)%Z)
    || (r =? 0x2028)%Z || (r =? 0x2029)%Z || (r =? 0x202F)%Z
    || (r =? 0x205F)%Z || (r =? 0x3000)%Z.

(** [unicode.ToLower]: ASCII is mapped in place; above ASCII the rune goes
    through the case tables, [To(LowerCase, r)], which [lowerTable] stands
    for. *)
Definition ToLower (lowerTable : Z → Z) (r : Z) : Z :=
  if (r <=? 0x7F)%Z then
    if (0x41 <=? r)%Z && (r <=? 0x5A)%Z then (r + 0x20)%Z else r
  else lowerTable r.

End unicode.

(** ** bytes and strings (the packages) *)

Definition isASCII (c : ascii) : bool := (byteZ c <? utf8.RuneSelf)%Z.

(** The ASCII branch of [bytes.ToLower]: ['A'..'Z'] shifted by 32. *)
Definition lowerASCII (c : ascii) : ascii :=
  if (0x41 <=? byteZ c)%Z && (byteZ c <=? 0x5A)%Z
  then byteOf (byteZ c + 0x20) else c.

(** [bytes.Map] with the index [i] advancing by the width of each rune:
    [skip] counts the bytes of the current rune still to step over. A
    negative image drops the rune. *)
Fixpoint MapFrom (mapping : Z → Z) (s : bytes) (skip : nat) : bytes :=
  match s with
  | [] => []
  | c :: s' =>
    match skip with
    | S k => MapFrom mapping s' k
    | O =>
      let '(r, wid) :=
        if (byteZ c <? utf8.RuneSelf)%Z then (byteZ c, 1)
        else utf8.DecodeRune s in
      let r' := mapping r in
      (if (0 <=? r')%Z then utf8.AppendRune r' else [])
        ++ MapFrom mapping s' (wid - 1)
    end
  end.

Definition Map (mapping : Z → Z) (s : bytes) : bytes := MapFrom mapping s 0.

(** The runes [Map] hands to its mapping. *)
Fixpoint runesFrom (s : bytes) (skip : nat) : list Z :=
  match s with
  | [] => []
  | c :: s' =>
    match skip with
    | S k => runesFrom s' k
    | O =>
      let '(r, wid) :=
        if (byteZ c <? utf8.RuneSelf)%Z then (byteZ c, 1)
        else utf8.DecodeRune s in
      r :: runesFrom s' (wid - 1)
    end
  end.

Definition runes (s : bytes) : list Z := runesFrom s 0.

(** [bytes.HasPrefix] *)
Fixpoint HasPrefix (s prefix : bytes) {struct prefix} : bool :=
  match prefix, s with
  | [], _ => true
  | _ :: _, [] => false
  | x :: prefix', y :: s' => Ascii.eqb x y && HasPrefix s' prefix'
  end.

(** [bytes.Index]: the index of the first instance of [sep] in [s];
    [None] is Go's [-1]. *)
Fixpoint Index (s sep : bytes) : option nat :=
  if HasPrefix s sep then Some 0
  else match s with
       | [] => None
       | _ :: s' => S <$> Index s' sep
       end.

(** [bytes.Contains] *)
Definition Contains (b subslice : bytes) : bool :=
  match Index b subslice with Some _ => true | None => false end.

(** [bytes.TrimLeft] for a cutset of ASCII bytes (the form the code uses):
    leading bytes of the cutset are sliced off. *)
Fixpoint TrimLeft (s cutset : bytes) : bytes :=
  match s with
  | [] => []
  | c :: s' => if existsb (Ascii.eqb c) cutset then TrimLeft s' cutset else s
  end.

(** Whether [strings.TrimSpace(s)] is the empty string: the leading trim
    walks the runes of [s] while [unicode.IsSpace] holds and the result is
    empty exactly when it reaches the end. *)
Fixpoint allSpaceFrom (s : bytes) (skip : nat) : bool :=
  match s with
  | [] => true
  | c :: s' =>
    match skip with
    | S k => allSpaceFrom s' k
    | O =>
      let '(r, wid) := utf8.DecodeRune s in
      unicode.IsSpace r && allSpaceFrom s' (wid - 1)
    end
  end.

Definition TrimSpace_isEmpty (s : bytes) : bool := allSpaceFrom s 0.

(** [strings.TrimSpace] in full. [asciiSpace] is its table of the ASCII
    white space: tab, line feed, vertical tab, form feed, carriage return
    and space. *)
Definition asciiSpace (c : ascii) : bool :=
  let z := byteZ c in
  ((0x09 <=? z)%Z && (z <=? 0x0D)%Z) || (z =? 0x20)%Z.

(** [strings.TrimLeftFunc]: [range] walks the runes of [s]; the result
    starts at the first rune [f] rejects, and is empty when there is
    none. *)
Fixpoint TrimLeftFuncFrom (f : Z → bool) (s : bytes) (skip : nat) : bytes :=
  match s with
  | [] => []
  | _ :: s' =>
    match skip with
    | S k => TrimLeftFuncFrom f s' k
    | O =>
      let '(r, wid) := utf8.DecodeRune s in
      if f r then TrimLeftFuncFrom f s' (wid - 1) else s
    end
  end.

Definition TrimLeftFunc (s : bytes) (f : Z → bool) : bytes :=
  TrimLeftFuncFrom f s 0.

(** [lastIndexFunc(s, f, false)]: the start of the last rune [f] rejects,
    walking backwards from [i]; [None] is Go's [-1]. *)
Fixpoint lastIndexFunc (f : Z → bool) (s : bytes) (i fuel : nat)
  : option nat :=
  match fuel with
  | O => None
  | S fuel' =>
    if i =? 0 then None
    else
      let '(r, size) := utf8.DecodeLastRune (take i s) in
      let i := i - size in
      if negb (f r) then Some i else lastIndexFunc f s i fuel'
  end.

(** [strings.TrimRightFunc] *)
Definition TrimRightFunc (s : bytes) (f : Z → bool) : bytes :=
  match lastIndexFunc f s (length s) (S (length s)) with
  | Some i =>
    if (utf8.RuneSelf <=? byteZ (nth i s "000"%char))%Z
    then take (i + (utf8.DecodeRune (drop i s)).2) s
    else take (i + 1) s
  | None => []
  end.

(** [strings.TrimFunc] *)
Definition TrimFunc (s : bytes) (f : Z → bool) : bytes :=
  TrimRightFunc (TrimLeftFunc s f) f.

(** The first loop of [TrimSpace]: [inl] is what remains at the [break] or
    at the end of the string, [inr] what remains at a byte that is not
    ASCII. *)
Fixpoint TrimSpace_start (s : bytes) : bytes + bytes :=
  match s with
  | [] => inl []
  | c :: s' =>
    if (utf8.RuneSelf <=? byteZ c)%Z then inr s
    else if asciiSpace c then TrimSpace_start s'
    else inl s
  end.

(** The second loop, on [s[start:]], with [stop] counted from [start]. *)
Fixpoint TrimSpace_stop (s : bytes) (stop : nat) : bytes :=
  match stop with
  | O => []
  | S k =>
    let c := nth k s "000"%char in
    if (utf8.RuneSelf <=? byteZ c)%Z
    then TrimRightFunc (take stop s) unicode.IsSpace
    else if asciiSpace c then TrimSpace_stop s k
    else take stop s
  end.

Definition TrimSpace (s : string) : string :=
  stringOf
    match TrimSpace_start (bytesOf s) with
    | inr rest => TrimFunc rest unicode.IsSpace
    | inl rest => TrimSpace_stop rest (length rest)
    end.

(** ** net/textproto and net/http headers *)

Module textproto.

(** [validHeaderFieldByte]: the token characters of RFC 7230. *)
Definition validHeaderFieldByte (c : ascii) : bool :=
  let z := byteZ c in
  ((0x30 <=? z)%Z && (z <=? 0x39)%Z) || ((0x41 <=? z)%Z && (z <=? 0x5A)%Z)
  || ((0x61 <=? z)%Z && (z <=? 0x7A)%Z)
  || existsb (Ascii.eqb c) (list_ascii_of_string "!#$%&'*+-.^_`|~").

(** The second loop of [canonicalMIMEHeaderKey]: upper case for the first
    letter and after each dash, lower case elsewhere. *)
Fixpoint canonCase (upper : bool) (a : bytes) : bytes :=
  match a with
  | [] => []
  | c :: a' =>
    let z := byteZ c in
    let c' :=
      if upper && (0x61 <=? z)%Z && (z <=? 0x7A)%Z then byteOf (z - 0x20)
      else if negb upper && (0x41 <=? z)%Z && (z <=? 0x5A)%Z
           then byteOf (z + 0x20)
      else c in
    c' :: canonCase (Ascii.eqb c' "-"%char) a'
  end.

(** [textproto.CanonicalMIMEHeaderKey]: a key with a byte that is not a
    token character is returned unchanged. *)
Definition CanonicalMIMEHeaderKey (s : string) : string :=
  let a := list_ascii_of_string s in
  if forallb validHeaderFieldByte a then string_of_list_ascii (canonCase true a)
  else s.

End textproto.

(** [http.Header], a [map[string][]string], with its methods. *)
Abbreviation Header := (gmap string (list string)).

Module Header.

Definition Get (h : Header) (key : string) : string :=
  match h !! textproto.CanonicalMIMEHeaderKey key with
  | Some (v :: _) => v
  | _ => EmptyString
  end.

Definition Set_ (h : Header) (key value : string) : Header :=
  <[textproto.CanonicalMIMEHeaderKey key := [value]]> h.

Definition Add (h : Header) (key value : string) : Header :=
  let k := textproto.CanonicalMIMEHeaderKey key in
  <[k := default [] (h !! k) ++ [value]]> h.

Definition Del (h : Header) (key : string) : Header :=
  delete (textproto.CanonicalMIMEHeaderKey key) h.

End Header.

(** ** The real sink: [orig http.ResponseWriter]

    The sink is the code's environment. It keeps its live header map and the
    calls it has received, oldest first; [rw_script] fixes how its coming
    [Write] calls answer ([None], or a script that has run out: all bytes
    taken, no error; [Some (k, e)]: error [e] after at most [k] bytes).
    [rw_flusher] and [rw_hijacker] say whether the sink implements
    [http.Flusher] and [http.Hijacker]. *)

Definition error := string.

Inductive call :=
| CallWriteHeader (h : Header) (statusCode : Z)
| CallWrite (p : bytes) (n : nat) (err : option error)
| CallFlush
| CallHijack.

Record ResponseWriter := mkResponseWriter {
  rw_header : Header;
  rw_calls : list call;
  rw_script : list (option (nat * error));
  rw_flusher : bool;
  rw_hijacker : bool
}.

Definition rw_setHeader (o : ResponseWriter) (h : Header) : ResponseWriter :=
  mkResponseWriter h (rw_calls o) (rw_script o) (rw_flusher o) (rw_hijacker o).

Definition rw_record (o : ResponseWriter) (c : call) : ResponseWriter :=
  mkResponseWriter (rw_header o) (rw_calls o ++ [c]) (rw_script o)
                   (rw_flusher o) (rw_hijacker o).

Definition rw_WriteHeader (o : ResponseWriter) (statusCode : Z)
  : ResponseWriter :=
  rw_record o (CallWriteHeader (rw_header o) statusCode).

(** How a sink with the given script answers a [Write] of [p]: the byte
    count and the error. *)
Definition answer (script : list (option (nat * error))) (p : bytes)
  : nat * option error :=
  match script with
  | Some (k, e) :: _ => (k `min` length p, Some e)
  | _ => (length p, None)
  end.

Definition rw_Write (o : ResponseWriter) (p : bytes)
  : (Z * option error) * ResponseWriter :=
  let '(n, err) := answer (rw_script o) p in
  ((Z.of_nat n, err),
   mkResponseWriter (rw_header o) (rw_calls o ++ [CallWrite p n err])
                    (tail (rw_script o)) (rw_flusher o) (rw_hijacker o)).

Definition rw_Flush (o : ResponseWriter) : ResponseWriter :=
  rw_record o CallFlush.

Definition rw_Hijack (o : ResponseWriter) : ResponseWriter :=
  rw_record o CallHijack.

(** ** The writer's data *)

Inductive htmlCandidate := candidateNo | candidateMaybe | candidateYes.

Inductive decision := undecided | passthrough | injecting.

Record streamWriter := mkStreamWriter {
  orig : ResponseWriter;
  (* captured *)
  header : Header;
  status : Z;
  (* decision state *)
  state : decision;
  wroteHeader : bool;
  headersFlushed : bool;
  lookaheadLimit : Z;
  buf : bytes;
  (* injection params *)
  scriptSrc : string;
  websiteID : string;
  injectBefore : string;
  alsoMatchBodyClose : bool;
  injectOnNon2xx : bool
}.

Definition set_orig (w : streamWriter) (o : ResponseWriter) : streamWriter :=
  mkStreamWriter o (header w) (status w) (state w) (wroteHeader w)
    (headersFlushed w) (lookaheadLimit w) (buf w) (scriptSrc w) (websiteID w)
    (injectBefore w) (alsoMatchBodyClose w) (injectOnNon2xx w).

Definition set_header (w : streamWriter) (h : Header) : streamWriter :=
  mkStreamWriter (orig w) h (status w) (state w) (wroteHeader w)
    (headersFlushed w) (lookaheadLimit w) (buf w) (scriptSrc w) (websiteID w)
    (injectBefore w) (alsoMatchBodyClose w) (injectOnNon2xx w).

Definition set_state (w : streamWriter) (d : decision) : streamWriter :=
  mkStreamWriter (orig w) (header w) (status w) d (wroteHeader w)
    (headersFlushed w) (lookaheadLimit w) (buf w) (scriptSrc w) (websiteID w)
    (injectBefore w) (alsoMatchBodyClose w) (injectOnNon2xx w).

Definition set_buf (w : streamWriter) (b : bytes) : streamWriter :=
  mkStreamWriter (orig w) (header w) (status w) (state w) (wroteHeader w)
    (headersFlushed w) (lookaheadLimit w) b (scriptSrc w) (websiteID w)
    (injectBefore w) (alsoMatchBodyClose w) (injectOnNon2xx w).

Definition http_StatusOK : Z := 200.

Definition newStreamWriter (orig : ResponseWriter) (lookaheadLimit : Z)
    (scriptSrc websiteID injectBefore : string)
    (alsoMatchBodyClose injectOnNon2xx : bool) : streamWriter :=
  let lookaheadLimit :=
    if (lookaheadLimit <=? 0)%Z then (64 * 1024)%Z else lookaheadLimit in
  mkStreamWriter orig ∅ http_StatusOK undecided false false lookaheadLimit []
    scriptSrc websiteID injectBefore alsoMatchBodyClose injectOnNon2xx.

Definition WriteHeader (w : streamWriter) (statusCode : Z) : streamWriter :=
  if wroteHeader w then w
  else
    mkStreamWriter (orig w) (header w) statusCode (state w) true
      (headersFlushed w) (lookaheadLimit w) (buf w) (scriptSrc w)
      (websiteID w) (injectBefore w) (alsoMatchBodyClose w)
      (injectOnNon2xx w).

Definition isStatusEligible (w : streamWriter) : bool :=
  if injectOnNon2xx w then (200 <=? status w)%Z && (status w <? 600)%Z
  else (200 <=? status w)%Z && (status w <? 300)%Z.

Definition prepareHeadersForInjection (w : streamWriter) : streamWriter :=
  set_header w
    (Header.Del (Header.Del (header w) "Content-Length") "ETag").

(** The two loops of [flushHeaders] range over Go maps; [map_fold] visits
    the entries in the order of [map_to_list]. Go leaves the order of a
    [range] over a map unspecified; it shows in the result only when two
    keys of the captured map have the same canonical form, which the
    statements about the emitted map rule out ([canonical] below). *)
Definition clearHeader (dst : Header) : Header :=
  map_fold (λ k _ d, Header.Del d k) dst dst.

Definition copyHeader (src dst : Header) : Header :=
  map_fold (λ k vv d, foldl (λ d v, Header.Add d k v) d vv) dst src.

Definition flushHeaders (w : streamWriter) : streamWriter :=
  if headersFlushed w then w
  else
    let dst := copyHeader (header w) (clearHeader (rw_header (orig w))) in
    let o := rw_WriteHeader (rw_setHeader (orig w) dst) (status w) in
    mkStreamWriter o (header w) (status w) (state w) (wroteHeader w) true
      (lookaheadLimit w) (buf w) (scriptSrc w) (websiteID w) (injectBefore w)
      (alsoMatchBodyClose w) (injectOnNon2xx w).

(** [w.orig.Write(p)] *)
Definition origWrite (w : streamWriter) (p : bytes)
  : (Z * option error) * streamWriter :=
  let '(r, o) := rw_Write (orig w) p in (r, set_orig w o).

(** [flushBuffer] drops the result of its write. *)
Definition flushBuffer (w : streamWriter) : streamWriter :=
  if length (buf w) =? 0 then w
  else set_buf (origWrite w (buf w)).2 [].

Definition finish (w : streamWriter) : streamWriter :=
  match state w with
  | undecided => flushBuffer (flushHeaders (set_state w passthrough))
  | _ => w
  end.

Definition Flush (w : streamWriter) : streamWriter :=
  let w :=
    match state w with
    | undecided => flushBuffer (flushHeaders (set_state w passthrough))
    | _ => w
    end in
  if rw_flusher (orig w) then set_orig w (rw_Flush (orig w)) else w.

Definition http_ErrNotSupported : error := "feature not supported"%string.

(** [Hijack]: [None] stands for the connection the sink hands over. *)
Definition Hijack (w : streamWriter) : option error * streamWriter :=
  if negb (rw_hijacker (orig w)) then (Some http_ErrNotSupported, w)
  else
    let w :=
      match state w with
      | undecided => flushBuffer (flushHeaders (set_state w passthrough))
      | _ => w
      end in
    (None, set_orig w (rw_Hijack (orig w))).

(** ** The plugin: configuration, middleware and requests *)

Module Config.
Record t := mk {
  ScriptSrc : string;
  WebsiteID : string;
  DefaultWebsiteID : string;
  WebsiteIDHeader : string;
  MaxLookaheadBytes : Z;
  InjectBefore : string;
  AlsoMatchBodyClose : bool;
  StripAcceptEncoding : bool;
  InjectOnNon2xx : bool
}.
End Config.

Definition CreateConfig : Config.t :=
  Config.mk "https://analytics.jubnl.ch/script.js" EmptyString
    "c1df940e-066c-40df-a48a-fb0c92eac0a3" "X-Analytics-Website-Id"
    (32 * 1024) "</head>" true true false.

(** The fields of [Middleware] but [next], the handler it wraps, which
    [ServeHTTP] below takes as an argument. *)
Module Middleware.
Record t := mk {
  scriptSrc : string;
  websiteID : string;
  defaultWebsiteID : string;
  websiteIDHeader : string;
  maxLookaheadBytes : Z;
  injectBefore : string;
  alsoMatchBodyClose : bool;
  stripAcceptEncoding : bool;
  injectOnNon2xx : bool
}.
End Middleware.

(** [New]; its error is always [nil]. *)
Definition New (cfg : Config.t) : Middleware.t :=
  Middleware.mk (Config.ScriptSrc cfg) (TrimSpace (Config.WebsiteID cfg))
    (TrimSpace (Config.DefaultWebsiteID cfg)) (Config.WebsiteIDHeader cfg)
    (Config.MaxLookaheadBytes cfg) (Config.InjectBefore cfg)
    (Config.AlsoMatchBodyClose cfg) (Config.StripAcceptEncoding cfg)
    (Config.InjectOnNon2xx cfg).

(** What the code reads of an [http.Request]. *)
Module Request.
Record t := mk {
  Method : string;
  Header : gmap string (list string)
}.
End Request.

Definition http_MethodGet : string := "GET".

(** ** The classifier, the splice engine and [Write]

    These lower-case their input. The case tables of Go's [unicode] package
    are data of the standard library; [lowerTable] stands for their lookup
    [To(LowerCase, r)] on the runes above ASCII, and everything below holds
    for whatever table it is. *)

Section WithCaseTable.

Variable lowerTable : Z → Z.

(** [bytes.ToLower] (and [strings.ToLower]): a slice of ASCII bytes is
    mapped byte by byte; any other goes through [Map], which decodes and
    re-encodes UTF-8. *)
Definition ToLower (s : bytes) : bytes :=
  if forallb isASCII s then map lowerASCII s
  else Map (unicode.ToLower lowerTable) s.

(** The cutset [" \t\r\n"]. *)
Definition whitespace : bytes :=
  [" "%char; "009"%char; "013"%char; "010"%char].

(** The prefix [sniffHTML] looks at. *)
Definition sniffLimit : nat := 2048.

Definition sniffHTML (sample : bytes) : htmlCandidate :=
  if length sample =? 0 then candidateMaybe
  else
    (* Only need a small prefix. *)
    let sample :=
      if sniffLimit <? length sample then take sniffLimit sample else sample in
    let lower := ToLower sample in
    (* Trim leading whitespace (best-effort). *)
    let lower := TrimLeft lower whitespace in
    if HasPrefix lower (bytesOf "<!doctype html") then candidateYes
    else if HasPrefix lower (bytesOf "<html") then candidateYes
    else if Contains lower (bytesOf "<head") || Contains lower (bytesOf "<body")
    then candidateYes
    else if HasPrefix lower (bytesOf "<?xml") then candidateNo
    else candidateMaybe.

Definition htmlCandidateFromHeadersAndSniff (w : streamWriter)
    (sample : bytes) : htmlCandidate :=
  if negb (isStatusEligible w) then candidateNo
  else
    let ct := ToLower (bytesOf (Header.Get (header w) "Content-Type")) in
    if Contains ct (bytesOf "text/html")
       || Contains ct (bytesOf "application/xhtml+xml")
    then candidateYes
    else if negb (TrimSpace_isEmpty ct) then candidateNo
    else sniffHTML sample.

(** The double quote, and the snippet [tryInject] builds. *)
Definition dquote : ascii := "034"%char.

(** [<script defer src="SRC" data-website-id="ID"></script>] *)
Definition snippetOf (scriptSrc websiteID : string) : bytes :=
  bytesOf "<script defer src=" ++ [dquote] ++ bytesOf scriptSrc
  ++ [dquote] ++ bytesOf " data-website-id=" ++ [dquote]
  ++ bytesOf websiteID ++ [dquote] ++ bytesOf "></script>".

(** What a call of [tryInject] comes to: [(out, true)], [(nil, false)], or a
    run-time panic of the slice expression [prefix[idx:]] when [idx], an
    index into the lower-cased copy, lies beyond [len(prefix)]. *)
Inductive injection :=
| Injected (out : bytes)
| NotInjected
| SliceOutOfRange.

Definition spliceAt (prefix snippet : bytes) (idx : nat) : injection :=
  if length prefix <? idx then SliceOutOfRange
  else Injected (take idx prefix ++ snippet ++ drop idx prefix).

Definition tryInject (prefix : bytes) (scriptSrc websiteID injectBefore : string)
    (alsoMatchBodyClose : bool) : injection :=
  if length prefix =? 0 then NotInjected
  else if Contains prefix (bytesOf scriptSrc) then NotInjected
  else
    let snippet := snippetOf scriptSrc websiteID in
    let lower := ToLower prefix in
    let target := ToLower (bytesOf injectBefore) in
    match Index lower target with
    | Some idx => spliceAt prefix snippet idx
    | None =>
      if alsoMatchBodyClose then
        match Index lower (bytesOf "</body>") with
        | Some idx => spliceAt prefix snippet idx
        | None => NotInjected
        end
      else NotInjected
    end.

(** The block every fall-back to passthrough inside [Write] repeats:
    [w.state = passthrough; w.flushHeaders(); w.flushBuffer()]. *)
Definition fallBack (w : streamWriter) : streamWriter :=
  flushBuffer (flushHeaders (set_state w passthrough)).

(** ... followed by
    [if consumed < len(p) { return w.orig.Write(p[consumed:]) }; return len(p), nil]. *)
Definition forwardRest (w : streamWriter) (p : bytes) (consumed : nat)
  : (Z * option error) * streamWriter :=
  if consumed <? length p then origWrite w (drop consumed p)
  else ((Z.of_nat (length p), None), w).

(** The branch of [Write] that follows a successful [tryInject]. *)
Definition writeInjected (w : streamWriter) (p updated : bytes)
    (consumed : nat) : (Z * option error) * streamWriter :=
  let w := flushHeaders (prepareHeadersForInjection (set_state w injecting)) in
  let '((_, err), w) := origWrite w updated in
  match err with
  | Some e => ((Z.of_nat (length p), Some e), w)
  | None =>
    if consumed <? length p then
      let '((_, err2), w) := origWrite w (drop consumed p) in
      match err2 with
      | Some e2 => ((Z.of_nat (length p), Some e2), w)
      | None => ((Z.of_nat (length p), None), set_buf w [])
      end
    else ((Z.of_nat (length p), None), set_buf w [])
  end.

(** [if !w.wroteHeader { w.WriteHeader(http.StatusOK) }] *)
Definition implicitHeader (w : streamWriter) : streamWriter :=
  if negb (wroteHeader w) then WriteHeader w http_StatusOK else w.

(** [Write]: [None] is a panic (raised by [tryInject]), which unwinds
    through the upstream handler. *)
Definition Write (w : streamWriter) (p : bytes)
  : option ((Z * option error) * streamWriter) :=
  let w := implicitHeader w in
  match state w with
  | passthrough => Some (origWrite (flushHeaders w) p)
  | injecting => Some (origWrite (flushHeaders w) p)
  | undecided =>
    if length p =? 0 then Some ((0%Z, None), w)
    else if negb (String.eqb (Header.Get (header w) "Content-Encoding")
                             EmptyString)
    then Some (origWrite (fallBack w) p)
    else
      (* Buffer up to lookaheadLimit. *)
      let remaining := (lookaheadLimit w - Z.of_nat (length (buf w)))%Z in
      if (remaining <=? 0)%Z then Some (origWrite (fallBack w) p)
      else
        let consumed :=
          if (Z.of_nat (length p) <=? remaining)%Z then length p
          else Z.to_nat remaining in
        let w := set_buf w (buf w ++ take consumed p) in
        let bufBytes := buf w in
        let cand := htmlCandidateFromHeadersAndSniff w bufBytes in
        let full := (lookaheadLimit w <=? Z.of_nat (length (buf w)))%Z in
        match cand with
        | candidateNo => Some (forwardRest (fallBack w) p consumed)
        | _ =>
          if Contains bufBytes (bytesOf (scriptSrc w))
          then Some (forwardRest (fallBack w) p consumed)
          else
            match cand with
            | candidateMaybe =>
              if full then Some (forwardRest (fallBack w) p consumed)
              else Some ((Z.of_nat (length p), None), w)
            | _ =>
              match tryInject bufBytes (scriptSrc w) (websiteID w)
                              (injectBefore w) (alsoMatchBodyClose w) with
              | SliceOutOfRange => None
              | Injected updated =>
                Some (writeInjected w p updated consumed)
              | NotInjected =>
                if full then Some (forwardRest (fallBack w) p consumed)
                else Some ((Z.of_nat (length p), None), w)
              end
            end
        end
  end.

(** ** A response

    What the upstream handler may do with the writer it is handed: change
    the captured header map, declare the status, write a chunk, flush, or
    take the connection over. [Header()] returns the map itself
    ([return w.header]), so the handler may call the methods of
    [http.Header] on it (they canonicalise the key) or change it in any
    other way, by assignment or [delete] with whatever key and value list:
    [OpHeaderRaw f] is such a change, [f] giving the map after it.
    [ServeHTTP] then calls [finish], unless the handler panicked. *)
Inductive op :=
| OpHeaderSet (key value : string)
| OpHeaderAdd (key value : string)
| OpHeaderDel (key : string)
| OpHeaderRaw (f : Header → Header)
| OpWriteHeader (statusCode : Z)
| OpWrite (p : bytes)
| OpFlush
| OpHijack.

Definition step (w : streamWriter) (o : op) : option streamWriter :=
  match o with
  | OpHeaderSet k v => Some (set_header w (Header.Set_ (header w) k v))
  | OpHeaderAdd k v => Some (set_header w (Header.Add (header w) k v))
  | OpHeaderDel k => Some (set_header w (Header.Del (header w) k))
  | OpHeaderRaw f => Some (set_header w (f (header w)))
  | OpWriteHeader c => Some (WriteHeader w c)
  | OpWrite p => snd <$> Write w p
  | OpFlush => Some (Flush w)
  | OpHijack => Some (Hijack w).2
  end.

Fixpoint run (w : streamWriter) (ops : list op) : option streamWriter :=
  match ops with
  | [] => Some w
  | o :: ops' =>
    match step w o with
    | Some w' => run w' ops'
    | None => None
    end
  end.

(** [m.next.ServeHTTP(sw, req); sw.finish()] *)
Definition serve (w : streamWriter) (ops : list op) : option streamWriter :=
  finish <$> run w ops.

(** ** [ServeHTTP] *)

Definition isUpgradeRequest (r : Request.t) : bool :=
  let conn := Header.Get (Request.Header r) "Connection" in
  let upg := Header.Get (Request.Header r) "Upgrade" in
  if String.eqb upg EmptyString then false
  else Contains (ToLower (bytesOf conn)) (bytesOf "upgrade").

(** What a call of [ServeHTTP] comes to. [Direct req]: the wrapped handler
    is called with the sink itself, [m.next.ServeHTTP(rw, req)].
    [Wrapped req res]: it is called with a fresh [streamWriter] and the
    request [req], and [res] is the writer after [finish] ([None] if a
    [Write] panicked). *)
Inductive served :=
| Direct (req : Request.t)
| Wrapped (req : Request.t) (res : option streamWriter).

(** [next] gives, for the request the wrapped handler receives, the calls
    it makes on the writer. *)
Definition ServeHTTP (m : Middleware.t) (next : Request.t → list op)
    (rw : ResponseWriter) (req : Request.t) : served :=
  if negb (String.eqb (Request.Method req) http_MethodGet) then Direct req
  else if isUpgradeRequest req then Direct req
  else
    let websiteID := TrimSpace (Middleware.websiteID m) in
    let websiteID :=
      if String.eqb websiteID EmptyString
      then TrimSpace (Header.Get (Request.Header req)
                                 (Middleware.websiteIDHeader m))
      else websiteID in
    let websiteID :=
      if String.eqb websiteID EmptyString
      then TrimSpace (Middleware.defaultWebsiteID m)
      else websiteID in
    if String.eqb websiteID EmptyString then Direct req
    else
      let reqToForward :=
        if Middleware.stripAcceptEncoding m
        then Request.mk (Request.Method req)
               (Header.Del (Request.Header req) "Accept-Encoding")
        else req in
      let sw :=
        newStreamWriter rw (Middleware.maxLookaheadBytes m)
          (Middleware.scriptSrc m) websiteID (Middleware.injectBefore m)
          (Middleware.alsoMatchBodyClose m) (Middleware.injectOnNon2xx m) in
      Wrapped reqToForward (serve sw (next reqToForward)).

End WithCaseTable.

(** The chunks a handler wrote, in order. *)
Definition written (ops : list op) : bytes :=
  concat (omap (λ o, match o with OpWrite p => Some p | _ => None end) ops).

(** What the sink was handed and took: the accepted part of each [Write]. *)
Definition delivered (calls : list call) : bytes :=
  concat (omap (λ c, match c with CallWrite p n _ => Some (take n p)
                               | _ => None end) calls).

Definition headerCalls (calls : list call) : list (Header * Z) :=
  omap (λ c, match c with CallWriteHeader h s => Some (h, s) | _ => None end)
       calls.

(** ** Vocabulary of the statements *)

(** [sep] occurs in [s] at offset [i] and at no smaller offset; [sep] occurs
    nowhere in [s]. *)
Definition firstOccurrence (s sep : bytes) (i : nat) : Prop :=
  HasPrefix (drop i s) sep = true
  ∧ ∀ j, j < i → HasPrefix (drop j s) sep = false.

Definition absent (s sep : bytes) : Prop :=
  ∀ j, HasPrefix (drop j s) sep = false.

(** How many bytes of the chunk [p] a call of [Write] on the undecided
    writer [w] appends to the look-ahead buffer ([consumed]; none when the
    call falls back before buffering). *)
Definition absorbed (w : streamWriter) (p : bytes) : nat :=
  if negb (String.eqb (Header.Get (header w) "Content-Encoding") EmptyString)
  then 0
  else
    let remaining := (lookaheadLimit w - Z.of_nat (length (buf w)))%Z in
    if (remaining <=? 0)%Z then 0
    else if (Z.of_nat (length p) <=? remaining)%Z then length p
    else Z.to_nat remaining.

(** The bytes of the [Write] calls a sink received, whatever it answered. *)
Definition handed (calls : list call) : bytes :=
  concat (omap (λ c, match c with CallWrite p _ _ => Some p | _ => None end)
               calls).

Definition isHeaderCall (c : call) : Prop :=
  match c with CallWriteHeader _ _ => True | _ => False end.

(** A sink whose coming writes all succeed. *)
Definition faultless (o : ResponseWriter) : Prop :=
  Forall (λ x, x = None) (rw_script o).

(** The keys of a header map are canonical and no key has an empty list of
    values: what the methods of [http.Header] maintain. *)
Definition canonical (h : Header) : Prop :=
  ∀ k vv, h !! k = Some vv →
    textproto.CanonicalMIMEHeaderKey k = k ∧ vv ≠ [].

(** The parameters a writer is built with. *)
Definition config (w : streamWriter)
  : Z * string * string * string * bool * bool :=
  (lookaheadLimit w, scriptSrc w, websiteID w, injectBefore w,
   alsoMatchBodyClose w, injectOnNon2xx w).

(** [out] is [body] with [snippet] spliced in at one offset. *)
Definition splicedInto (snippet body out : bytes) : Prop :=
  ∃ i, i ≤ length body ∧ out = take i body ++ snippet ++ drop i body.

(** The chunk an operation writes. *)
Definition chunk (o : op) : bytes :=
  match o with OpWrite p => p | _ => [] end.

(** Where a response stands once the handler has written [pre], on a sink
    that takes every write: nothing has reached the sink while the writer
    is undecided and the buffer holds all of [pre], within the limit; after
    a passthrough the sink has [pre]; after an injection it has [pre] with
    the snippet spliced in, and [tryInject] succeeded on some prefix of
    [pre] no longer than the limit. *)
Definition streaming (lowerTable : Z → Z)
    (cfg : Z * string * string * string * bool * bool) (pre : bytes)
    (w : streamWriter) : Prop :=
  config w = cfg
  ∧ faultless (orig w)
  ∧ match state w with
    | undecided =>
      headersFlushed w = false
      ∧ delivered (rw_calls (orig w)) = []
      ∧ buf w = pre
      ∧ (Z.of_nat (length pre) ≤ lookaheadLimit w)%Z
    | passthrough =>
      headersFlushed w = true ∧ delivered (rw_calls (orig w)) = pre
    | injecting =>
      headersFlushed w = true
      ∧ splicedInto (snippetOf (scriptSrc w) (websiteID w)) pre
                    (delivered (rw_calls (orig w)))
      ∧ ∃ n out, n ≤ length pre
          ∧ (Z.of_nat n ≤ lookaheadLimit w)%Z
          ∧ tryInject lowerTable (take n pre) (scriptSrc w) (websiteID w)
              (injectBefore w) (alsoMatchBodyClose w) = Injected out
    end.

(** The discipline of the sink's call log: nothing has been called while
    the writer is undecided; afterwards the log starts with the one
    [WriteHeader] and holds no other. *)
Definition orderly (w : streamWriter) : Prop :=
  match state w with
  | undecided => headersFlushed w = false ∧ rw_calls (orig w) = []
  | _ =>
    headersFlushed w = true
    ∧ ∃ h s rest, rw_calls (orig w) = CallWriteHeader h s :: rest
                  ∧ headerCalls rest = []
  end.

(** The operations that only change the captured header map, and the
    status an operation commits the response to when none was declared
    before it: [WriteHeader] its argument, [Write] and [Flush] the implicit
    [200]. *)
Definition isHeaderOp (o : op) : bool :=
  match o with
  | OpHeaderSet _ _ | OpHeaderAdd _ _ | OpHeaderDel _ | OpHeaderRaw _ => true
  | _ => false
  end.

Definition declares (o : op) : option Z :=
  match o with
  | OpWriteHeader statusCode => Some statusCode
  | OpWrite _ | OpFlush => Some http_StatusOK
  | _ => None
  end.

(** The status classes [isStatusEligible] accepts. *)
Definition acceptedStatus (w : streamWriter) : Prop :=
  (200 ≤ status w < 300)%Z
  ∨ (injectOnNon2xx w = true ∧ (200 ≤ status w < 600)%Z).

(** A sink nothing was yet written to, and a writer for it, as [ServeHTTP]
    builds them. *)
Definition freshSink (h : Header) (script : list (option (nat * error)))
    (flusher hijacker : bool) : ResponseWriter :=
  mkResponseWriter h [] script flusher hijacker.

Definition plainSink : ResponseWriter := freshSink ∅ [] true true.

Definition exampleWriter (limit : Z) : streamWriter :=
  newStreamWriter plainSink limit "https://a/script.js" "abc" "</head>"
    true false.

(** A case table without entries ([To] returns the rune it is given), to
    run the definitions on concrete input. ASCII never reaches the table,
    and U+FFFD, which invalid UTF-8 decodes to, has no case mapping. *)
Definition noCaseTable : Z → Z := λ r, r.

(** * Proofs *)

(** ** Searching in byte slices *)

Lemma HasPrefix_app (s prefix : bytes) :
  HasPrefix s prefix = true ↔ ∃ rest, s = prefix ++ rest.
Proof.
  revert s. induction prefix as [|x prefix IH]; intros s; simpl.
  - split; [intros _; by exists s | done].
  - destruct s as [|y s].
    + split; [done | intros [rest Hr]; discriminate].
    + rewrite andb_true_iff, Ascii.eqb_eq, IH. split.
      * intros [-> [rest ->]]. by exists rest.
      * intros [rest Hr]. injection Hr as -> ->. eauto.
Qed.

Lemma HasPrefix_nil (s : bytes) : HasPrefix s [] = true.
Proof. by destruct s. Qed.

Lemma HasPrefix_length (s prefix : bytes) :
  HasPrefix s prefix = true → length prefix ≤ length s.
Proof.
  intros [rest ->]%HasPrefix_app. rewrite length_app. lia.
Qed.

Lemma Index_Some (s sep : bytes) (i : nat) :
  Index s sep = Some i →
  HasPrefix (drop i s) sep = true
  ∧ (∀ j, j < i → HasPrefix (drop j s) sep = false).
Proof.
  revert i. induction s as [|c s IH]; intros i; simpl.
  - destruct (HasPrefix [] sep) eqn:E; [|done].
    intros [= <-]. split; [done | intros; lia].
  - destruct (HasPrefix (c :: s) sep) eqn:E.
    + intros [= <-]. split; [done | intros; lia].
    + destruct (Index s sep) as [k|] eqn:Ek; [|done].
      intros [= <-]. destruct (IH k eq_refl) as [H1 H2].
      split; [done|]. intros [|j] Hj; [done|]. apply H2. lia.
Qed.

Lemma Index_None (s sep : bytes) (j : nat) :
  Index s sep = None → HasPrefix (drop j s) sep = false.
Proof.
  revert j. induction s as [|c s IH]; intros j; simpl.
  - destruct (HasPrefix [] sep) eqn:E; [done|]. intros _. by destruct j.
  - destruct (HasPrefix (c :: s) sep) eqn:E; [done|].
    destruct (Index s sep) eqn:Ek; [done|]. intros _.
    destruct j as [|j]; [done|]. by apply IH.
Qed.

Lemma Index_le (s sep : bytes) (i : nat) :
  Index s sep = Some i → i + length sep ≤ length s.
Proof.
  intros [H Hfirst]%Index_Some. pose proof (HasPrefix_length _ _ H) as Hl.
  rewrite length_drop in Hl. destruct (decide (i ≤ length s)); [lia|].
  specialize (Hfirst (length s) ltac:(lia)).
  destruct sep; [|simpl in Hl; lia].
  by rewrite HasPrefix_nil in Hfirst.
Qed.

Lemma Index_found (s sep : bytes) (j : nat) :
  HasPrefix (drop j s) sep = true → is_Some (Index s sep).
Proof.
  intros H. destruct (Index s sep) eqn:E; [eauto|].
  by rewrite (Index_None _ _ j E) in H.
Qed.

Lemma Contains_true (b sub : bytes) :
  Contains b sub = true ↔ ∃ l r, b = l ++ sub ++ r.
Proof.
  unfold Contains. split.
  - destruct (Index b sub) as [i|] eqn:E; [|done]. intros _.
    apply Index_Some in E as [[rest Hr]%HasPrefix_app _].
    exists (take i b), rest. by rewrite <- Hr, take_drop.
  - intros (l & r & ->).
    assert (is_Some (Index (l ++ sub ++ r) sub)) as [i ->]; [|done].
    apply (Index_found _ _ (length l)).
    rewrite drop_app_length. apply HasPrefix_app. eauto.
Qed.

Lemma Index_first (s sep : bytes) (i : nat) :
  HasPrefix (drop i s) sep = true →
  (∀ j, j < i → HasPrefix (drop j s) sep = false) →
  Index s sep = Some i.
Proof.
  intros Hi Hfirst. destruct (Index_found _ _ _ Hi) as [k Hk].
  destruct (Index_Some _ _ _ Hk) as [Hk1 Hk2].
  destruct (lt_eq_lt_dec i k) as [[Hlt| ->]|Hlt]; [|done|].
  - by rewrite (Hk2 _ Hlt) in Hi.
  - by rewrite (Hfirst _ Hlt) in Hk1.
Qed.

Lemma Contains_app (l b r sub : bytes) :
  Contains b sub = true → Contains (l ++ b ++ r) sub = true.
Proof.
  rewrite !Contains_true. intros (l' & r' & ->).
  exists (l ++ l'), (r' ++ r). by rewrite <- !app_assoc.
Qed.

(** ** Lower-casing *)

#[local] Arguments utf8.DecodeRune : simpl never.
#[local] Arguments utf8.AppendRune : simpl never.

Section LowerCase.

Variable lowerTable : Z → Z.

Lemma ToLower_ascii (s : bytes) :
  forallb isASCII s = true → ToLower lowerTable s = map lowerASCII s.
Proof. unfold ToLower. by intros ->. Qed.

Lemma ToLower_ascii_length (s : bytes) :
  forallb isASCII s = true → length (ToLower lowerTable s) = length s.
Proof. intros H. by rewrite ToLower_ascii, length_map. Qed.

(** [Map] only looks at the mapping on the runes of its argument. *)
Lemma MapFrom_ext (f g : Z → Z) (s : bytes) (skip : nat) :
  Forall (λ r, f r = g r) (runesFrom s skip) →
  MapFrom f s skip = MapFrom g s skip.
Proof.
  revert skip. induction s as [|c s IH]; intros skip; [done|]. simpl.
  destruct skip as [|k]; [|apply IH].
  destruct (if (byteZ c <? utf8.RuneSelf)%Z then (byteZ c, 1)
            else utf8.DecodeRune (c :: s)) as [r wid].
  intros [-> H]%Forall_cons. by rewrite (IH _ H).
Qed.

Lemma ToLower_ext (tbl : Z → Z) (s : bytes) :
  Forall (λ r, (0x7F < r)%Z → lowerTable r = tbl r) (runes s) →
  ToLower lowerTable s = ToLower tbl s.
Proof.
  intros H. unfold ToLower. destruct (forallb isASCII s); [done|].
  apply MapFrom_ext. eapply Forall_impl; [exact H|]. simpl.
  intros r Hr. unfold unicode.ToLower.
  destruct (r <=? 127)%Z eqn:E; [done|]. apply Hr. lia.
Qed.

Lemma tryInject_ext (tbl : Z → Z) (prefix : bytes)
    (src id tgt : string) (also : bool) :
  ToLower lowerTable prefix = ToLower tbl prefix →
  ToLower lowerTable (bytesOf tgt) = ToLower tbl (bytesOf tgt) →
  tryInject lowerTable prefix src id tgt also
  = tryInject tbl prefix src id tgt also.
Proof. unfold tryInject. by intros -> ->. Qed.

End LowerCase.

(** ** The splice engine *)

(** Discharges [Forall (λ r, 0x7F < r → tbl r = noCaseTable r) (runes s)]
    for a concrete [s] whose only rune above ASCII is U+FFFD. *)
Ltac runes_agree H :=
  apply ToLower_ext; vm_compute;
  repeat constructor; first [by intros ? | intros _; exact H].

Section Splice.

Variable lowerTable : Z → Z.

Lemma Index_firstOccurrence (s sep : bytes) (i : nat) :
  Index s sep = Some i ↔ firstOccurrence s sep i.
Proof.
  split; [apply Index_Some | intros [H1 H2]; by apply Index_first].
Qed.

Lemma Index_absent (s sep : bytes) : Index s sep = None ↔ absent s sep.
Proof.
  split; [intros H j; by apply Index_None|].
  intros H. destruct (Index s sep) as [i|] eqn:E; [|done].
  apply Index_Some in E as [E _]. by rewrite H in E.
Qed.

Lemma snippetOf_contains (src id : string) :
  Contains (snippetOf src id) (bytesOf src) = true.
Proof.
  apply Contains_true. unfold snippetOf.
  exists (bytesOf "<script defer src=" ++ [dquote]),
    ([dquote] ++ bytesOf " data-website-id=" ++ [dquote] ++ bytesOf id
     ++ [dquote] ++ bytesOf "></script>").
  by rewrite <- app_assoc.
Qed.

Lemma spliceAt_Injected (prefix snippet out : bytes) (idx : nat) :
  spliceAt prefix snippet idx = Injected out →
  idx ≤ length prefix ∧ out = take idx prefix ++ snippet ++ drop idx prefix.
Proof.
  unfold spliceAt. destruct (length prefix <? idx) eqn:E; [done|].
  apply Nat.ltb_ge in E. by intros [= <-].
Qed.

(** Whatever [tryInject] returns as injected is the buffer with the snippet
    spliced in at one offset: the bytes of the buffer are all there, in
    order. *)
Lemma tryInject_Injected (prefix out : bytes) (src id tgt : string)
    (also : bool) :
  tryInject lowerTable prefix src id tgt also = Injected out →
  ∃ idx, idx ≤ length prefix
    ∧ out = take idx prefix ++ snippetOf src id ++ drop idx prefix
    ∧ Contains prefix (bytesOf src) = false
    ∧ (Index (ToLower lowerTable prefix) (ToLower lowerTable (bytesOf tgt))
         = Some idx
       ∨ (Index (ToLower lowerTable prefix) (ToLower lowerTable (bytesOf tgt))
            = None
          ∧ also = true
          ∧ Index (ToLower lowerTable prefix) (bytesOf "</body>") = Some idx)).
Proof.
  unfold tryInject. destruct (length prefix =? 0); [done|].
  destruct (Contains prefix (bytesOf src)) eqn:EC; [done|].
  destruct (Index _ (ToLower _ _)) as [i|] eqn:E1.
  - intros [? ->]%spliceAt_Injected. exists i. eauto.
  - destruct also; [|done].
    destruct (Index _ (bytesOf _)) as [i|] eqn:E2; [|done].
    intros [? ->]%spliceAt_Injected. exists i. eauto 10.
Qed.

(** A second pass over an injected buffer injects nothing. *)
Lemma tryInject_twice (prefix out : bytes) (src id tgt : string)
    (also : bool) (src' id' tgt' : string) (also' : bool) :
  tryInject lowerTable prefix src id tgt also = Injected out →
  tryInject lowerTable out src id' tgt' also' = NotInjected.
Proof.
  intros (idx & _ & -> & _)%tryInject_Injected. unfold tryInject.
  destruct (length _ =? 0); [done|].
  by rewrite Contains_app by apply snippetOf_contains.
Qed.

End Splice.

(** X1. On a buffer of ASCII bytes that is not empty and does not hold the
    script source, [tryInject] splices the snippet in immediately before the
    first case-insensitive occurrence of the primary target; when the
    primary target is absent and the body-closing target is enabled,
    immediately before the first occurrence of [</body>]; and it reports
    failure when neither occurs. The bytes around the snippet are those of
    the buffer, casing included. *)
Theorem tryInject_ascii (lowerTable : Z → Z) (prefix : bytes)
    (src id tgt : string) (also : bool) :
  forallb isASCII prefix = true →
  prefix ≠ [] →
  Contains prefix (bytesOf src) = false →
  let lower := map lowerASCII prefix in
  let target := ToLower lowerTable (bytesOf tgt) in
  let splice i := Injected (take i prefix ++ snippetOf src id ++ drop i prefix) in
  (∀ i, firstOccurrence lower target i →
        tryInject lowerTable prefix src id tgt also = splice i)
  ∧ (∀ i, absent lower target → also = true →
          firstOccurrence lower (bytesOf "</body>") i →
          tryInject lowerTable prefix src id tgt also = splice i)
  ∧ (absent lower target →
     also = false ∨ absent lower (bytesOf "</body>") →
     tryInject lowerTable prefix src id tgt also = NotInjected).
Proof.
  intros Hascii Hne Hsrc lower target splice.
  assert (Hlen : (length prefix =? 0) = false).
  { apply Nat.eqb_neq. by destruct prefix. }
  assert (Hsplice : ∀ i sep, Index lower sep = Some i →
            spliceAt prefix (snippetOf src id) i = splice i).
  { intros i sep Hi%Index_le. unfold spliceAt.
    replace (length prefix <? i) with false; [done|].
    symmetry. apply Nat.ltb_ge. unfold lower in Hi.
    rewrite length_map in Hi. lia. }
  unfold tryInject. rewrite Hlen, Hsrc, ToLower_ascii by done.
  fold lower target. repeat split.
  - intros i Hi%Index_firstOccurrence. rewrite Hi. eauto.
  - intros i Ha%Index_absent -> Hi%Index_firstOccurrence.
    rewrite Ha, Hi. eauto.
  - intros Ha%Index_absent [-> | Hb%Index_absent]; rewrite Ha; [done|].
    rewrite Hb. by destruct also.
Qed.

Lemma tryInject_ascii_witness :
  let prefix := bytesOf "<html><HEAD></HEAD><body>OK</body></html>" in
  tryInject noCaseTable prefix "https://a/script.js" "abc" "</head>" true
  = Injected (bytesOf "<html><HEAD>"
              ++ snippetOf "https://a/script.js" "abc"
              ++ bytesOf "</HEAD><body>OK</body></html>").
Proof.
  intros prefix.
  refine (proj1 (tryInject_ascii noCaseTable prefix "https://a/script.js"
                   "abc" "</head>" true _ _ _) 12 _).
  - reflexivity.
  - discriminate.
  - reflexivity.
  - split; [reflexivity|].
    intros j Hj. do 12 (destruct j as [|j]; [reflexivity|]). lia.
Defined.

(** C2. [tryInject] searches the lower-cased copy of the buffer and splices
    at the index it finds there. [bytes.ToLower] re-encodes a buffer with a
    byte above ASCII as UTF-8, writing each invalid byte as U+FFFD (three
    bytes), so the index is no longer an index of the buffer: in a Latin-1
    page the snippet lands inside the closing tag, and with enough such
    bytes the slice expression is out of range and the call panics. The
    only fact used about Go's case tables is that U+FFFD has no lower-case
    mapping. *)
Theorem tryInject_latin1_misplaced (lowerTable : Z → Z) :
  lowerTable 0xFFFD%Z = 0xFFFD%Z →
  tryInject lowerTable
    (bytesOf "<title>caf" ++ ["233"%char] ++ bytesOf "</title></head>")
    "s.js" "abc" "</head>" true
  = Injected (bytesOf "<title>caf" ++ ["233"%char] ++ bytesOf "</title></"
              ++ snippetOf "s.js" "abc" ++ bytesOf "head>")
  ∧ tryInject lowerTable
      (["233"%char; "233"%char; "233"%char; "233"%char] ++ bytesOf "</head>")
      "s.js" "abc" "</head>" true
    = SliceOutOfRange.
Proof.
  intros H. split.
  - rewrite (tryInject_ext lowerTable noCaseTable);
      [by vm_compute | runes_agree H | runes_agree H].
  - rewrite (tryInject_ext lowerTable noCaseTable);
      [by vm_compute | runes_agree H | runes_agree H].
Qed.

Lemma tryInject_latin1_misplaced_witness :
  tryInject noCaseTable
    (bytesOf "<title>caf" ++ ["233"%char] ++ bytesOf "</title></head>")
    "s.js" "abc" "</head>" true
  = Injected (bytesOf "<title>caf" ++ ["233"%char] ++ bytesOf "</title></"
              ++ snippetOf "s.js" "abc" ++ bytesOf "head>").
Proof. exact (proj1 (tryInject_latin1_misplaced noCaseTable eq_refl)). Defined.

(** ** The classifier *)

Lemma isStatusEligible_accepted (w : streamWriter) :
  isStatusEligible w = true ↔ acceptedStatus w.
Proof.
  unfold isStatusEligible, acceptedStatus.
  destruct (injectOnNon2xx w); rewrite andb_true_iff; split.
  - intros [?%Z.leb_le ?%Z.ltb_lt]. right. split; [done | lia].
  - intros [[??]|[_ [??]]]; split; (apply Z.leb_le || apply Z.ltb_lt); lia.
  - intros [?%Z.leb_le ?%Z.ltb_lt]. left. lia.
  - intros [[??]|[? _]]; [|done].
    split; (apply Z.leb_le || apply Z.ltb_lt); lia.
Qed.

Lemma sniffLimit_pos : 0 < sniffLimit.
Proof. unfold sniffLimit. apply Nat.lt_0_succ. Qed.

#[local] Opaque sniffLimit.

Lemma sniffHTML_window (lowerTable : Z → Z) (sample : bytes) :
  sniffHTML lowerTable sample = sniffHTML lowerTable (take sniffLimit sample).
Proof.
  pose proof sniffLimit_pos as Hpos. unfold sniffHTML.
  destruct (decide (length sample ≤ sniffLimit)) as [Hle|Hgt].
  - by rewrite !(take_ge sample sniffLimit) by done.
  - rewrite take_take, Nat.min_id, length_take, (Nat.min_l sniffLimit) by lia.
    rewrite Nat.ltb_irrefl.
    replace (length sample =? 0) with false
      by (symmetry; apply Nat.eqb_neq; lia).
    replace (sniffLimit =? 0) with false
      by (symmetry; apply Nat.eqb_neq; lia).
    replace (sniffLimit <? length sample) with true
      by (symmetry; apply Nat.ltb_lt; lia).
    done.
Qed.

(** C7 (as amended). The classifier follows its rules in order: a status
    outside the accepted class is ineligible; otherwise a content type with
    an HTML media token is eligible; otherwise a content type that
    [strings.TrimSpace] does not leave empty is ineligible; otherwise
    (content type absent, empty, or left empty by [strings.TrimSpace]) the
    sample is sniffed. The sniff takes the first [sniffLimit] (2048) bytes
    of the sample and then trims leading spaces, tabs, carriage returns and
    line feeds from them; the markers are looked for in the lower-cased
    bytes. No byte is indeterminate; a doctype or root-tag prefix or a head
    or body tag is eligible; an XML-declaration prefix is ineligible;
    anything else is indeterminate. *)
Theorem classifier_rules (lowerTable : Z → Z) (w : streamWriter)
    (sample : bytes) :
  let ct := ToLower lowerTable (bytesOf (Header.Get (header w) "Content-Type")) in
  let html := Contains ct (bytesOf "text/html")
              || Contains ct (bytesOf "application/xhtml+xml") in
  let lower := TrimLeft (ToLower lowerTable (take sniffLimit sample)) whitespace in
  let marked := HasPrefix lower (bytesOf "<!doctype html")
                || HasPrefix lower (bytesOf "<html")
                || Contains lower (bytesOf "<head")
                || Contains lower (bytesOf "<body") in
  let result := htmlCandidateFromHeadersAndSniff lowerTable w sample in
  (¬ acceptedStatus w → result = candidateNo)
  ∧ (acceptedStatus w → html = true → result = candidateYes)
  ∧ (acceptedStatus w → html = false → TrimSpace_isEmpty ct = false →
     result = candidateNo)
  ∧ (acceptedStatus w → html = false → TrimSpace_isEmpty ct = true →
     result = sniffHTML lowerTable sample)
  ∧ sniffHTML lowerTable sample = sniffHTML lowerTable (take sniffLimit sample)
  ∧ (sample = [] → sniffHTML lowerTable sample = candidateMaybe)
  ∧ (sample ≠ [] → marked = true → sniffHTML lowerTable sample = candidateYes)
  ∧ (sample ≠ [] → marked = false →
     HasPrefix lower (bytesOf "<?xml") = true →
     sniffHTML lowerTable sample = candidateNo)
  ∧ (sample ≠ [] → marked = false →
     HasPrefix lower (bytesOf "<?xml") = false →
     sniffHTML lowerTable sample = candidateMaybe).
Proof.
  intros ct html lower marked result.
  assert (Hsniff : sample ≠ [] →
    sniffHTML lowerTable sample
    = if marked then candidateYes
      else if HasPrefix lower (bytesOf "<?xml") then candidateNo
      else candidateMaybe).
  { intros Hne. rewrite sniffHTML_window. unfold sniffHTML.
    pose proof sniffLimit_pos as Hpos.
    replace (length (take sniffLimit sample) =? 0) with false
      by (symmetry; apply Nat.eqb_neq; rewrite length_take;
          destruct sample; [done | simpl; lia]).
    replace (sniffLimit <? length (take sniffLimit sample)) with false
      by (symmetry; apply Nat.ltb_ge; rewrite length_take; lia).
    fold lower. unfold marked.
    destruct (HasPrefix lower (bytesOf "<!doctype html")); [done|].
    destruct (HasPrefix lower (bytesOf "<html")); [done|].
    by destruct (Contains lower (bytesOf "<head") || Contains lower (bytesOf "<body")) eqn:E;
      simpl in *; rewrite E. }
  unfold result, htmlCandidateFromHeadersAndSniff. fold ct. fold html.
  repeat split.
  - intros H. destruct (isStatusEligible w) eqn:E; [|done].
    by apply isStatusEligible_accepted in E.
  - intros ->%isStatusEligible_accepted ->. done.
  - intros ->%isStatusEligible_accepted -> ->. done.
  - intros ->%isStatusEligible_accepted -> ->. done.
  - apply sniffHTML_window.
  - by intros ->.
  - intros Hne Hm. by rewrite Hsniff, Hm.
  - intros Hne Hm Hx. by rewrite Hsniff, Hm, Hx.
  - intros Hne Hm Hx. by rewrite Hsniff, Hm, Hx.
Qed.

(** C7, counterexample. Three inputs on which the classifier departs from
    the rules as first worded. A content type of one space is not empty and
    names no HTML media type, yet the answer is not ineligible: the value
    is trimmed with [strings.TrimSpace], found blank, and the sample is
    sniffed. A sample of 2048 spaces followed by [<html>] starts with the
    root tag once its leading spaces are trimmed, yet the answer is
    indeterminate: the sample is cut to its first 2048 bytes before the
    trim, so the tag is never seen. And a sample that starts with a
    vertical tab, which [strings.TrimSpace] would trim, is indeterminate
    too: the trim of the sample removes spaces, tabs, carriage returns and
    line feeds only. *)
Lemma classifier_departures :
  let w0 := exampleWriter 1024 in
  let w := set_header w0 (Header.Set_ ∅ "Content-Type" " ") in
  let late := replicate 2048 " "%char ++ bytesOf "<html>" in
  let vt := "011"%char :: bytesOf "<html>" in
  (Header.Get (header w) "Content-Type" = " "%string
   ∧ htmlCandidateFromHeadersAndSniff noCaseTable w (bytesOf "<html>")
     = candidateYes)
  ∧ (Header.Get (header w0) "Content-Type" = EmptyString
     ∧ HasPrefix (TrimLeft late whitespace) (bytesOf "<html") = true
     ∧ htmlCandidateFromHeadersAndSniff noCaseTable w0 late = candidateMaybe)
  ∧ (unicode.IsSpace (byteZ "011"%char) = true
     ∧ TrimSpace (stringOf vt) = "<html>"%string
     ∧ htmlCandidateFromHeadersAndSniff noCaseTable w0 vt = candidateMaybe).
Proof. by vm_compute. Qed.

(** ** The operations of the writer, one by one *)

Ltac open_writer w :=
  let o := fresh "o" in
  destruct w as [o ? ? ? ? ? ? ? ? ? ? ? ?]; destruct o as [? ? ? ? ?];
  simpl in *.

Lemma set_buf_id (w : streamWriter) : set_buf w (buf w ++ []) = w.
Proof. open_writer w. unfold set_buf. simpl. by rewrite app_nil_r. Qed.

Lemma flushHeaders_idem (w : streamWriter) :
  flushHeaders (flushHeaders w) = flushHeaders w.
Proof. unfold flushHeaders. by destruct (headersFlushed w) eqn:E; simpl; rewrite ?E. Qed.

Lemma flushHeaders_flushed (w : streamWriter) :
  headersFlushed w = true → flushHeaders w = w.
Proof. unfold flushHeaders. by intros ->. Qed.

Section Operations.

Variable lowerTable : Z → Z.

Lemma Write_terminal (w : streamWriter) (p : bytes) :
  state w ≠ undecided →
  Write lowerTable w p = Some (origWrite (flushHeaders (implicitHeader w)) p).
Proof.
  intros H. unfold Write.
  assert (state (implicitHeader w) = state w) as E.
  { unfold implicitHeader, WriteHeader. by destruct (wroteHeader w). }
  revert E. generalize (implicitHeader w). intros w1 E.
  rewrite <- E in H. by destruct (state w1).
Qed.

Lemma Write_undecided_marked (w : streamWriter) (p : bytes) :
  implicitHeader w = w → state w = undecided → p ≠ [] →
  let c := absorbed w p in
  let w2 := set_buf w (buf w ++ take c p) in
  let tried := tryInject lowerTable (buf w2) (scriptSrc w) (websiteID w)
                 (injectBefore w) (alsoMatchBodyClose w) in
  Write lowerTable w p = Some (forwardRest (fallBack w2) p c)
  ∨ (Write lowerTable w p = Some ((Z.of_nat (length p), None), w2)
     ∧ c = length p
     ∧ (Z.of_nat (length (buf w2)) < lookaheadLimit w)%Z
     ∧ Contains (buf w2) (bytesOf (scriptSrc w)) = false)
  ∨ (∃ updated, tried = Injected updated
     ∧ Contains (buf w2) (bytesOf (scriptSrc w)) = false
     ∧ Write lowerTable w p = Some (writeInjected w2 p updated c))
  ∨ (tried = SliceOutOfRange
     ∧ Contains (buf w2) (bytesOf (scriptSrc w)) = false
     ∧ Write lowerTable w p = None).
Proof.
  intros Hi Hst Hp.
  assert (Hlen : (length p =? 0) = false)
    by (apply Nat.eqb_neq; by destruct p).
  assert (Hlt : (0 <? length p) = true)
    by (apply Nat.ltb_lt; destruct p; [done | simpl; lia]).
  unfold Write, absorbed. rewrite Hi, Hst, Hlen.
  destruct (negb (String.eqb _ _)) eqn:ECE.
  { left. cbn zeta. rewrite take_0, set_buf_id.
    unfold forwardRest. by rewrite Hlt, drop_0. }
  destruct (_ <=? 0)%Z eqn:Erem.
  { left. cbn zeta. rewrite take_0, set_buf_id.
    unfold forwardRest. by rewrite Hlt, drop_0. }
  set (consumed := if (Z.of_nat (length p) <=? _)%Z then _ else _).
  cbn zeta. set (w2 := set_buf w (buf w ++ take consumed p)).
  change (scriptSrc w2) with (scriptSrc w).
  change (websiteID w2) with (websiteID w).
  change (injectBefore w2) with (injectBefore w).
  change (alsoMatchBodyClose w2) with (alsoMatchBodyClose w).
  change (lookaheadLimit w2) with (lookaheadLimit w).
  assert (Hfull : (lookaheadLimit w <=? Z.of_nat (length (buf w2)))%Z = false
                  → consumed = length p
                    ∧ (Z.of_nat (length (buf w2)) < lookaheadLimit w)%Z).
  { intros Hf%Z.leb_gt. split; [|done]. subst consumed w2. simpl in Hf.
    destruct (Z.of_nat (length p) <=? _)%Z eqn:E; [done|].
    apply Z.leb_gt in E, Erem. rewrite length_app, length_take in Hf. lia. }
  destruct (htmlCandidateFromHeadersAndSniff lowerTable w2 (buf w2)) eqn:Ecand;
    [by left| |];
    (destruct (Contains (buf w2) (bytesOf (scriptSrc w))) eqn:Ecnt;
     [by left|]).
  - destruct (lookaheadLimit w <=? Z.of_nat (length (buf w2)))%Z eqn:Ef;
      [by left|].
    right; left. destruct (Hfull eq_refl) as [Hc ?]. by rewrite Hc in *.
  - destruct (tryInject _ _ _ _ _ _) as [updated| |] eqn:Etry.
    + right; right; left. eauto.
    + destruct (lookaheadLimit w <=? Z.of_nat (length (buf w2)))%Z eqn:Ef;
      [by left|].
      right; left. destruct (Hfull eq_refl) as [Hc ?]. by rewrite Hc in *.
    + right; right; right. done.
Qed.

Lemma implicitHeader_idem (w : streamWriter) :
  implicitHeader (implicitHeader w) = implicitHeader w.
Proof.
  unfold implicitHeader, WriteHeader.
  by destruct (wroteHeader w) eqn:E; simpl; rewrite ?E.
Qed.

Lemma Write_implicitHeader (w : streamWriter) (p : bytes) :
  Write lowerTable w p = Write lowerTable (implicitHeader w) p.
Proof. unfold Write. by rewrite implicitHeader_idem. Qed.

Lemma implicitHeader_same (w : streamWriter) :
  state (implicitHeader w) = state w
  ∧ header (implicitHeader w) = header w
  ∧ buf (implicitHeader w) = buf w
  ∧ config (implicitHeader w) = config w
  ∧ orig (implicitHeader w) = orig w
  ∧ headersFlushed (implicitHeader w) = headersFlushed w.
Proof. unfold implicitHeader, WriteHeader. by destruct (wroteHeader w). Qed.

Lemma Write_undecided (w : streamWriter) (p : bytes) :
  state w = undecided → p ≠ [] →
  let w1 := implicitHeader w in
  let c := absorbed w p in
  let w2 := set_buf w1 (buf w1 ++ take c p) in
  let tried := tryInject lowerTable (buf w2) (scriptSrc w) (websiteID w)
                 (injectBefore w) (alsoMatchBodyClose w) in
  Write lowerTable w p = Some (forwardRest (fallBack w2) p c)
  ∨ (Write lowerTable w p = Some ((Z.of_nat (length p), None), w2)
     ∧ c = length p
     ∧ (Z.of_nat (length (buf w2)) < lookaheadLimit w)%Z
     ∧ Contains (buf w2) (bytesOf (scriptSrc w)) = false)
  ∨ (∃ updated, tried = Injected updated
     ∧ Contains (buf w2) (bytesOf (scriptSrc w)) = false
     ∧ Write lowerTable w p = Some (writeInjected w2 p updated c))
  ∨ (tried = SliceOutOfRange
     ∧ Contains (buf w2) (bytesOf (scriptSrc w)) = false
     ∧ Write lowerTable w p = None).
Proof.
  intros Hst Hp w1.
  destruct (implicitHeader_same w) as (Hst1 & Hh1 & Hb1 & Hc1 & _).
  injection Hc1 as Hlim1 Hsrc1 Hid1 Htgt1 Halso1 Hn2.
  assert (absorbed w p = absorbed w1 p) as ->.
  { unfold absorbed, w1. by rewrite Hh1, Hb1, Hlim1. }
  rewrite Write_implicitHeader. fold w1.
  rewrite <- Hsrc1, <- Hid1, <- Htgt1, <- Halso1, <- Hlim1.
  apply Write_undecided_marked; [apply implicitHeader_idem | | done].
  unfold w1. by rewrite Hst1.
Qed.

End Operations.

(** ** What the operations leave unchanged, and what they set *)

Ltac unfold_ops :=
  unfold writeInjected, forwardRest, fallBack, flushBuffer, origWrite,
    flushHeaders, prepareHeadersForInjection, implicitHeader, WriteHeader,
    rw_Write, rw_WriteHeader, rw_setHeader, rw_record, rw_Flush, rw_Hijack,
    set_state, set_buf, set_header, set_orig, config in *.

Ltac crush :=
  unfold_ops; simpl in *;
  repeat (case_match; simpl in *; simplify_eq; try done).

Lemma state_fallBack (w : streamWriter) : state (fallBack w) = passthrough.
Proof. crush. Qed.

Lemma state_origWrite (w : streamWriter) (p : bytes) :
  state (origWrite w p).2 = state w.
Proof. crush. Qed.

Lemma state_forwardRest (w : streamWriter) (p : bytes) (c : nat) :
  state (forwardRest w p c).2 = state w.
Proof. crush. Qed.

Lemma state_writeInjected (w : streamWriter) (p u : bytes) (c : nat) :
  state (writeInjected w p u c).2 = injecting.
Proof. crush. Qed.

Lemma state_flushHeaders (w : streamWriter) :
  state (flushHeaders w) = state w.
Proof. crush. Qed.

Lemma state_implicitHeader (w : streamWriter) :
  state (implicitHeader w) = state w.
Proof. crush. Qed.

Lemma config_fallBack (w : streamWriter) : config (fallBack w) = config w.
Proof. crush. Qed.

Lemma config_origWrite (w : streamWriter) (p : bytes) :
  config (origWrite w p).2 = config w.
Proof. crush. Qed.

Lemma config_forwardRest (w : streamWriter) (p : bytes) (c : nat) :
  config (forwardRest w p c).2 = config w.
Proof. crush. Qed.

Lemma config_writeInjected (w : streamWriter) (p u : bytes) (c : nat) :
  config (writeInjected w p u c).2 = config w.
Proof. crush. Qed.

Lemma config_flushHeaders (w : streamWriter) :
  config (flushHeaders w) = config w.
Proof. crush. Qed.

Lemma config_implicitHeader (w : streamWriter) :
  config (implicitHeader w) = config w.
Proof. crush. Qed.

Lemma headersFlushed_fallBack (w : streamWriter) :
  headersFlushed (fallBack w) = true.
Proof. crush. Qed.

Lemma headersFlushed_forwardRest (w : streamWriter) (p : bytes) (c : nat) :
  headersFlushed (forwardRest w p c).2 = headersFlushed w.
Proof. crush. Qed.

Lemma headersFlushed_origWrite (w : streamWriter) (p : bytes) :
  headersFlushed (origWrite w p).2 = headersFlushed w.
Proof. crush. Qed.

Lemma headersFlushed_writeInjected (w : streamWriter) (p u : bytes) (c : nat) :
  headersFlushed (writeInjected w p u c).2 = true.
Proof. crush. Qed.

(** ** What reaches the sink *)

Lemma delivered_app (l1 l2 : list call) :
  delivered (l1 ++ l2) = delivered l1 ++ delivered l2.
Proof. unfold delivered. by rewrite omap_app, concat_app. Qed.

Lemma handed_app (l1 l2 : list call) :
  handed (l1 ++ l2) = handed l1 ++ handed l2.
Proof. unfold handed. by rewrite omap_app, concat_app. Qed.

Lemma headerCalls_app (l1 l2 : list call) :
  headerCalls (l1 ++ l2) = headerCalls l1 ++ headerCalls l2.
Proof. unfold headerCalls. by rewrite omap_app. Qed.

Lemma answer_faultless (o : ResponseWriter) (p : bytes) :
  faultless o → answer (rw_script o) p = (length p, None).
Proof.
  unfold faultless, answer. destruct (rw_script o) as [|[[k e]|] s]; [done| |done].
  by intros [? _]%Forall_cons.
Qed.

Lemma answer_le (s : list (option (nat * error))) (p : bytes) :
  (answer s p).1 ≤ length p.
Proof. unfold answer. destruct s as [|[[k e]|] s]; simpl; lia. Qed.

Lemma answer_short (s : list (option (nat * error))) (p : bytes) :
  (answer s p).2 = None → (answer s p).1 = length p.
Proof. unfold answer. by destruct s as [|[[k e]|] s]. Qed.

Lemma faultless_tail (o : ResponseWriter) (h : Header) (c : list call) :
  faultless o →
  faultless (mkResponseWriter h c (tail (rw_script o)) (rw_flusher o)
                              (rw_hijacker o)).
Proof.
  unfold faultless. simpl. destruct (rw_script o); [done|].
  by intros [_ ?]%Forall_cons.
Qed.

(** [origWrite]: one more call on the sink, answered by its script. *)
Lemma origWrite_spec (w : streamWriter) (p : bytes) :
  let a := answer (rw_script (orig w)) p in
  (origWrite w p).1 = (Z.of_nat a.1, a.2)
  ∧ rw_calls (orig (origWrite w p).2)
    = rw_calls (orig w) ++ [CallWrite p a.1 a.2]
  ∧ rw_script (orig (origWrite w p).2) = tail (rw_script (orig w))
  ∧ rw_header (orig (origWrite w p).2) = rw_header (orig w)
  ∧ buf (origWrite w p).2 = buf w
  ∧ header (origWrite w p).2 = header w.
Proof.
  unfold origWrite, rw_Write. by destruct (answer _ _). 
Qed.

Lemma origWrite_faultless (w : streamWriter) (p : bytes) :
  faultless (orig w) →
  (origWrite w p).1 = (Z.of_nat (length p), None)
  ∧ faultless (orig (origWrite w p).2)
  ∧ delivered (rw_calls (orig (origWrite w p).2))
    = delivered (rw_calls (orig w)) ++ p
  ∧ headerCalls (rw_calls (orig (origWrite w p).2))
    = headerCalls (rw_calls (orig w)).
Proof.
  intros Hf. destruct (origWrite_spec w p) as (H1 & H2 & H3 & _).
  rewrite (answer_faultless _ _ Hf) in H1, H2. simpl in *.
  rewrite H1, H2, delivered_app, headerCalls_app. repeat split.
  - unfold faultless in *. rewrite H3. destruct (rw_script (orig w)); [done|].
    by apply Forall_cons in Hf as [_ ?].
  - unfold delivered. simpl. by rewrite firstn_all, app_nil_r.
  - simpl. by rewrite app_nil_r.
Qed.

(** The header map the sink ends up with when the captured headers
    [captured] are flushed onto it. *)
Lemma flushHeaders_spec (w : streamWriter) :
  headersFlushed w = false →
  let hdr := copyHeader (header w) (clearHeader (rw_header (orig w))) in
  rw_calls (orig (flushHeaders w))
  = rw_calls (orig w) ++ [CallWriteHeader hdr (status w)]
  ∧ rw_header (orig (flushHeaders w)) = hdr
  ∧ rw_script (orig (flushHeaders w)) = rw_script (orig w)
  ∧ headersFlushed (flushHeaders w) = true
  ∧ buf (flushHeaders w) = buf w
  ∧ header (flushHeaders w) = header w
  ∧ status (flushHeaders w) = status w.
Proof. intros H. unfold flushHeaders. by rewrite H. Qed.

Lemma flushBuffer_spec (w : streamWriter) :
  let a := answer (rw_script (orig w)) (buf w) in
  rw_calls (orig (flushBuffer w))
  = rw_calls (orig w)
    ++ (if buf w is [] then [] else [CallWrite (buf w) a.1 a.2])
  ∧ rw_script (orig (flushBuffer w))
    = (if buf w is [] then rw_script (orig w) else tail (rw_script (orig w)))
  ∧ rw_header (orig (flushBuffer w)) = rw_header (orig w)
  ∧ buf (flushBuffer w) = []
  ∧ header (flushBuffer w) = header w
  ∧ status (flushBuffer w) = status w
  ∧ state (flushBuffer w) = state w
  ∧ headersFlushed (flushBuffer w) = headersFlushed w.
Proof.
  unfold flushBuffer. destruct (buf w) as [|c b] eqn:E; simpl.
  - by rewrite E, app_nil_r.
  - unfold origWrite, rw_Write. by destruct (answer _ _).
Qed.

Lemma fallBack_spec (w : streamWriter) :
  headersFlushed w = false →
  let hdr := copyHeader (header w) (clearHeader (rw_header (orig w))) in
  let a := answer (rw_script (orig w)) (buf w) in
  rw_calls (orig (fallBack w))
  = rw_calls (orig w) ++ CallWriteHeader hdr (status w)
    :: (if buf w is [] then [] else [CallWrite (buf w) a.1 a.2])
  ∧ rw_script (orig (fallBack w))
    = (if buf w is [] then rw_script (orig w) else tail (rw_script (orig w)))
  ∧ rw_header (orig (fallBack w)) = hdr
  ∧ buf (fallBack w) = []
  ∧ header (fallBack w) = header w
  ∧ status (fallBack w) = status w.
Proof.
  intros HF hdr a. unfold fallBack.
  set (w1 := set_state w passthrough).
  assert (HF1 : headersFlushed w1 = false) by done.
  destruct (flushHeaders_spec w1 HF1) as (C1 & S1 & H1 & _ & B1 & Hd1 & St1).
  destruct (flushBuffer_spec (flushHeaders w1))
    as (C2 & S2 & H2 & B2 & Hd2 & St2 & _).
  rewrite C2, S2, H2, B2, Hd2, St2, C1, H1, S1, B1, Hd1, St1.
  change (buf w1) with (buf w). change (header w1) with (header w).
  change (status w1) with (status w). change (orig w1) with (orig w).
  fold hdr. fold a. rewrite <- app_assoc. done.
Qed.

Lemma handed_fallBack (w : streamWriter) :
  headersFlushed w = false →
  handed (rw_calls (orig (fallBack w))) = handed (rw_calls (orig w)) ++ buf w.
Proof.
  intros HF. destruct (fallBack_spec w HF) as (-> & _).
  rewrite handed_app. unfold handed at 2. simpl.
  destruct (buf w); simpl; by rewrite ?app_nil_r.
Qed.

Lemma fallBack_faultless (w : streamWriter) :
  headersFlushed w = false → faultless (orig w) →
  faultless (orig (fallBack w))
  ∧ delivered (rw_calls (orig (fallBack w)))
    = delivered (rw_calls (orig w)) ++ buf w.
Proof.
  intros HF Hf. destruct (fallBack_spec w HF) as (-> & HS & _). split.
  - unfold faultless in *. rewrite HS. destruct (buf w); [done|].
    destruct (rw_script (orig w)); [done|]. by apply Forall_cons in Hf as [_ ?].
  - rewrite delivered_app. unfold delivered at 2. simpl.
    rewrite (answer_faultless _ _ Hf). simpl.
    destruct (buf w) as [|c b] eqn:E; simpl; [done|].
    by rewrite firstn_all, !app_nil_r.
Qed.

Lemma headerCalls_fallBack (w : streamWriter) :
  headersFlushed w = false →
  headerCalls (rw_calls (orig (fallBack w)))
  = headerCalls (rw_calls (orig w))
    ++ [(copyHeader (header w) (clearHeader (rw_header (orig w))), status w)].
Proof.
  intros HF. destruct (fallBack_spec w HF) as (-> & _).
  rewrite headerCalls_app. unfold headerCalls at 2. simpl.
  by destruct (buf w).
Qed.

Lemma forwardRest_spec (w : streamWriter) (p : bytes) (c : nat) :
  let a := answer (rw_script (orig w)) (drop c p) in
  (forwardRest w p c).1
  = (if c <? length p then (Z.of_nat a.1, a.2) else (Z.of_nat (length p), None))
  ∧ rw_calls (orig (forwardRest w p c).2)
    = rw_calls (orig w)
      ++ (if c <? length p then [CallWrite (drop c p) a.1 a.2] else [])
  ∧ rw_header (orig (forwardRest w p c).2) = rw_header (orig w)
  ∧ buf (forwardRest w p c).2 = buf w
  ∧ header (forwardRest w p c).2 = header w.
Proof.
  unfold forwardRest. destruct (c <? length p).
  - by destruct (origWrite_spec w (drop c p)) as (-> & -> & _ & -> & -> & ->).
  - simpl. by rewrite app_nil_r.
Qed.

Lemma handed_forwardRest (w : streamWriter) (p : bytes) (c : nat) :
  handed (rw_calls (orig (forwardRest w p c).2))
  = handed (rw_calls (orig w)) ++ drop c p.
Proof.
  destruct (forwardRest_spec w p c) as (_ & -> & _). rewrite handed_app.
  destruct (c <? length p) eqn:E; unfold handed at 2; simpl.
  - by rewrite app_nil_r.
  - apply Nat.ltb_ge in E. by rewrite drop_ge.
Qed.

Lemma forwardRest_faultless (w : streamWriter) (p : bytes) (c : nat) :
  faultless (orig w) →
  faultless (orig (forwardRest w p c).2)
  ∧ delivered (rw_calls (orig (forwardRest w p c).2))
    = delivered (rw_calls (orig w)) ++ drop c p
  ∧ headerCalls (rw_calls (orig (forwardRest w p c).2))
    = headerCalls (rw_calls (orig w))
  ∧ (forwardRest w p c).1.2 = None.
Proof.
  intros Hf. unfold forwardRest. destruct (c <? length p) eqn:E.
  - destruct (origWrite_faultless w (drop c p) Hf) as (-> & ? & -> & ->). done.
  - apply Nat.ltb_ge in E. simpl. by rewrite drop_ge, app_nil_r.
Qed.

Lemma writeInjected_faultless (w : streamWriter) (p u : bytes) (c : nat) :
  headersFlushed w = false → faultless (orig w) →
  let w' := (writeInjected w p u c).2 in
  faultless (orig w')
  ∧ delivered (rw_calls (orig w'))
    = delivered (rw_calls (orig w)) ++ u ++ drop c p
  ∧ buf w' = []
  ∧ (writeInjected w p u c).1 = (Z.of_nat (length p), None).
Proof.
  intros HF Hf. unfold writeInjected.
  set (w1 := prepareHeadersForInjection (set_state w injecting)).
  assert (HF1 : headersFlushed w1 = false) by done.
  destruct (flushHeaders_spec w1 HF1) as (C1 & _ & S1 & _).
  assert (Hf2 : faultless (orig (flushHeaders w1))).
  { unfold faultless. by rewrite S1. }
  assert (D2 : delivered (rw_calls (orig (flushHeaders w1)))
               = delivered (rw_calls (orig w))).
  { rewrite C1, delivered_app. unfold delivered at 2. simpl.
    by rewrite app_nil_r. }
  destruct (origWrite_faultless _ u Hf2) as (R3 & Hf3 & D3 & _).
  destruct (origWrite (flushHeaders w1) u) as [[n e] w3]. simpl in *.
  injection R3 as -> ->.
  destruct (c <? length p) eqn:E.
  - destruct (origWrite_faultless _ (drop c p) Hf3) as (R4 & Hf4 & D4 & _).
    destruct (origWrite w3 (drop c p)) as [[n e] w4]. simpl in *.
    injection R4 as -> ->. simpl. by rewrite D4, D3, D2, <- app_assoc.
  - apply Nat.ltb_ge in E. simpl. by rewrite D3, D2, drop_ge, app_nil_r.
Qed.

(** ** A response on a sink that takes every write *)

Lemma absorbed_bound (w : streamWriter) (p : bytes) :
  (Z.of_nat (length (buf w)) ≤ lookaheadLimit w)%Z →
  (Z.of_nat (length (buf w ++ take (absorbed w p) p)) ≤ lookaheadLimit w)%Z.
Proof.
  intros H. unfold absorbed. rewrite length_app, length_take.
  destruct (negb _); [simpl; lia|].
  destruct (_ <=? 0)%Z eqn:E1; [simpl; lia|]. apply Z.leb_gt in E1.
  destruct (Z.of_nat (length p) <=? _)%Z eqn:E2.
  - apply Z.leb_le in E2. lia.
  - apply Z.leb_gt in E2. lia.
Qed.

Lemma splicedInto_app (snippet body out more : bytes) :
  splicedInto snippet body out →
  splicedInto snippet (body ++ more) (out ++ more).
Proof.
  intros (i & Hi & ->). exists i. rewrite length_app. split; [lia|].
  rewrite take_app_le, drop_app_le by done. by rewrite <- !app_assoc.
Qed.

Lemma finish_fallBack (w : streamWriter) :
  state w = undecided → finish w = fallBack w.
Proof. unfold finish. by intros ->. Qed.

Lemma finish_terminal (w : streamWriter) :
  state w ≠ undecided → finish w = w.
Proof. unfold finish. by destruct (state w). Qed.

Section Streaming.

Variable lowerTable : Z → Z.
Variable cfg : Z * string * string * string * bool * bool.

Lemma Write_empty (w : streamWriter) :
  state w = undecided →
  Write lowerTable w [] = Some ((0%Z, None), implicitHeader w).
Proof.
  intros H. unfold Write. by rewrite state_implicitHeader, H.
Qed.

Lemma streaming_frame (pre : bytes) (w w' : streamWriter) :
  streaming lowerTable cfg pre w →
  config w' = config w → orig w' = orig w → state w' = state w →
  headersFlushed w' = headersFlushed w → buf w' = buf w →
  streaming lowerTable cfg pre w'.
Proof.
  intros (Hc & Hf & H) Ec Eo Es Eh Eb. unfold streaming.
  injection Ec as E1 E2 E3 E4 E5 E6.
  rewrite Eo, Es, Eh, Eb, E1, E2, E3, E4, E5. repeat split; try done.
  rewrite <- Hc. unfold config. by rewrite E1, E2, E3, E4, E5, E6.
Qed.

Lemma streaming_finish (pre : bytes) (w : streamWriter) :
  streaming lowerTable cfg pre w →
  streaming lowerTable cfg pre (finish w) ∧ state (finish w) ≠ undecided.
Proof.
  intros (Hc & Hf & H). destruct (state w) eqn:Es.
  - rewrite finish_fallBack by done. destruct H as (HF & D & B & _).
    destruct (fallBack_faultless w HF Hf) as (Hf' & D').
    split; [|by rewrite state_fallBack].
    unfold streaming.
    rewrite state_fallBack, config_fallBack, headersFlushed_fallBack.
    repeat split; try done. by rewrite D', D, B.
  - rewrite finish_terminal by (by rewrite Es). split; [|by rewrite Es].
    unfold streaming. by rewrite Es.
  - rewrite finish_terminal by (by rewrite Es). split; [|by rewrite Es].
    unfold streaming. by rewrite Es.
Qed.

Lemma streaming_record (pre : bytes) (w : streamWriter) (c : call) :
  c = CallFlush ∨ c = CallHijack →
  streaming lowerTable cfg pre w →
  streaming lowerTable cfg pre (set_orig w (rw_record (orig w) c)).
Proof.
  intros Hcall (Hc & Hf & H). unfold streaming.
  change (state (set_orig w _)) with (state w).
  change (config (set_orig w _)) with (config w).
  assert (D : delivered (rw_calls (orig w) ++ [c]) = delivered (rw_calls (orig w))).
  { rewrite delivered_app.
    destruct Hcall as [-> | ->]; unfold delivered at 2; simpl;
      by rewrite app_nil_r. }
  repeat split; try done.
  destruct (state w); simpl; by rewrite D.
Qed.

End Streaming.

(** From [Some x = Some (r, w)]: [r] and [w] are replaced by the
    components of [x]. *)
Ltac result_of HW r w :=
  apply (inj Some) in HW;
  let Hr := fresh "Hr" in let Hw := fresh "Hw" in
  pose proof (f_equal fst HW) as Hr; pose proof (f_equal snd HW) as Hw;
  simpl in Hr, Hw; subst r w; clear HW.

Section StreamingSteps.

Variable lowerTable : Z → Z.
Variable cfg : Z * string * string * string * bool * bool.

Lemma streaming_Write (pre p : bytes) (w w' : streamWriter)
    (r : Z * option error) :
  streaming lowerTable cfg pre w →
  Write lowerTable w p = Some (r, w') →
  streaming lowerTable cfg (pre ++ p) w' ∧ r.2 = None.
Proof.
  intros HI HW. pose proof HI as (Hc & Hf & H).
  destruct (implicitHeader_same w) as (Hs1 & Hh1 & Hb1 & Hc1 & Ho1 & HF1).
  destruct (state w) eqn:Es.
  - (* undecided *)
    destruct H as (HF & D & B & Hbound).
    destruct p as [|x p'].
    { rewrite Write_empty in HW by done. result_of HW r w'.
      rewrite app_nil_r. split; [|done].
      apply (streaming_frame lowerTable cfg pre w); try done; by rewrite Es. }
    set (p := x :: p') in *.
    assert (Hp : p ≠ []) by done.
    pose proof (Write_undecided lowerTable w p Es Hp) as HU.
    cbv zeta in HU. destruct HU
      as [HW1|[(HW1 & Habs & Hlt & _)|[(u & Htry & _ & HW1)|(_ & _ & HW1)]]];
      rewrite HW1 in HW; [| | |done]; result_of HW r w'.
    + (* fall back to passthrough *)
      set (w2 := set_buf (implicitHeader w) _).
      assert (HF2 : headersFlushed w2 = false) by (by rewrite <- HF, <- HF1).
      assert (Hf2 : faultless (orig w2)).
      { change (orig w2) with (orig (implicitHeader w)). by rewrite Ho1. }
      destruct (fallBack_faultless w2 HF2 Hf2) as (Hf3 & D3).
      destruct (forwardRest_faultless (fallBack w2) p (absorbed w p) Hf3)
        as (Hf4 & D4 & _ & R4).
      split; [|done]. unfold streaming.
      rewrite state_forwardRest, state_fallBack, config_forwardRest,
        config_fallBack, headersFlushed_forwardRest, headersFlushed_fallBack.
      change (config w2) with (config (implicitHeader w)). rewrite Hc1.
      repeat split; try done.
      rewrite D4, D3.
      change (orig w2) with (orig (implicitHeader w)). rewrite Ho1, D.
      change (buf w2) with (buf (implicitHeader w) ++ take (absorbed w p) p).
      rewrite Hb1, B. simpl. by rewrite <- app_assoc, take_drop.
    + (* keep buffering *)
      set (w2 := set_buf (implicitHeader w) _) in *.
      assert (Hbuf : buf w2 = pre ++ p).
      { change (buf w2) with (buf (implicitHeader w) ++ take (absorbed w p) p).
        by rewrite Hb1, B, Habs, firstn_all. }
      split; [|done]. unfold streaming.
      change (state w2) with (state (implicitHeader w)).
      change (config w2) with (config (implicitHeader w)).
      change (orig w2) with (orig (implicitHeader w)).
      change (headersFlushed w2) with (headersFlushed (implicitHeader w)).
      change (lookaheadLimit w2) with (lookaheadLimit (implicitHeader w)).
      rewrite Hs1, Hc1, Ho1, HF1, Hbuf. rewrite Hbuf in Hlt.
      injection Hc1 as -> _ _ _ _ _. repeat split; try done. lia.
    + (* inject *)
      set (c := absorbed w p) in *.
      set (w2 := set_buf (implicitHeader w) _) in *.
      set (b := pre ++ take c p).
      assert (Hbuf : buf w2 = b).
      { change (buf w2) with (buf (implicitHeader w) ++ take c p).
        by rewrite Hb1, B. }
      assert (Hsplit : pre ++ p = b ++ drop c p).
      { unfold b. by rewrite <- app_assoc, take_drop. }
      assert (Hblim : (Z.of_nat (length b) ≤ lookaheadLimit w)%Z).
      { pose proof (absorbed_bound w p) as Hb. rewrite B in Hb. by apply Hb. }
      assert (HF2 : headersFlushed w2 = false) by (by rewrite <- HF, <- HF1).
      assert (Hf2 : faultless (orig w2)).
      { change (orig w2) with (orig (implicitHeader w)). by rewrite Ho1. }
      destruct (writeInjected_faultless w2 p u c HF2 Hf2)
        as (Hf3 & D3 & _ & R3).
      assert (Ecfg : config (writeInjected w2 p u c).2 = config w).
      { rewrite config_writeInjected.
        change (config w2) with (config (implicitHeader w)). done. }
      change (orig w2) with (orig (implicitHeader w)) in D3.
      rewrite Ho1, D in D3. simpl in D3.
      rewrite Hbuf in Htry.
      pose proof Htry as (i & Hi & Hu & _)%tryInject_Injected.
      split; [|by rewrite R3]. unfold streaming.
      rewrite state_writeInjected, headersFlushed_writeInjected, Ecfg, D3.
      injection Ecfg as -> -> -> -> -> _.
      repeat split; try done.
      * exists i. rewrite Hsplit, length_app. split; [lia|].
        rewrite take_app_le, drop_app_le by done.
        by rewrite Hu, <- !app_assoc.
      * exists (length b), u. rewrite Hsplit, length_app, take_app_length.
        repeat split; [lia|done|done].
  - (* passthrough *)
    rewrite Write_terminal in HW by (by rewrite Es). result_of HW r w'.
    destruct H as (HF & D).
    rewrite flushHeaders_flushed by (by rewrite HF1).
    assert (Hf1 : faultless (orig (implicitHeader w))) by (by rewrite Ho1).
    destruct (origWrite_faultless _ p Hf1) as (R & Hf2 & D2 & _).
    split; [|by rewrite R]. unfold streaming.
    rewrite state_origWrite, config_origWrite, headersFlushed_origWrite,
      Hs1, Hc1, HF1, D2, Ho1, D. done.
  - (* injecting *)
    rewrite Write_terminal in HW by (by rewrite Es). result_of HW r w'.
    destruct H as (HF & Hsp & n & out & Hn & Hlim & Htry).
    rewrite flushHeaders_flushed by (by rewrite HF1).
    assert (Hf1 : faultless (orig (implicitHeader w))) by (by rewrite Ho1).
    destruct (origWrite_faultless _ p Hf1) as (R & Hf2 & D2 & _).
    split; [|by rewrite R]. unfold streaming.
    assert (Ecfg : config (origWrite (implicitHeader w) p).2 = config w).
    { by rewrite config_origWrite. }
    rewrite state_origWrite, headersFlushed_origWrite, Hs1, HF1, D2, Ho1.
    rewrite Ecfg. injection Ecfg as -> -> -> -> -> _.
    repeat split; try done.
    + by apply splicedInto_app.
    + exists n, out. rewrite length_app, take_app_le by done.
      repeat split; [lia|done|done].
Qed.

End StreamingSteps.

Lemma Flush_finish (w : streamWriter) :
  Flush w
  = if rw_flusher (orig (finish w))
    then set_orig (finish w) (rw_Flush (orig (finish w)))
    else finish w.
Proof. reflexivity. Qed.

Lemma Hijack_finish (w : streamWriter) :
  rw_hijacker (orig w) = true →
  Hijack w = (None, set_orig (finish w) (rw_Hijack (orig (finish w)))).
Proof. unfold Hijack. by intros ->. Qed.

Lemma Hijack_unsupported (w : streamWriter) :
  rw_hijacker (orig w) = false → Hijack w = (Some http_ErrNotSupported, w).
Proof. unfold Hijack. by intros ->. Qed.

Lemma written_cons (o : op) (ops : list op) :
  written (o :: ops) = chunk o ++ written ops.
Proof. unfold written. by destruct o. Qed.

Section Responses.

Variable lowerTable : Z → Z.
Variable cfg : Z * string * string * string * bool * bool.

Lemma streaming_step (pre : bytes) (w w' : streamWriter) (o : op) :
  streaming lowerTable cfg pre w →
  step lowerTable w o = Some w' →
  streaming lowerTable cfg (pre ++ chunk o) w'.
Proof.
  intros HI Hstep. destruct o as [k v|k v|k|f|c|p| |]; simpl in Hstep.
  - injection Hstep as <-. rewrite app_nil_r.
    by apply (streaming_frame lowerTable cfg pre w).
  - injection Hstep as <-. rewrite app_nil_r.
    by apply (streaming_frame lowerTable cfg pre w).
  - injection Hstep as <-. rewrite app_nil_r.
    by apply (streaming_frame lowerTable cfg pre w).
  - injection Hstep as <-. rewrite app_nil_r.
    by apply (streaming_frame lowerTable cfg pre w).
  - injection Hstep as <-. rewrite app_nil_r.
    apply (streaming_frame lowerTable cfg pre w); try done;
      unfold WriteHeader; by destruct (wroteHeader w).
  - destruct (Write lowerTable w p) as [[r w1]|] eqn:HW; [|done].
    injection Hstep as <-. by apply (streaming_Write _ _ _ _ _ _ r HI).
  - injection Hstep as <-. rewrite app_nil_r, Flush_finish.
    destruct (streaming_finish lowerTable cfg pre w HI) as [HI' _].
    destruct (rw_flusher _); [|done].
    apply (streaming_record lowerTable cfg pre (finish w) CallFlush); auto.
  - injection Hstep as <-. rewrite app_nil_r.
    destruct (rw_hijacker (orig w)) eqn:E.
    + rewrite Hijack_finish by done. simpl.
      destruct (streaming_finish lowerTable cfg pre w HI) as [HI' _].
      apply (streaming_record lowerTable cfg pre (finish w) CallHijack); auto.
    + by rewrite Hijack_unsupported.
Qed.

Lemma streaming_run (ops : list op) (pre : bytes) (w w' : streamWriter) :
  streaming lowerTable cfg pre w →
  run lowerTable w ops = Some w' →
  streaming lowerTable cfg (pre ++ written ops) w'.
Proof.
  revert pre w. induction ops as [|o ops IH]; intros pre w HI Hrun.
  - injection Hrun as <-. by rewrite app_nil_r.
  - simpl in Hrun. destruct (step lowerTable w o) as [w1|] eqn:E; [|done].
    rewrite written_cons, app_assoc. eapply IH; [|done].
    by eapply streaming_step.
Qed.

End Responses.

Lemma streaming_new (lowerTable : Z → Z) (o : ResponseWriter) (limit : Z)
    (src id tgt : string) (also n2 : bool) :
  rw_calls o = [] → faultless o →
  let w := newStreamWriter o limit src id tgt also n2 in
  streaming lowerTable (config w) [] w.
Proof.
  intros Hcalls Hf w. unfold streaming. simpl. rewrite Hcalls.
  repeat split; try done. destruct (limit <=? 0)%Z eqn:E; [done|]. lia.
Qed.

(** X2. On a sink that takes every write, a response that runs to its end
    (no call of [Write] panics) delivers the handler's chunks in order, with
    no byte dropped, repeated or moved: either the writer ended in
    passthrough and the sink received exactly the bytes written, or it
    ended injecting and the sink received them with the snippet spliced in
    at one offset. Header operations, flushes and hijacks between the
    writes do not change this. *)
Theorem response_stream (lowerTable : Z → Z) (o : ResponseWriter) (limit : Z)
    (src id tgt : string) (also n2 : bool) (ops : list op) (w : streamWriter) :
  rw_calls o = [] → faultless o →
  serve lowerTable (newStreamWriter o limit src id tgt also n2) ops = Some w →
  (state w = passthrough ∧ delivered (rw_calls (orig w)) = written ops)
  ∨ (state w = injecting
     ∧ splicedInto (snippetOf src id) (written ops)
                   (delivered (rw_calls (orig w)))).
Proof.
  intros Hcalls Hf Hserve. unfold serve in Hserve.
  destruct (run _ _ ops) as [w1|] eqn:Hrun; [|done]. injection Hserve as <-.
  pose proof (streaming_new lowerTable o limit src id tgt also n2 Hcalls Hf)
    as H0.
  pose proof (streaming_run _ _ _ _ _ _ H0 Hrun) as H1. simpl in H1.
  destruct (streaming_finish _ _ _ _ H1) as ((Hc & _ & H) & Hne).
  injection Hc as _ Hsrc Hid _ _ _.
  destruct (state (finish w1)); [done| |].
  - left. by destruct H.
  - right. destruct H as (_ & H & _). by rewrite Hsrc, Hid in H.
Qed.

Lemma response_stream_witness :
  ∃ w, serve noCaseTable (exampleWriter 1024)
         [OpHeaderSet "Content-Type" "text/html";
          OpWrite (bytesOf "<html><head>"); OpFlush;
          OpWrite (bytesOf "</head></html>")] = Some w
       ∧ state w = passthrough
       ∧ delivered (rw_calls (orig w)) = bytesOf "<html><head></head></html>".
Proof.
  destruct (serve noCaseTable (exampleWriter 1024)
         [OpHeaderSet "Content-Type" "text/html";
          OpWrite (bytesOf "<html><head>"); OpFlush;
          OpWrite (bytesOf "</head></html>")]) as [w|] eqn:E;
    [|by vm_compute in E].
  exists w. split; [done|].
  destruct (response_stream noCaseTable plainSink 1024 "https://a/script.js"
              "abc" "</head>" true false _ w eq_refl (List.Forall_nil _) E)
    as [[Hs Hd]|[Hs _]].
  - by rewrite Hs, Hd.
  - exfalso. revert Hs. vm_compute in E. injection E as <-. by vm_compute.
Defined.

(** X3. When no prefix of the body within the look-ahead limit holds the
    primary target or, if the body-closing target is enabled, [</body>]
    (both searched in the lower-cased prefix, as [tryInject] does), the
    response is passed through: the sink receives exactly the bytes
    written, whatever the size of the body. *)
Theorem response_without_target (lowerTable : Z → Z) (o : ResponseWriter)
    (limit : Z) (src id tgt : string) (also n2 : bool) (ops : list op)
    (w : streamWriter) :
  rw_calls o = [] → faultless o →
  serve lowerTable (newStreamWriter o limit src id tgt also n2) ops = Some w →
  (∀ n, (Z.of_nat n
         ≤ lookaheadLimit (newStreamWriter o limit src id tgt also n2))%Z →
        let lower := ToLower lowerTable (take n (written ops)) in
        absent lower (ToLower lowerTable (bytesOf tgt))
        ∧ (also = true → absent lower (bytesOf "</body>"))) →
  state w = passthrough ∧ delivered (rw_calls (orig w)) = written ops.
Proof.
  intros Hcalls Hf Hserve Habsent. unfold serve in Hserve.
  destruct (run _ _ ops) as [w1|] eqn:Hrun; [|done]. injection Hserve as <-.
  pose proof (streaming_new lowerTable o limit src id tgt also n2 Hcalls Hf)
    as H0.
  pose proof (streaming_run _ _ _ _ _ _ H0 Hrun) as H1. simpl in H1.
  destruct (streaming_finish _ _ _ _ H1) as ((Hc & _ & H) & Hne).
  injection Hc as Hlim Hsrc Hid Htgt Halso _.
  destruct (state (finish w1)); [done|by destruct H|].
  exfalso. destruct H as (_ & _ & n & out & _ & Hn & Htry).
  rewrite Hlim, Hsrc, Hid, Htgt, Halso in *.
  destruct (Habsent n Hn) as [Ha1 Ha2].
  apply tryInject_Injected in Htry
    as (i & _ & _ & _ & [Hi|(_ & -> & Hi)]).
  - apply Index_absent in Ha1. by rewrite Ha1 in Hi.
  - apply Index_absent in Ha2; [|done]. by rewrite Ha2 in Hi.
Qed.

Lemma response_without_target_witness :
  ∃ w, serve noCaseTable (exampleWriter 1024)
         [OpHeaderSet "Content-Type" "text/html"; OpWrite (bytesOf "<p>")]
       = Some w
       ∧ state w = passthrough
       ∧ delivered (rw_calls (orig w)) = bytesOf "<p>".
Proof.
  destruct (serve noCaseTable (exampleWriter 1024)
         [OpHeaderSet "Content-Type" "text/html"; OpWrite (bytesOf "<p>")])
    as [w|] eqn:E; [|by vm_compute in E].
  exists w. split; [done|].
  refine (response_without_target noCaseTable plainSink 1024
            "https://a/script.js" "abc" "</head>" true false _ w eq_refl
            (List.Forall_nil _) E _).
  intros n _.
  assert (Hn : n = 0 ∨ n = 1 ∨ n = 2 ∨ take n (bytesOf "<p>") = bytesOf "<p>").
  { do 3 (destruct n as [|n]; [tauto|]). right; right; right.
    simpl. by rewrite take_nil. }
  change (written _) with (bytesOf "<p>").
  split; [|intros _]; apply Index_absent;
    destruct Hn as [-> | [-> | [-> | ->]]]; by vm_compute.
Defined.

(** ** The call log of the sink, whatever the sink answers *)

Lemma writeInjected_calls (w : streamWriter) (p u : bytes) (c : nat) :
  headersFlushed w = false →
  ∃ rest,
    rw_calls (orig (writeInjected w p u c).2)
    = rw_calls (orig w)
      ++ CallWriteHeader
           (copyHeader
              (Header.Del (Header.Del (header w) "Content-Length") "ETag")
              (clearHeader (rw_header (orig w))))
           (status w) :: rest
    ∧ headerCalls rest = []
    ∧ ∃ k e more, rest = CallWrite u k e :: more.
Proof.
  intros HF. unfold writeInjected.
  set (w1 := prepareHeadersForInjection (set_state w injecting)).
  assert (HF1 : headersFlushed w1 = false) by done.
  destruct (flushHeaders_spec w1 HF1) as (C1 & _).
  change (header w1)
    with (Header.Del (Header.Del (header w) "Content-Length") "ETag") in C1.
  change (orig w1) with (orig w) in C1. change (status w1) with (status w) in C1.
  destruct (origWrite_spec (flushHeaders w1) u) as (R3 & C3 & _).
  destruct (origWrite (flushHeaders w1) u) as [[n e] w3]. simpl in *.
  rewrite C1 in C3. rewrite <- app_assoc in C3. simpl in C3.
  destruct e as [e|].
  { simpl. rewrite C3. eexists. split; [done|]. split; [done|]. eauto. }
  destruct (c <? length p).
  - destruct (origWrite_spec w3 (drop c p)) as (R4 & C4 & _).
    destruct (origWrite w3 (drop c p)) as [[n4 e4] w4]. simpl in *.
    rewrite C3 in C4. rewrite <- app_assoc in C4. simpl in C4.
    assert (rw_calls (orig (if e4 is Some e2
                            then ((Z.of_nat (length p), Some e2), w4)
                            else ((Z.of_nat (length p), None), set_buf w4 [])).2)
            = rw_calls (orig w4)) as Hsame by (by destruct e4).
    destruct e4; simpl; rewrite C4; eexists; (split; [done|]);
      (split; [done|]); eauto.
  - simpl. rewrite C3. eexists. split; [done|]. split; [done|]. eauto.
Qed.

Section CallLog.

Variable lowerTable : Z → Z.

Lemma orderly_frame (w w' : streamWriter) :
  orderly w → orig w' = orig w → state w' = state w →
  headersFlushed w' = headersFlushed w → orderly w'.
Proof. unfold orderly. by intros H -> -> ->. Qed.

Lemma orderly_append (w w' : streamWriter) (more : list call) :
  orderly w → state w ≠ undecided → state w' = state w →
  headersFlushed w' = headersFlushed w →
  rw_calls (orig w') = rw_calls (orig w) ++ more → headerCalls more = [] →
  orderly w'.
Proof.
  unfold orderly. intros H Hne -> -> -> Hmore.
  destruct (state w); [done| |];
    destruct H as (HF & h & s & rest & -> & Hrest);
    (split; [done|]); exists h, s, (rest ++ more);
    by rewrite headerCalls_app, Hrest, Hmore.
Qed.

Lemma orderly_fallBack (w : streamWriter) :
  headersFlushed w = false → rw_calls (orig w) = [] → orderly (fallBack w).
Proof.
  intros HF Hcalls. unfold orderly.
  rewrite state_fallBack, headersFlushed_fallBack. split; [done|].
  destruct (fallBack_spec w HF) as (-> & _). rewrite Hcalls. simpl.
  eexists _, _, _. split; [done|]. by destruct (buf w).
Qed.

Lemma orderly_finish (w : streamWriter) :
  orderly w → orderly (finish w) ∧ state (finish w) ≠ undecided.
Proof.
  intros H. destruct (state w) eqn:Es.
  - rewrite finish_fallBack by done. unfold orderly in H. rewrite Es in H.
    destruct H. split; [by apply orderly_fallBack|by rewrite state_fallBack].
  - rewrite finish_terminal by (by rewrite Es). by rewrite Es.
  - rewrite finish_terminal by (by rewrite Es). by rewrite Es.
Qed.

Lemma orderly_Write (w w' : streamWriter) (p : bytes) (r : Z * option error) :
  orderly w → Write lowerTable w p = Some (r, w') → orderly w'.
Proof.
  intros H HW.
  destruct (implicitHeader_same w) as (Hs1 & Hh1 & Hb1 & Hc1 & Ho1 & HF1).
  assert (state w = undecided ∨ state w ≠ undecided) as [Es|Es]
    by (destruct (state w); auto).
  - pose proof H as H'. unfold orderly in H'. rewrite Es in H'.
    destruct H' as [HF Hcalls].
    destruct p as [|x p'].
    { rewrite Write_empty in HW by done. result_of HW r w'.
      by apply (orderly_frame w). }
    set (p := x :: p') in *.
    pose proof (Write_undecided lowerTable w p Es ltac:(done)) as HU.
    cbv zeta in HU. destruct HU
      as [HW1|[(HW1 & _)|[(u & _ & _ & HW1)|(_ & _ & HW1)]]];
      rewrite HW1 in HW; [| | |done]; result_of HW r w'.
    + set (w2 := set_buf (implicitHeader w) _).
      assert (Ho : orderly (fallBack w2)).
      { apply orderly_fallBack; [by rewrite <- HF, <- HF1|].
        change (orig w2) with (orig (implicitHeader w)). by rewrite Ho1. }
      destruct (forwardRest_spec (fallBack w2) p (absorbed w p))
        as (_ & C & _).
      eapply (orderly_append (fallBack w2));
        [exact Ho | by rewrite state_fallBack | by rewrite state_forwardRest
        | by rewrite headersFlushed_forwardRest | exact C |].
      by destruct (_ <? _).
    + apply (orderly_frame w); [done|exact Ho1|exact Hs1|exact HF1].
    + set (w2 := set_buf (implicitHeader w) _).
      assert (HF2 : headersFlushed w2 = false) by (by rewrite <- HF, <- HF1).
      destruct (writeInjected_calls w2 p u (absorbed w p) HF2)
        as (rest & C & Hrest & _).
      unfold orderly.
      rewrite state_writeInjected, headersFlushed_writeInjected, C.
      change (orig w2) with (orig (implicitHeader w)). rewrite Ho1, Hcalls.
      split; [done|]. simpl. eauto.
  - rewrite Write_terminal in HW by done. result_of HW r w'.
    assert (HF : headersFlushed w = true).
    { unfold orderly in H. destruct (state w); [done| |]; by destruct H. }
    rewrite flushHeaders_flushed by (by rewrite HF1).
    destruct (origWrite_spec (implicitHeader w) p) as (_ & C & _).
    rewrite Ho1 in C.
    eapply (orderly_append w);
      [exact H | exact Es | by rewrite state_origWrite
      | by rewrite headersFlushed_origWrite | exact C | done].
Qed.

Lemma orderly_record (w : streamWriter) (c : call) :
  c = CallFlush ∨ c = CallHijack → orderly w → state w ≠ undecided →
  orderly (set_orig w (rw_record (orig w) c)).
Proof.
  intros Hc H Hne.
  eapply (orderly_append w _ [c]); [exact H | exact Hne | done..|].
  by destruct Hc as [-> | ->].
Qed.

Lemma orderly_step (w w' : streamWriter) (o : op) :
  orderly w → step lowerTable w o = Some w' → orderly w'.
Proof.
  intros H Hstep. destruct o as [k v|k v|k|f|c|p| |]; simpl in Hstep.
  - injection Hstep as <-. by apply (orderly_frame w).
  - injection Hstep as <-. by apply (orderly_frame w).
  - injection Hstep as <-. by apply (orderly_frame w).
  - injection Hstep as <-. by apply (orderly_frame w).
  - injection Hstep as <-.
    apply (orderly_frame w); try done; unfold WriteHeader;
      by destruct (wroteHeader w).
  - destruct (Write lowerTable w p) as [[r w1]|] eqn:HW; [|done].
    injection Hstep as <-. by apply (orderly_Write w w1 p r).
  - injection Hstep as <-. rewrite Flush_finish.
    destruct (orderly_finish w H) as [H' Hne].
    destruct (rw_flusher _); [|done]. apply orderly_record; auto.
  - injection Hstep as <-. destruct (rw_hijacker (orig w)) eqn:E.
    + rewrite Hijack_finish by done. simpl.
      destruct (orderly_finish w H) as [H' Hne].
      apply orderly_record; auto.
    + by rewrite Hijack_unsupported.
Qed.

Lemma orderly_run (ops : list op) (w w' : streamWriter) :
  orderly w → run lowerTable w ops = Some w' → orderly w'.
Proof.
  revert w. induction ops as [|o ops IH]; intros w H Hrun.
  - by injection Hrun as <-.
  - simpl in Hrun. destruct (step lowerTable w o) as [w1|] eqn:E; [|done].
    eapply IH; [|done]. by eapply orderly_step.
Qed.

End CallLog.

Lemma orderly_new (o : ResponseWriter) (limit : Z) (src id tgt : string)
    (also n2 : bool) :
  rw_calls o = [] → orderly (newStreamWriter o limit src id tgt also n2).
Proof. intros H. by unfold orderly. Qed.

(** X4. Whatever the sink answers to its writes, a response that runs to
    its end calls [WriteHeader] on the sink exactly once, and before any
    other call: the call log starts with it and holds no second one. *)
Theorem response_header_once (lowerTable : Z → Z) (o : ResponseWriter)
    (limit : Z) (src id tgt : string) (also n2 : bool) (ops : list op)
    (w : streamWriter) :
  rw_calls o = [] →
  serve lowerTable (newStreamWriter o limit src id tgt also n2) ops = Some w →
  ∃ h s rest, rw_calls (orig w) = CallWriteHeader h s :: rest
              ∧ headerCalls rest = [].
Proof.
  intros Hcalls Hserve. unfold serve in Hserve.
  destruct (run _ _ ops) as [w1|] eqn:Hrun; [|done]. injection Hserve as <-.
  pose proof (orderly_run lowerTable ops _ _
                (orderly_new o limit src id tgt also n2 Hcalls) Hrun) as H1.
  destruct (orderly_finish w1 H1) as [H2 Hne]. unfold orderly in H2.
  destruct (state (finish w1)); [done| |]; by destruct H2.
Qed.

Lemma response_header_once_witness :
  ∃ w, serve noCaseTable (exampleWriter 1024)
         [OpWrite (bytesOf "<html><head></head>"); OpWrite (bytesOf "x")]
       = Some w
       ∧ ∃ h s rest, rw_calls (orig w) = CallWriteHeader h s :: rest
                     ∧ headerCalls rest = [].
Proof.
  destruct (serve noCaseTable (exampleWriter 1024)
         [OpWrite (bytesOf "<html><head></head>"); OpWrite (bytesOf "x")])
    as [w|] eqn:E; [|by vm_compute in E].
  exists w. split; [done|].
  exact (response_header_once noCaseTable plainSink 1024 "https://a/script.js"
           "abc" "</head>" true false _ w eq_refl E).
Defined.

(** X5. While the writer is undecided nothing has been called on the sink:
    no header, no byte, no flush reaches the client before the decision is
    taken. *)
Theorem undecided_holds_back (lowerTable : Z → Z) (o : ResponseWriter)
    (limit : Z) (src id tgt : string) (also n2 : bool) (ops : list op)
    (w : streamWriter) :
  rw_calls o = [] →
  run lowerTable (newStreamWriter o limit src id tgt also n2) ops = Some w →
  state w = undecided →
  rw_calls (orig w) = [] ∧ headersFlushed w = false.
Proof.
  intros Hcalls Hrun Hs.
  pose proof (orderly_run lowerTable ops _ _
                (orderly_new o limit src id tgt also n2 Hcalls) Hrun) as H1.
  unfold orderly in H1. rewrite Hs in H1. by destruct H1.
Qed.

Lemma undecided_holds_back_witness :
  ∃ w, run noCaseTable (exampleWriter 1024)
         [OpHeaderSet "Content-Type" "text/html";
          OpWrite (bytesOf "<html><head>")] = Some w
       ∧ buf w = bytesOf "<html><head>"
       ∧ rw_calls (orig w) = [] ∧ headersFlushed w = false.
Proof.
  destruct (run noCaseTable (exampleWriter 1024)
         [OpHeaderSet "Content-Type" "text/html";
          OpWrite (bytesOf "<html><head>")]) as [w|] eqn:E;
    [|by vm_compute in E].
  exists w. split; [done|].
  assert (Hw : state w = undecided ∧ buf w = bytesOf "<html><head>").
  { vm_compute in E. injection E as <-. by vm_compute. }
  destruct Hw as [Hs Hb]. split; [done|].
  exact (undecided_holds_back noCaseTable plainSink 1024 "https://a/script.js"
           "abc" "</head>" true false _ w eq_refl E Hs).
Defined.

(** ** Once the decision is taken *)

Section Finality.

Variable lowerTable : Z → Z.

Lemma step_decided (w : streamWriter) (o : op) :
  state w ≠ undecided →
  ∃ w', step lowerTable w o = Some w' ∧ state w' = state w.
Proof.
  intros H. destruct o as [k v|k v|k|f|c|p| |]; simpl.
  - by eexists.
  - by eexists.
  - by eexists.
  - by eexists.
  - eexists. split; [done|]. unfold WriteHeader. by destruct (wroteHeader w).
  - rewrite Write_terminal by done. simpl. eexists. split; [done|].
    by rewrite state_origWrite, state_flushHeaders, state_implicitHeader.
  - eexists. split; [done|]. rewrite Flush_finish, finish_terminal by done.
    by destruct (rw_flusher (orig w)).
  - eexists. split; [done|]. destruct (rw_hijacker (orig w)) eqn:E.
    + by rewrite Hijack_finish, finish_terminal by done.
    + by rewrite Hijack_unsupported.
Qed.

Lemma run_decided (ops : list op) (w : streamWriter) :
  state w ≠ undecided →
  ∃ w', run lowerTable w ops = Some w' ∧ state w' = state w.
Proof.
  revert w. induction ops as [|o ops IH]; intros w H; simpl; [by eexists|].
  destruct (step_decided w o H) as (w1 & -> & E1).
  destruct (IH w1) as (w2 & -> & E2); [by rewrite E1|].
  exists w2. by rewrite E2, E1.
Qed.

End Finality.

(** X6. The decision is final. From a writer that has left [undecided],
    whatever the handler goes on to do (set headers, declare a status,
    write, flush, hijack) the response runs to its end without a panic and
    the writer ends in the state it was in. *)
Theorem decision_final (lowerTable : Z → Z) (w : streamWriter)
    (ops : list op) :
  state w ≠ undecided →
  ∃ w', serve lowerTable w ops = Some w' ∧ state w' = state w.
Proof.
  intros H. destruct (run_decided lowerTable ops w H) as (w1 & E & Es).
  exists w1. unfold serve. rewrite E. simpl.
  rewrite finish_terminal by (by rewrite Es). done.
Qed.

Lemma decision_final_witness :
  ∃ w', serve noCaseTable (Flush (exampleWriter 8))
          [OpWrite (bytesOf "<html><head></head>"); OpWriteHeader 404;
           OpFlush] = Some w'
        ∧ state w' = passthrough.
Proof.
  apply (decision_final noCaseTable (Flush (exampleWriter 8))
           [OpWrite (bytesOf "<html><head></head>"); OpWriteHeader 404;
            OpFlush]).
  discriminate.
Defined.

(** X7. After the decision every chunk goes to the sink as it is: on a
    writer reached in the course of a response and no longer undecided,
    [Write] makes one call of the sink's [Write] with the very chunk, no
    further [WriteHeader], and returns the count and error of the sink. *)
Theorem decided_write_forwards (lowerTable : Z → Z) (o : ResponseWriter)
    (limit : Z) (src id tgt : string) (also n2 : bool) (ops : list op)
    (w : streamWriter) (p : bytes) :
  rw_calls o = [] →
  run lowerTable (newStreamWriter o limit src id tgt also n2) ops = Some w →
  state w ≠ undecided →
  let a := answer (rw_script (orig w)) p in
  ∃ w', Write lowerTable w p = Some ((Z.of_nat a.1, a.2), w')
        ∧ rw_calls (orig w') = rw_calls (orig w) ++ [CallWrite p a.1 a.2]
        ∧ state w' = state w.
Proof.
  intros Hcalls Hrun Hne a.
  pose proof (orderly_run lowerTable ops _ _
                (orderly_new o limit src id tgt also n2 Hcalls) Hrun) as Ho.
  assert (HF : headersFlushed w = true).
  { unfold orderly in Ho. destruct (state w); [done| |]; by destruct Ho. }
  destruct (implicitHeader_same w) as (Hs1 & _ & _ & _ & Ho1 & HF1).
  rewrite Write_terminal by done.
  rewrite flushHeaders_flushed by (by rewrite HF1).
  destruct (origWrite_spec (implicitHeader w) p) as (R & C & _).
  rewrite Ho1 in R, C. fold a in R, C.
  exists (origWrite (implicitHeader w) p).2. split; [|split].
  - rewrite <- R. by destruct (origWrite (implicitHeader w) p).
  - exact C.
  - by rewrite state_origWrite.
Qed.

Lemma decided_write_forwards_witness :
  let ops := [OpWrite (bytesOf "<html><head></head>")] in
  let p := bytesOf "<p>more</p>" in
  ∃ w w', run noCaseTable (exampleWriter 1024) ops = Some w
          ∧ Write noCaseTable w p = Some ((11%Z, None), w')
          ∧ rw_calls (orig w') = rw_calls (orig w) ++ [CallWrite p 11 None]
          ∧ state w' = state w.
Proof.
  intros ops p.
  destruct (run noCaseTable (exampleWriter 1024) ops) as [w|] eqn:E;
    [|by vm_compute in E].
  assert (Hs : state w ≠ undecided ∧ rw_script (orig w) = []).
  { vm_compute in E. injection E as <-. by vm_compute. }
  destruct Hs as [Hs Hscript].
  destruct (decided_write_forwards noCaseTable plainSink 1024
              "https://a/script.js" "abc" "</head>" true false ops w p
              eq_refl E Hs) as (w' & HW & HC & HS).
  rewrite Hscript in HW, HC. exists w, w'. done.
Defined.

(** ** The look-ahead buffer *)

Lemma buf_flushHeaders (w : streamWriter) : buf (flushHeaders w) = buf w.
Proof. crush. Qed.

Lemma buf_origWrite (w : streamWriter) (p : bytes) :
  buf (origWrite w p).2 = buf w.
Proof. crush. Qed.

Lemma buf_flushBuffer (w : streamWriter) : buf (flushBuffer w) = [].
Proof.
  unfold flushBuffer. destruct (length (buf w) =? 0) eqn:E; [|done].
  apply Nat.eqb_eq in E. by destruct (buf w).
Qed.

Lemma buf_fallBack (w : streamWriter) : buf (fallBack w) = [].
Proof. apply buf_flushBuffer. Qed.

Lemma buf_forwardRest (w : streamWriter) (p : bytes) (c : nat) :
  buf (forwardRest w p c).2 = buf w.
Proof. unfold forwardRest. destruct (c <? length p); [apply buf_origWrite|done]. Qed.

Lemma buf_writeInjected (w : streamWriter) (p u : bytes) (c : nat) :
  buf (writeInjected w p u c).2 = [] ∨ buf (writeInjected w p u c).2 = buf w.
Proof.
  unfold writeInjected.
  set (w1 := flushHeaders (prepareHeadersForInjection (set_state w injecting))).
  assert (B1 : buf w1 = buf w) by (unfold w1; by rewrite buf_flushHeaders).
  pose proof (buf_origWrite w1 u) as B2.
  destruct (origWrite w1 u) as [[n e] w2]. simpl in B2.
  destruct e as [e|]; [right; simpl; congruence|].
  destruct (c <? length p); [|by left].
  pose proof (buf_origWrite w2 (drop c p)) as B3.
  destruct (origWrite w2 (drop c p)) as [[n3 e3] w3]. simpl in B3.
  destruct e3; [right; simpl; congruence|by left].
Qed.

Lemma buf_finish (w : streamWriter) :
  buf (finish w) = [] ∨ buf (finish w) = buf w.
Proof. unfold finish. destruct (state w); auto. left. apply buf_flushBuffer. Qed.

Lemma config_finish (w : streamWriter) : config (finish w) = config w.
Proof.
  unfold finish. destruct (state w); [|done..]. apply (config_fallBack w).
Qed.

Section Buffer.

Variable lowerTable : Z → Z.

(** What [Write] leaves in the buffer: nothing, what was there, or what
    was there and the part of the chunk it absorbed. *)
Lemma Write_buf (w w' : streamWriter) (p : bytes) (r : Z * option error) :
  Write lowerTable w p = Some (r, w') →
  config w' = config w
  ∧ (buf w' = [] ∨ buf w' = buf w
     ∨ (state w = undecided ∧ buf w' = buf w ++ take (absorbed w p) p)).
Proof.
  intros HW.
  destruct (implicitHeader_same w) as (Hs1 & Hh1 & Hb1 & Hc1 & Ho1 & HF1).
  assert (Hdec : state w = undecided ∨ state w ≠ undecided)
    by (destruct (state w); auto).
  destruct Hdec as [Es|Hne].
  - destruct p as [|b p'].
    { rewrite Write_empty in HW by done. result_of HW r w'. auto. }
    pose proof (Write_undecided lowerTable w (b :: p') Es) as HU.
    specialize (HU ltac:(done)). cbv zeta in HU.
    set (c := absorbed w (b :: p')) in *.
    set (w2 := set_buf (implicitHeader w)
                       (buf (implicitHeader w) ++ take c (b :: p'))) in *.
    assert (C2 : config w2 = config w) by exact Hc1.
    destruct HU as [HW1|[(HW1 & _)|[(u & _ & _ & HW1)|(_ & _ & HW1)]]];
      rewrite HW1 in HW; [| | |done]; result_of HW r w'.
    + split; [by rewrite config_forwardRest, config_fallBack|].
      left. by rewrite buf_forwardRest, buf_fallBack.
    + split; [done|]. right; right. split; [done|]. simpl. by rewrite Hb1.
    + split; [by rewrite config_writeInjected|].
      destruct (buf_writeInjected w2 (b :: p') u c) as [->| ->]; [by left|].
      right; right. split; [done|]. simpl. by rewrite Hb1.
  - rewrite Write_terminal in HW by done. result_of HW r w'.
    split; [by rewrite config_origWrite, config_flushHeaders|].
    right; left. by rewrite buf_origWrite, buf_flushHeaders.
Qed.

Lemma step_buf (w w' : streamWriter) (o : op) :
  step lowerTable w o = Some w' →
  config w' = config w
  ∧ (buf w' = [] ∨ buf w' = buf w
     ∨ (state w = undecided
        ∧ buf w' = buf w ++ take (absorbed w (chunk o)) (chunk o))).
Proof.
  intros Hstep. destruct o as [k v|k v|k|f|c|p| |]; simpl in Hstep.
  - injection Hstep as <-. auto.
  - injection Hstep as <-. auto.
  - injection Hstep as <-. auto.
  - injection Hstep as <-. auto.
  - injection Hstep as <-. unfold WriteHeader. destruct (wroteHeader w); auto.
  - destruct (Write lowerTable w p) as [[r w1]|] eqn:HW; [|done].
    injection Hstep as <-. by apply (Write_buf w w1 p r).
  - injection Hstep as <-. rewrite Flush_finish.
    destruct (buf_finish w) as [B|B];
      (destruct (rw_flusher _);
       (split; [apply config_finish|])); simpl; auto.
  - injection Hstep as <-. destruct (rw_hijacker (orig w)) eqn:E.
    + rewrite Hijack_finish by done. simpl. split; [apply config_finish|].
      destruct (buf_finish w) as [B|B]; auto.
    + rewrite Hijack_unsupported by done. auto.
Qed.

Lemma run_bounded (ops : list op) (w w' : streamWriter) :
  (Z.of_nat (length (buf w)) ≤ lookaheadLimit w)%Z →
  run lowerTable w ops = Some w' →
  config w' = config w
  ∧ (Z.of_nat (length (buf w')) ≤ lookaheadLimit w')%Z.
Proof.
  revert w. induction ops as [|o ops IH]; intros w Hb Hrun.
  - by injection Hrun as <-.
  - simpl in Hrun. destruct (step lowerTable w o) as [w1|] eqn:E; [|done].
    destruct (step_buf w w1 o E) as [Hc HB].
    assert (Hl : lookaheadLimit w1 = lookaheadLimit w)
      by (by injection Hc).
    destruct (IH w1) as [Hc' Hb']; [|done|].
    + rewrite Hl. destruct HB as [-> | [-> | [_ ->]]]; [simpl; lia|done|].
      by apply absorbed_bound.
    + split; [congruence|done].
Qed.

End Buffer.

(** X8. The writer never holds more than the look-ahead limit: at every
    point of a response, on any sink, the buffer is no longer than
    [lookaheadLimit], which is the configured limit, or 64 KiB when that is
    not positive. *)
Theorem buffer_bounded (lowerTable : Z → Z) (o : ResponseWriter) (limit : Z)
    (src id tgt : string) (also n2 : bool) (ops : list op)
    (w : streamWriter) :
  run lowerTable (newStreamWriter o limit src id tgt also n2) ops = Some w →
  lookaheadLimit w = (if (limit <=? 0)%Z then 65536 else limit)%Z
  ∧ (0 < lookaheadLimit w)%Z
  ∧ (Z.of_nat (length (buf w)) ≤ lookaheadLimit w)%Z.
Proof.
  intros Hrun.
  assert (Hpos : (0 < (if (limit <=? 0)%Z then 65536 else limit))%Z)
    by (destruct (Z.leb_spec limit 0); lia).
  destruct (run_bounded lowerTable ops
              (newStreamWriter o limit src id tgt also n2) w) as [Hc Hb];
    [|done|].
  { change (0 ≤ (if (limit <=? 0)%Z then 65536 else limit))%Z. lia. }
  assert (Hl : lookaheadLimit w
               = (if (limit <=? 0)%Z then 65536 else limit)%Z)
    by (by injection Hc).
  by rewrite Hl in *.
Qed.

Lemma buffer_bounded_witness :
  ∃ w, run noCaseTable (exampleWriter 0)
         [OpWrite (bytesOf "<html><title>t</title>"); OpWrite (bytesOf "abc")]
       = Some w
       ∧ lookaheadLimit w = 65536%Z
       ∧ (0 < lookaheadLimit w)%Z
       ∧ (Z.of_nat (length (buf w)) ≤ lookaheadLimit w)%Z.
Proof.
  destruct (run noCaseTable (exampleWriter 0)
         [OpWrite (bytesOf "<html><title>t</title>"); OpWrite (bytesOf "abc")])
    as [w|] eqn:E; [|by vm_compute in E].
  exists w. split; [done|].
  exact (buffer_bounded noCaseTable plainSink 0 "https://a/script.js" "abc"
           "</head>" true false _ w E).
Defined.

(** ** Responses of ASCII bytes *)

Lemma forallb_take {A} (f : A → bool) (l : list A) (n : nat) :
  forallb f l = true → forallb f (take n l) = true.
Proof.
  revert n. induction l as [|x l IH]; intros [|n]; simpl; try done.
  intros [-> H]%andb_true_iff. simpl. by apply IH.
Qed.

Section Ascii.

Variable lowerTable : Z → Z.

(** On ASCII the lower-cased copy has the length of the buffer, and an
    index into it is an index into the buffer. *)
Lemma tryInject_ascii_safe (prefix : bytes) (src id tgt : string)
    (also : bool) :
  forallb isASCII prefix = true →
  tryInject lowerTable prefix src id tgt also ≠ SliceOutOfRange.
Proof.
  intros Ha. unfold tryInject.
  destruct (length prefix =? 0); [done|].
  destruct (Contains prefix (bytesOf src)); [done|].
  assert (Hs : ∀ sep i, Index (ToLower lowerTable prefix) sep = Some i →
                 spliceAt prefix (snippetOf src id) i ≠ SliceOutOfRange).
  { intros sep i Hi%Index_le. rewrite ToLower_ascii_length in Hi by done.
    unfold spliceAt. destruct (length prefix <? i) eqn:E; [|done].
    apply Nat.ltb_lt in E. lia. }
  destruct (Index _ (ToLower _ _)) as [i|] eqn:E1; [by eapply Hs|].
  destruct also; [|done].
  destruct (Index _ (bytesOf _)) as [i|] eqn:E2; [by eapply Hs|done].
Qed.

Lemma Write_ascii (w : streamWriter) (p : bytes) :
  forallb isASCII (buf w) = true → forallb isASCII p = true →
  ∃ r w', Write lowerTable w p = Some (r, w').
Proof.
  intros Hb Hp.
  assert (Hdec : state w = undecided ∨ state w ≠ undecided)
    by (destruct (state w); auto).
  destruct Hdec as [Es|Hne].
  - destruct p as [|b p'].
    { rewrite Write_empty by done. by eexists _, _. }
    pose proof (Write_undecided lowerTable w (b :: p') Es) as HU.
    specialize (HU ltac:(done)). cbv zeta in HU.
    destruct HU as [HW|[(HW & _)|[(u & _ & _ & HW)|(Hbad & _)]]].
    + rewrite HW. destruct (forwardRest _ _ _) as [r w']. by eexists _, _.
    + rewrite HW. by eexists _, _.
    + rewrite HW. destruct (writeInjected _ _ _ _) as [r w']. by eexists _, _.
    + exfalso. revert Hbad. apply tryInject_ascii_safe. simpl.
      destruct (implicitHeader_same w) as (_ & _ & -> & _).
      rewrite forallb_app, Hb. by apply forallb_take.
  - rewrite Write_terminal by done.
    destruct (origWrite _ _) as [r w']. by eexists _, _.
Qed.

Lemma step_ascii (w : streamWriter) (o : op) :
  forallb isASCII (buf w) = true → forallb isASCII (chunk o) = true →
  ∃ w', step lowerTable w o = Some w' ∧ forallb isASCII (buf w') = true.
Proof.
  intros Hb Hp.
  assert (∃ w', step lowerTable w o = Some w') as [w' Hstep].
  { destruct o as [k v|k v|k|f|c|p| |]; simpl; try by eexists.
    destruct (Write_ascii w p Hb Hp) as (r & w' & ->). by eexists. }
  exists w'. split; [done|].
  destruct (step_buf lowerTable w w' o Hstep) as [_ [-> | [-> | [_ ->]]]];
    [done|done|].
  rewrite forallb_app, Hb. by apply forallb_take.
Qed.

Lemma run_ascii (ops : list op) (w : streamWriter) :
  forallb isASCII (buf w) = true →
  Forall (λ o, forallb isASCII (chunk o) = true) ops →
  ∃ w', run lowerTable w ops = Some w'.
Proof.
  revert w. induction ops as [|o ops IH]; intros w Hb Hops; simpl;
    [by eexists|].
  apply Forall_cons in Hops as [Ho Hops].
  destruct (step_ascii w o Hb Ho) as (w1 & -> & Hb1). by apply IH.
Qed.

End Ascii.

(** X9. A response whose chunks are all ASCII bytes never panics: on any
    sink and with any targets, every call of the handler returns and the
    response runs to its end. (The panic of [tryInject] needs a byte above
    0x7F in the buffer.) *)
Theorem ascii_response_served (lowerTable : Z → Z) (o : ResponseWriter)
    (limit : Z) (src id tgt : string) (also n2 : bool) (ops : list op) :
  Forall (λ o, forallb isASCII (chunk o) = true) ops →
  ∃ w, serve lowerTable (newStreamWriter o limit src id tgt also n2) ops
       = Some w.
Proof.
  intros Hops. unfold serve.
  destruct (run_ascii lowerTable ops
              (newStreamWriter o limit src id tgt also n2)) as [w ->];
    [done|done|].
  by eexists.
Qed.

Lemma ascii_response_served_witness :
  ∃ w, serve noCaseTable (exampleWriter 16)
         [OpHeaderSet "Content-Type" "text/html";
          OpWrite (bytesOf "<html><head>"); OpFlush;
          OpWrite (bytesOf "</head></html>")] = Some w.
Proof.
  apply (ascii_response_served noCaseTable plainSink 16 "https://a/script.js"
           "abc" "</head>" true false).
  repeat constructor.
Defined.

(** ** Header maps *)

Lemma canonCase_byte (u : bool) (c : ascii) :
  textproto.validHeaderFieldByte c = true →
  ∃ c', textproto.canonCase u [c] = [c']
        ∧ textproto.validHeaderFieldByte c' = true
        ∧ textproto.canonCase u [c'] = [c'].
Proof.
  destruct u, c as [[] [] [] [] [] [] [] []]; intros H; vm_compute in H;
    try discriminate H; clear H;
    (eexists; split; [vm_compute; reflexivity|]; split; vm_compute;
     reflexivity).
Qed.

Lemma canonCase_cons (u : bool) (c : ascii) (a : bytes) :
  textproto.canonCase u (c :: a)
  = match textproto.canonCase u [c] with
    | c' :: _ => c' :: textproto.canonCase (Ascii.eqb c' "-"%char) a
    | [] => []
    end.
Proof. reflexivity. Qed.

Lemma canonCase_idem (u : bool) (a : bytes) :
  forallb textproto.validHeaderFieldByte a = true →
  forallb textproto.validHeaderFieldByte (textproto.canonCase u a) = true
  ∧ textproto.canonCase u (textproto.canonCase u a) = textproto.canonCase u a.
Proof.
  revert u. induction a as [|c a IH]; intros u H; [done|].
  cbn [forallb] in H. apply andb_true_iff in H as [Hc Ha].
  destruct (canonCase_byte u c Hc) as (c' & E & V & I).
  rewrite canonCase_cons, E.
  destruct (IH (Ascii.eqb c' "-"%char) Ha) as [V' I']. split.
  - cbn [forallb]. by rewrite V, V'.
  - by rewrite canonCase_cons, I, I'.
Qed.

(** A canonical key is its own canonical form. *)
Lemma CanonicalMIMEHeaderKey_idem (k : string) :
  textproto.CanonicalMIMEHeaderKey (textproto.CanonicalMIMEHeaderKey k)
  = textproto.CanonicalMIMEHeaderKey k.
Proof.
  unfold textproto.CanonicalMIMEHeaderKey. cbv zeta.
  destruct (forallb _ (list_ascii_of_string k)) eqn:E.
  - rewrite list_ascii_of_string_of_list_ascii.
    destruct (canonCase_idem true _ E) as [-> ->]. done.
  - by rewrite E.
Qed.

Lemma canonical_empty : canonical ∅.
Proof. intros k vv H. by rewrite lookup_empty in H. Qed.

Lemma canonical_Set (h : Header) (k v : string) :
  canonical h → canonical (Header.Set_ h k v).
Proof.
  intros H k' vv. unfold Header.Set_.
  intros [[<- <-]|[_ Hk]]%lookup_insert_Some; [|by apply H].
  split; [apply CanonicalMIMEHeaderKey_idem|done].
Qed.

Lemma canonical_Add (h : Header) (k v : string) :
  canonical h → canonical (Header.Add h k v).
Proof.
  intros H k' vv. unfold Header.Add. cbv zeta.
  intros [[<- <-]|[_ Hk]]%lookup_insert_Some; [|by apply H].
  split; [apply CanonicalMIMEHeaderKey_idem|].
  by destruct (default [] _).
Qed.

Lemma canonical_Del (h : Header) (k : string) :
  canonical h → canonical (Header.Del h k).
Proof.
  intros H k' vv. unfold Header.Del.
  intros [_ Hk]%lookup_delete_Some. by apply H.
Qed.

(** The first loop of [flushHeaders] empties a map whose keys are
    canonical. *)
Lemma clearHeader_from (d m : Header) :
  (∀ k, is_Some (m !! k) → textproto.CanonicalMIMEHeaderKey k = k) →
  ∀ k, map_fold (λ k _ d, Header.Del d k) d m !! k
       = match m !! k with Some _ => None | None => d !! k end.
Proof.
  apply (map_fold_weak_ind
    (λ r m, (∀ k, is_Some (m !! k) → textproto.CanonicalMIMEHeaderKey k = k)
            → ∀ k, r !! k = match m !! k with Some _ => None
                                            | None => d !! k end)).
  - intros _ k. by rewrite lookup_empty.
  - intros i x m' r Hi IH Hk k. unfold Header.Del.
    rewrite (Hk i) by (rewrite lookup_insert_eq; eauto).
    destruct (decide (i = k)) as [<-|Hne].
    + by rewrite lookup_delete_eq, lookup_insert_eq.
    + rewrite lookup_delete_ne, lookup_insert_ne by done. apply IH.
      intros k' Hk'. apply Hk. rewrite lookup_insert_is_Some. 
      destruct (decide (i = k')); auto.
Qed.

Lemma clearHeader_empty (dst : Header) :
  (∀ k, is_Some (dst !! k) → textproto.CanonicalMIMEHeaderKey k = k) →
  clearHeader dst = ∅.
Proof.
  intros H. apply map_eq. intros k. unfold clearHeader.
  rewrite (clearHeader_from dst dst H k), lookup_empty.
  by destruct (dst !! k).
Qed.

(** The inner loop of [flushHeaders]: the values of one key, added in
    order. *)
Lemma Add_values (d : Header) (k : string) (vv : list string) :
  textproto.CanonicalMIMEHeaderKey k = k → vv ≠ [] →
  foldl (λ d v, Header.Add d k v) d vv = <[k := default [] (d !! k) ++ vv]> d.
Proof.
  intros Hk. revert d. induction vv as [|v vv IH]; intros d Hne; [done|].
  simpl. destruct vv as [|v' vv].
  - simpl. unfold Header.Add. by rewrite Hk.
  - rewrite IH by done. unfold Header.Add. rewrite Hk.
    rewrite lookup_insert_eq, insert_insert_eq. simpl.
    by rewrite <- app_assoc.
Qed.

(** The second loop copies a canonical map onto the empty one as it is. *)
Lemma copyHeader_empty (src : Header) :
  canonical src → copyHeader src ∅ = src.
Proof.
  unfold copyHeader.
  apply (map_fold_weak_ind (λ r m, canonical m → r = m)); [done|].
  intros i x m r Hi IH Hc.
  destruct (Hc i x) as [Hk Hx]; [by rewrite lookup_insert_eq|].
  rewrite IH.
  - rewrite Add_values by done. by rewrite Hi.
  - intros k vv Hkv. apply Hc. rewrite lookup_insert_ne; [done|].
    intros ->. by rewrite Hi in Hkv.
Qed.

Lemma flushHeaders_projects (w : streamWriter) :
  headersFlushed w = false → canonical (header w) →
  (∀ k, is_Some (rw_header (orig w) !! k)
        → textproto.CanonicalMIMEHeaderKey k = k) →
  rw_calls (orig (flushHeaders w))
  = rw_calls (orig w) ++ [CallWriteHeader (header w) (status w)]
  ∧ rw_header (orig (flushHeaders w)) = header w.
Proof.
  intros HF Hc Hk. destruct (flushHeaders_spec w HF) as (C & H & _).
  by rewrite clearHeader_empty, copyHeader_empty in C, H.
Qed.

Lemma header_flushHeaders (w : streamWriter) :
  header (flushHeaders w) = header w ∧ status (flushHeaders w) = status w.
Proof. crush. Qed.

Lemma header_fallBack (w : streamWriter) :
  header (fallBack w) = header w ∧ status (fallBack w) = status w.
Proof. crush. Qed.

Lemma header_origWrite (w : streamWriter) (p : bytes) :
  header (origWrite w p).2 = header w ∧ status (origWrite w p).2 = status w.
Proof. crush. Qed.

Lemma header_forwardRest (w : streamWriter) (p : bytes) (c : nat) :
  header (forwardRest w p c).2 = header w
  ∧ status (forwardRest w p c).2 = status w.
Proof.
  unfold forwardRest. destruct (c <? length p); [apply header_origWrite|done].
Qed.

Lemma header_writeInjected (w : streamWriter) (p u : bytes) (c : nat) :
  header (writeInjected w p u c).2
  = Header.Del (Header.Del (header w) "Content-Length") "ETag"
  ∧ status (writeInjected w p u c).2 = status w.
Proof.
  unfold writeInjected.
  set (w1 := flushHeaders (prepareHeadersForInjection (set_state w injecting))).
  assert (H1 : header w1
               = Header.Del (Header.Del (header w) "Content-Length") "ETag"
               ∧ status w1 = status w).
  { unfold w1. destruct (header_flushHeaders
      (prepareHeadersForInjection (set_state w injecting))) as [-> ->]. done. }
  pose proof (header_origWrite w1 u) as H2.
  destruct (origWrite w1 u) as [[n e] w2]. simpl in H2.
  destruct e as [e|]; [simpl; destruct H1, H2; split; congruence|].
  destruct (c <? length p);
    [|simpl; destruct H1, H2; split; congruence].
  pose proof (header_origWrite w2 (drop c p)) as H3.
  destruct (origWrite w2 (drop c p)) as [[n3 e3] w3]. simpl in H3.
  destruct e3; simpl; destruct H1, H2, H3; split; congruence.
Qed.

Section Headers.

Variable lowerTable : Z → Z.

(** [Write] keeps the captured header map canonical, and while the writer
    is undecided the sink is as the writer found it. *)
Lemma pristine_Write (o : ResponseWriter) (w w' : streamWriter) (p : bytes)
    (r : Z * option error) :
  Write lowerTable w p = Some (r, w') →
  (canonical (header w) → canonical (header w'))
  ∧ ((state w = undecided → orig w = o) → state w' = undecided → orig w' = o).
Proof.
  intros HW.
  destruct (implicitHeader_same w) as (Hs1 & Hh1 & Hb1 & Hc1 & Ho1 & HF1).
  assert (Hdec : state w = undecided ∨ state w ≠ undecided)
    by (destruct (state w); auto).
  destruct Hdec as [Es|Hne].
  - destruct p as [|b p'].
    { rewrite Write_empty in HW by done. result_of HW r w'.
      rewrite Hh1, Ho1. auto. }
    pose proof (Write_undecided lowerTable w (b :: p') Es) as HU.
    specialize (HU ltac:(done)). cbv zeta in HU.
    destruct HU as [HW1|[(HW1 & _)|[(u & _ & _ & HW1)|(_ & _ & HW1)]]];
      rewrite HW1 in HW; [| | |done]; result_of HW r w'.
    + destruct (header_forwardRest
                  (fallBack (set_buf (implicitHeader w)
                     (buf (implicitHeader w)
                      ++ take (absorbed w (b :: p')) (b :: p'))))
                  (b :: p') (absorbed w (b :: p'))) as [-> _].
      destruct (header_fallBack
                  (set_buf (implicitHeader w)
                     (buf (implicitHeader w)
                      ++ take (absorbed w (b :: p')) (b :: p')))) as [-> _].
      simpl. rewrite Hh1. split; [done|]. intros _.
      by rewrite state_forwardRest, state_fallBack.
    + simpl. rewrite Hh1, Ho1. auto.
    + destruct (header_writeInjected
                  (set_buf (implicitHeader w)
                     (buf (implicitHeader w)
                      ++ take (absorbed w (b :: p')) (b :: p')))
                  (b :: p') u (absorbed w (b :: p'))) as [-> _].
      simpl. rewrite Hh1. split; [intros Hc; by do 2 apply canonical_Del|].
      intros _. by rewrite state_writeInjected.
  - rewrite Write_terminal in HW by done. result_of HW r w'.
    destruct (header_origWrite (flushHeaders (implicitHeader w)) p) as [-> _].
    destruct (header_flushHeaders (implicitHeader w)) as [-> _].
    rewrite Hh1. split; [done|]. intros _.
    rewrite state_origWrite, state_flushHeaders, Hs1. done.
Qed.

Lemma pristine_finish (w : streamWriter) :
  (canonical (header w) → canonical (header (finish w)))
  ∧ state (finish w) ≠ undecided.
Proof.
  destruct (state w) eqn:Es.
  - rewrite finish_fallBack by done.
    destruct (header_fallBack w) as [-> _]. by rewrite state_fallBack.
  - rewrite finish_terminal by (by rewrite Es). by rewrite Es.
  - rewrite finish_terminal by (by rewrite Es). by rewrite Es.
Qed.

(** A step keeps the captured header map canonical unless it changes the
    map behind the back of [http.Header]'s methods. *)
Lemma pristine_step (o : ResponseWriter) (w w' : streamWriter) (d : op) :
  step lowerTable w d = Some w' →
  ((∀ f, d ≠ OpHeaderRaw f) → canonical (header w) → canonical (header w'))
  ∧ ((state w = undecided → orig w = o) → state w' = undecided → orig w' = o).
Proof.
  intros Hstep. destruct d as [k v|k v|k|f|c|p| |]; simpl in Hstep.
  - injection Hstep as <-. split; [intros _; by apply canonical_Set|done].
  - injection Hstep as <-. split; [intros _; by apply canonical_Add|done].
  - injection Hstep as <-. split; [intros _; by apply canonical_Del|done].
  - injection Hstep as <-. split; [|done]. intros H. by destruct (H f).
  - injection Hstep as <-. unfold WriteHeader. by destruct (wroteHeader w).
  - destruct (Write lowerTable w p) as [[r w1]|] eqn:HW; [|done].
    injection Hstep as <-.
    destruct (pristine_Write o w w1 p r HW). by split.
  - injection Hstep as <-. rewrite Flush_finish.
    destruct (pristine_finish w) as [Hc' Hne].
    destruct (rw_flusher _); (split; [intros _; exact Hc'|]); intros _ E;
      by destruct Hne.
  - injection Hstep as <-. destruct (rw_hijacker (orig w)) eqn:E.
    + rewrite Hijack_finish by done. destruct (pristine_finish w) as [Hc' Hne].
      split; [intros _; exact Hc'|]. intros _ E'. by destruct Hne.
    + by rewrite Hijack_unsupported.
Qed.

Lemma untouched_run (o : ResponseWriter) (ops : list op)
    (w w' : streamWriter) :
  (state w = undecided → orig w = o) →
  run lowerTable w ops = Some w' →
  state w' = undecided → orig w' = o.
Proof.
  revert w. induction ops as [|d ops IH]; intros w Ho Hrun.
  - by injection Hrun as <-.
  - simpl in Hrun. destruct (step lowerTable w d) as [w1|] eqn:E; [|done].
    destruct (pristine_step o w w1 d E) as [_ H]. apply (IH w1); auto.
Qed.

(** A handler that reaches the map through [Set], [Add] and [Del] only
    leaves it canonical. *)
Lemma canonical_run (ops : list op) (w w' : streamWriter) :
  Forall (λ d, ∀ f, d ≠ OpHeaderRaw f) ops →
  canonical (header w) →
  run lowerTable w ops = Some w' →
  canonical (header w').
Proof.
  revert w. induction ops as [|d ops IH]; intros w Hops Hc Hrun.
  - by injection Hrun as <-.
  - apply Forall_cons in Hops as [Hd Hops]. simpl in Hrun.
    destruct (step lowerTable w d) as [w1|] eqn:E; [|done].
    destruct (pristine_step (orig w) w w1 d E) as [H _].
    apply (IH w1); auto.
Qed.

(** The fall-back on a writer that has flushed nothing yet, on a sink
    with canonical keys: the one [WriteHeader] carries the captured map. *)
Lemma fallBack_emits (w : streamWriter) :
  headersFlushed w = false → rw_calls (orig w) = [] →
  canonical (header w) →
  (∀ k, is_Some (rw_header (orig w) !! k)
        → textproto.CanonicalMIMEHeaderKey k = k) →
  ∃ rest, rw_calls (orig (fallBack w))
          = CallWriteHeader (header w) (status w) :: rest.
Proof.
  intros HF Hcalls Hc Hk. destruct (fallBack_spec w HF) as (C & _).
  rewrite clearHeader_empty, copyHeader_empty, Hcalls in C by done.
  rewrite C. by eexists.
Qed.

Lemma decisive_Write (w w' : streamWriter) (p : bytes)
    (r : Z * option error) :
  state w = undecided → headersFlushed w = false → rw_calls (orig w) = [] →
  canonical (header w) →
  (∀ k, is_Some (rw_header (orig w) !! k)
        → textproto.CanonicalMIMEHeaderKey k = k) →
  Write lowerTable w p = Some (r, w') → state w' ≠ undecided →
  (∃ rest, rw_calls (orig w')
           = CallWriteHeader (header w') (status w') :: rest)
  ∧ header w'
    = match state w' with
      | injecting =>
        Header.Del (Header.Del (header w) "Content-Length") "ETag"
      | _ => header w
      end.
Proof.
  intros Es HF Hcalls Hc Hk HW Hne.
  destruct (implicitHeader_same w) as (Hs1 & Hh1 & Hb1 & Hc1 & Ho1 & HF1).
  destruct p as [|b p'].
  { rewrite Write_empty in HW by done. result_of HW r w'.
    by rewrite Hs1 in Hne. }
  pose proof (Write_undecided lowerTable w (b :: p') Es) as HU.
  specialize (HU ltac:(done)). cbv zeta in HU.
  set (c := absorbed w (b :: p')) in *.
  set (w2 := set_buf (implicitHeader w)
                     (buf (implicitHeader w) ++ take c (b :: p'))) in *.
  assert (Hh2 : header w2 = header w) by exact Hh1.
  assert (Ho2 : orig w2 = orig w) by exact Ho1.
  assert (HF2 : headersFlushed w2 = false) by (by rewrite <- HF, <- HF1).
  destruct HU as [HW1|[(HW1 & _)|[(u & _ & _ & HW1)|(_ & _ & HW1)]]];
    rewrite HW1 in HW; [| | |done]; result_of HW r w'.
  - destruct (header_forwardRest (fallBack w2) (b :: p') c) as [Hh Hst].
    destruct (header_fallBack w2) as [Hh' Hst'].
    rewrite Hh, Hst, Hh', Hst', state_forwardRest, state_fallBack, Hh2.
    split; [|done].
    destruct (fallBack_emits w2) as [rest C];
      [done|by rewrite Ho2|by rewrite Hh2|by rewrite Ho2|].
    destruct (forwardRest_spec (fallBack w2) (b :: p') c) as (_ & C' & _).
    rewrite C', C, Hh2. by eexists.
  - destruct Hne. exact (eq_trans Hs1 Es).
  - destruct (header_writeInjected w2 (b :: p') u c) as [Hh Hst].
    rewrite Hh, Hst, state_writeInjected, Hh2. split; [|done].
    destruct (writeInjected_calls w2 (b :: p') u c HF2)
      as (rest & C & _).
    rewrite Ho2, Hcalls, Hh2 in C.
    rewrite clearHeader_empty, copyHeader_empty in C
      by (done || by do 2 apply canonical_Del).
    rewrite C. by eexists.
Qed.

End Headers.

Lemma finish_emits (w : streamWriter) :
  state w = undecided → headersFlushed w = false → rw_calls (orig w) = [] →
  canonical (header w) →
  (∀ k, is_Some (rw_header (orig w) !! k)
        → textproto.CanonicalMIMEHeaderKey k = k) →
  (∃ rest, rw_calls (orig (finish w))
           = CallWriteHeader (header w) (status w) :: rest)
  ∧ header (finish w) = header w ∧ status (finish w) = status w
  ∧ state (finish w) = passthrough.
Proof.
  intros Es HF Hcalls Hc Hk. rewrite finish_fallBack by done.
  destruct (header_fallBack w) as [-> ->]. rewrite state_fallBack.
  split; [by apply fallBack_emits|done].
Qed.

(** X10. The headers the client receives are the handler's, when the
    handler's map is canonical. [Header()] hands the handler the captured
    map itself; suppose that, at the step that takes the decision (a
    [Write], a [Flush], a [Hijack], or [finish] at the end), its keys are
    in canonical form and no key has an empty list of values, as is the
    case when the handler used only [Set], [Add] and [Del]. Then, on a sink
    whose header keys are canonical, that step calls the sink's
    [WriteHeader] first, with the writer's status and with exactly the
    captured map: unchanged for a passthrough, and with [Content-Length]
    and [Etag] deleted for an injection. (A key assigned directly in
    another form, such as [ETag], is outside this statement: see
    [raw_key_survives_injection].) *)
Theorem decision_emits_headers (lowerTable : Z → Z) (o : ResponseWriter)
    (limit : Z) (src id tgt : string) (also n2 : bool) (ops : list op)
    (w1 w2 : streamWriter) (d : op) :
  rw_calls o = [] →
  (∀ k, is_Some (rw_header o !! k) → textproto.CanonicalMIMEHeaderKey k = k) →
  run lowerTable (newStreamWriter o limit src id tgt also n2) ops = Some w1 →
  state w1 = undecided →
  canonical (header w1) →
  step lowerTable w1 d = Some w2 ∨ w2 = finish w1 →
  state w2 ≠ undecided →
  (∃ rest, rw_calls (orig w2)
           = CallWriteHeader (header w2) (status w2) :: rest)
  ∧ header w2
    = match state w2 with
      | injecting =>
        Header.Del (Header.Del (header w1) "Content-Length") "ETag"
      | _ => header w1
      end.
Proof.
  intros Hcalls Hk Hrun Es Hc Hstep Hne.
  pose proof (orderly_run lowerTable ops _ _
                (orderly_new o limit src id tgt also n2 Hcalls) Hrun) as Ho.
  unfold orderly in Ho. rewrite Es in Ho. destruct Ho as [HF Hc1].
  pose proof (untouched_run lowerTable o ops
                (newStreamWriter o limit src id tgt also n2) w1
                (λ _, eq_refl) Hrun Es) as Horig.
  assert (Hk1 : ∀ k, is_Some (rw_header (orig w1) !! k)
                     → textproto.CanonicalMIMEHeaderKey k = k)
    by (by rewrite Horig).
  destruct (finish_emits w1 Es HF Hc1 Hc Hk1) as ([rest C] & Hh & Hst & Hs).
  assert (Hrec : ∀ c, ∃ rest',
            rw_calls (orig (set_orig (finish w1)
                                     (rw_record (orig (finish w1)) c)))
            = CallWriteHeader (header w1) (status w1) :: rest').
  { intros c. simpl. rewrite C. by eexists. }
  destruct Hstep as [Hstep| ->];
    [|rewrite Hh, Hst, Hs; split; [by eexists|done]].
  destruct d as [k v|k v|k|f|c|p| |]; simpl in Hstep;
    try (injection Hstep as <-; by destruct Hne).
  - injection Hstep as <-. destruct Hne. unfold WriteHeader.
    by destruct (wroteHeader w1).
  - destruct (Write lowerTable w1 p) as [[r w']|] eqn:HW; [|done].
    injection Hstep as <-.
    by apply (decisive_Write lowerTable w1 w' p r).
  - injection Hstep as <-. rewrite Flush_finish.
    destruct (rw_flusher _).
    + change (header (set_orig (finish w1) _)) with (header (finish w1)).
      change (status (set_orig (finish w1) _)) with (status (finish w1)).
      change (state (set_orig (finish w1) _)) with (state (finish w1)).
      rewrite Hh, Hst, Hs. split; [apply (Hrec CallFlush)|done].
    + rewrite Hh, Hst, Hs. split; [by eexists|done].
  - destruct (rw_hijacker (orig w1)) eqn:E.
    + rewrite Hijack_finish in Hstep by done. injection Hstep as <-.
      change (header (set_orig (finish w1) _)) with (header (finish w1)).
      change (status (set_orig (finish w1) _)) with (status (finish w1)).
      change (state (set_orig (finish w1) _)) with (state (finish w1)).
      rewrite Hh, Hst, Hs. split; [apply (Hrec CallHijack)|done].
    + rewrite Hijack_unsupported in Hstep by done.
      injection Hstep as <-. by destruct Hne.
Qed.

Lemma decision_emits_headers_witness :
  let ops := [OpHeaderSet "content-type" "text/html";
              OpHeaderSet "Content-Length" "19"; OpHeaderAdd "ETag" "v1";
              OpWriteHeader 201] in
  ∃ w1 w2,
    run noCaseTable (exampleWriter 1024) ops = Some w1
    ∧ step noCaseTable w1 (OpWrite (bytesOf "<html><head></head>")) = Some w2
    ∧ state w2 = injecting
    ∧ (∃ rest, rw_calls (orig w2)
               = CallWriteHeader (header w2) (status w2) :: rest)
    ∧ header w2 = Header.Del (Header.Del (header w1) "Content-Length") "ETag"
    ∧ header w2 = {[ "Content-Type"%string := ["text/html"%string] ]}
    ∧ status w2 = 201%Z.
Proof.
  intros ops.
  destruct (run noCaseTable (exampleWriter 1024) ops) as [w1|] eqn:E1;
    [|by vm_compute in E1].
  destruct (step noCaseTable w1 (OpWrite (bytesOf "<html><head></head>")))
    as [w2|] eqn:E2;
    [|by (vm_compute in E1; injection E1 as <-; vm_compute in E2)].
  assert (Hc : canonical (header w1)).
  { apply (canonical_run noCaseTable ops (exampleWriter 1024) w1);
      [|apply canonical_empty|exact E1].
    repeat constructor; discriminate. }
  assert (Hs : state w1 = undecided ∧ state w2 = injecting
               ∧ header w2 = {[ "Content-Type"%string := ["text/html"%string] ]}
               ∧ status w2 = 201%Z).
  { vm_compute in E1. injection E1 as <-. vm_compute in E2.
    injection E2 as <-. by vm_compute. }
  destruct Hs as (Hs1 & Hs2 & Hh & Hst).
  destruct (decision_emits_headers noCaseTable plainSink 1024
              "https://a/script.js" "abc" "</head>" true false ops w1 w2
              (OpWrite (bytesOf "<html><head></head>")) eq_refl) as [HC HH].
  - intros k [x Hx]. change (rw_header plainSink) with (∅ : Header) in Hx.
    by rewrite lookup_empty in Hx.
  - exact E1.
  - exact Hs1.
  - exact Hc.
  - by left.
  - by rewrite Hs2.
  - rewrite Hs2 in HH. exists w1, w2. done.
Defined.

(** The hypothesis on the map is needed: [prepareHeadersForInjection]
    deletes the canonical key [Etag] only, so a validator the handler has
    assigned under the key [ETag] stays in the captured map, and
    [flushHeaders] hands it to the sink, under [Etag], with the injected
    body. *)
Lemma raw_key_survives_injection :
  let ops := [OpHeaderSet "Content-Type" "text/html";
              OpHeaderRaw (λ h, <["ETag"%string := ["v1"%string]]> h);
              OpWrite (bytesOf "<html><head></head>")] in
  ∃ w h rest,
    run noCaseTable (exampleWriter 1024) ops = Some w
    ∧ state w = injecting
    ∧ header w !! "ETag"%string = Some ["v1"%string]
    ∧ rw_calls (orig w) = CallWriteHeader h 200 :: rest
    ∧ Header.Get h "ETag" = "v1"%string.
Proof.
  intros ops.
  destruct (run noCaseTable (exampleWriter 1024) ops) as [w|] eqn:E;
    [|by vm_compute in E].
  vm_compute in E. injection E as <-. eexists _, _, _.
  split; [reflexivity|]. split; [reflexivity|]. split; [by vm_compute|].
  split; [reflexivity|]. by vm_compute.
Qed.

(** ** What [Write] returns *)

Lemma answer_quiet (s : list (option (nat * error))) (p : bytes) :
  Forall (λ x, x = None) s → answer s p = (length p, None).
Proof. unfold answer. destruct s as [|[[k e]|] s]; [done| |done].
  by intros [? _]%Forall_cons. Qed.

Lemma delivered_header (h : Header) (s : Z) (l : list call) :
  delivered (CallWriteHeader h s :: l) = delivered l.
Proof. done. Qed.

Lemma delivered_whole (q : bytes) (e : option error) (l : list call) :
  delivered (CallWrite q (length q) e :: l) = q ++ delivered l.
Proof. unfold delivered. simpl. by rewrite firstn_all. Qed.

Section Results.

Variable lowerTable : Z → Z.

(** A [Write] that takes the writer from undecided to passthrough: the
    calls it makes on the sink and the result it returns. *)
Lemma Write_fallback (w w' : streamWriter) (p : bytes)
    (r : Z * option error) :
  state w = undecided → headersFlushed w = false →
  Write lowerTable w p = Some (r, w') → state w' = passthrough →
  let c := absorbed w p in
  let held := buf w ++ take c p in
  let a1 := answer (rw_script (orig w)) held in
  let a2 := answer (if held is [] then rw_script (orig w)
                    else tail (rw_script (orig w))) (drop c p) in
  rw_calls (orig w')
  = rw_calls (orig w)
    ++ CallWriteHeader (copyHeader (header w) (clearHeader (rw_header (orig w))))
                       (status (implicitHeader w))
    :: (if held is [] then [] else [CallWrite held a1.1 a1.2])
    ++ (if c <? length p then [CallWrite (drop c p) a2.1 a2.2] else [])
  ∧ r = (if c <? length p then (Z.of_nat a2.1, a2.2)
         else (Z.of_nat (length p), None)).
Proof.
  intros Es HF HW Hs' c held a1 a2.
  destruct (implicitHeader_same w) as (Hs1 & Hh1 & Hb1 & Hc1 & Ho1 & HF1).
  destruct p as [|b p'].
  { rewrite Write_empty in HW by done. result_of HW r w'. congruence. }
  pose proof (Write_undecided lowerTable w (b :: p') Es) as HU.
  specialize (HU ltac:(done)). cbv zeta in HU. fold c in HU.
  set (w2 := set_buf (implicitHeader w)
                     (buf (implicitHeader w) ++ take c (b :: p'))) in *.
  assert (HF2 : headersFlushed w2 = false) by (by rewrite <- HF, <- HF1).
  assert (Hb2 : buf w2 = held) by (unfold held; by rewrite <- Hb1).
  destruct HU as [HW1|[(HW1 & _)|[(u & _ & _ & HW1)|(_ & _ & HW1)]]];
    rewrite HW1 in HW; [| | |done]; result_of HW r w'.
  - destruct (fallBack_spec w2 HF2) as (C & S & _).
    destruct (forwardRest_spec (fallBack w2) (b :: p') c) as (R & C' & _).
    cbv zeta in C, S, R, C'. rewrite S in R, C'. rewrite Hb2 in C, R, C'.
    change (orig w2) with (orig (implicitHeader w)) in C, R, C'.
    change (header w2) with (header (implicitHeader w)) in C.
    change (status w2) with (status (implicitHeader w)) in C.
    rewrite Ho1 in C, R, C'. rewrite Hh1 in C. fold a1 in C. fold a2 in R, C'.
    rewrite C', C, <- app_assoc. done.
  - exfalso. change (state (implicitHeader w) = passthrough) in Hs'. congruence.
  - rewrite state_writeInjected in Hs'. done.
Qed.

End Results.

(** X11. A [Write] that absorbs a part of its chunk and then falls back
    to passthrough reports a short count. On a sink that takes every write
    all the bytes held back and all the bytes of the chunk are delivered,
    yet the count returned is that of the part of the chunk that was not
    absorbed, less than [len(p)], with a nil error. *)
Theorem fallback_short_count (lowerTable : Z → Z) (w w' : streamWriter)
    (p : bytes) (n : Z) (err : option error) :
  state w = undecided → headersFlushed w = false → faultless (orig w) →
  Write lowerTable w p = Some ((n, err), w') → state w' = passthrough →
  0 < absorbed w p < length p →
  n = Z.of_nat (length p - absorbed w p) ∧ (n < Z.of_nat (length p))%Z
  ∧ err = None
  ∧ delivered (rw_calls (orig w'))
    = delivered (rw_calls (orig w)) ++ buf w ++ p.
Proof.
  intros Es HF Hf HW Hs' Hc.
  destruct (Write_fallback lowerTable w w' p (n, err) Es HF HW Hs')
    as [C R].
  cbv zeta in C, R.
  assert (Hlt : (absorbed w p <? length p) = true) by (apply Nat.ltb_lt; lia).
  rewrite Hlt in C, R.
  assert (Hheld : buf w ++ take (absorbed w p) p ≠ []).
  { destruct p as [|b p']; [simpl in Hc; lia|].
    destruct (absorbed w (b :: p')); [lia|]. by destruct (buf w). }
  assert (Hif : ∀ (A : Type) (x y : A),
            (if buf w ++ take (absorbed w p) p is [] then x else y) = y).
  { intros A x y. by destruct (buf w ++ take (absorbed w p) p). }
  rewrite !Hif in C. rewrite Hif in R.
  assert (Hf' : Forall (λ x, x = None) (tail (rw_script (orig w)))).
  { unfold faultless in Hf. destruct (rw_script (orig w)); [done|].
    by apply Forall_cons in Hf as [_ ?]. }
  rewrite (answer_quiet _ _ Hf) in C. rewrite (answer_quiet _ _ Hf') in C, R.
  simpl in R. injection R as -> ->. rewrite length_drop.
  split; [done|]. split; [lia|]. split; [done|].
  rewrite C, delivered_app, delivered_header. simpl.
  rewrite !delivered_whole. unfold delivered at 2. simpl.
  by rewrite app_nil_r, <- !app_assoc, take_drop.
Qed.

Lemma fallback_short_count_witness :
  let p := bytesOf "<html><head></head>" in
  ∃ w', Write noCaseTable (exampleWriter 8) p = Some ((11%Z, None), w')
        ∧ state w' = passthrough
        ∧ delivered (rw_calls (orig w')) = p.
Proof.
  intros p.
  destruct (Write noCaseTable (exampleWriter 8) p) as [[[n err] w']|] eqn:E;
    [|by vm_compute in E].
  assert (Hs : state w' = passthrough).
  { vm_compute in E. injection E as _ _ <-. by vm_compute. }
  destruct (fallback_short_count noCaseTable (exampleWriter 8) w' p n err)
    as (-> & _ & -> & D); try done.
  - apply List.Forall_nil.
  - vm_compute. lia.
  - exists w'. done.
Defined.

(** X12. The error of the sink on the bytes held back is not reported.
    When a [Write] absorbs its whole chunk and falls back to passthrough,
    the buffer goes to the sink in one write whose result is dropped:
    whatever the sink answers, [Write] returns [len(p)] and a nil error. *)
Theorem fallback_swallows_error (lowerTable : Z → Z) (w w' : streamWriter)
    (p : bytes) (r : Z * option error) :
  state w = undecided → headersFlushed w = false →
  Write lowerTable w p = Some (r, w') → state w' = passthrough →
  absorbed w p = length p →
  let a := answer (rw_script (orig w)) (buf w ++ p) in
  r = (Z.of_nat (length p), None)
  ∧ ∃ h s, rw_calls (orig w')
           = rw_calls (orig w)
             ++ [CallWriteHeader h s; CallWrite (buf w ++ p) a.1 a.2].
Proof.
  intros Es HF HW Hs' Hc a.
  destruct (Write_fallback lowerTable w w' p r Es HF HW Hs') as [C R].
  cbv zeta in C, R. rewrite Hc, Nat.ltb_irrefl in C, R.
  rewrite firstn_all in C.
  split; [done|]. rewrite app_nil_r in C.
  destruct p as [|b p'].
  { rewrite Write_empty in HW by done. result_of HW r w'.
    destruct (implicitHeader_same w) as (Hs1 & _). congruence. }
  fold a in C. destruct (buf w ++ b :: p') eqn:E; [by destruct (buf w)|].
  rewrite C. by eexists _, _.
Qed.

Lemma fallback_swallows_error_witness :
  let sink := freshSink ∅ [Some (3, "broken pipe"%string)] true true in
  let w := set_header
             (newStreamWriter sink 1024 "https://a/script.js" "abc" "</head>"
                true false)
             (Header.Set_ ∅ "Content-Type" "application/json") in
  let p := bytesOf "{}" in
  ∃ w', Write noCaseTable w p = Some ((2%Z, None), w')
        ∧ ∃ h s, rw_calls (orig w')
                 = [CallWriteHeader h s;
                    CallWrite p 2 (Some "broken pipe"%string)].
Proof.
  intros sink w p.
  destruct (Write noCaseTable w p) as [[r w']|] eqn:E; [|by vm_compute in E].
  assert (Hs : state w' = passthrough).
  { vm_compute in E. injection E as _ <-. by vm_compute. }
  destruct (fallback_swallows_error noCaseTable w w' p r) as (-> & h & s & C);
    try done.
  exists w'. split; [done|]. exists h, s. exact C.
Defined.

(** [writeInjected]: the calls it makes and what it returns. The second
    write is made only when the first succeeded. *)
Lemma writeInjected_spec (w : streamWriter) (p u : bytes) (c : nat) :
  headersFlushed w = false →
  let hdr := copyHeader
               (Header.Del (Header.Del (header w) "Content-Length") "ETag")
               (clearHeader (rw_header (orig w))) in
  let a1 := answer (rw_script (orig w)) u in
  let a2 := answer (tail (rw_script (orig w))) (drop c p) in
  rw_calls (orig (writeInjected w p u c).2)
  = rw_calls (orig w)
    ++ CallWriteHeader hdr (status w) :: CallWrite u a1.1 a1.2
    :: (if a1.2 is None
        then if c <? length p then [CallWrite (drop c p) a2.1 a2.2] else []
        else [])
  ∧ (writeInjected w p u c).1
    = (Z.of_nat (length p),
       if a1.2 is Some e then Some e
       else if c <? length p then a2.2 else None).
Proof.
  intros HF hdr a1 a2. unfold writeInjected.
  set (w1 := prepareHeadersForInjection (set_state w injecting)).
  assert (HF1 : headersFlushed w1 = false) by done.
  destruct (flushHeaders_spec w1 HF1) as (C1 & _ & S1 & _).
  change (header w1)
    with (Header.Del (Header.Del (header w) "Content-Length") "ETag") in C1.
  change (orig w1) with (orig w) in C1, S1.
  change (status w1) with (status w) in C1. fold hdr in C1.
  destruct (origWrite_spec (flushHeaders w1) u) as (R3 & C3 & S3 & _).
  rewrite S1 in R3, C3, S3. fold a1 in R3, C3.
  destruct (origWrite (flushHeaders w1) u) as [[n e] w3]. simpl in R3, C3, S3.
  rewrite C1, <- app_assoc in C3. simpl in C3.
  injection R3 as -> ->.
  destruct (a1.2) as [e1|] eqn:E1; [simpl; by rewrite C3|].
  destruct (c <? length p).
  - destruct (origWrite_spec w3 (drop c p)) as (R4 & C4 & _).
    rewrite S3 in R4, C4. fold a2 in R4, C4.
    destruct (origWrite w3 (drop c p)) as [[n4 e4] w4]. simpl in R4, C4.
    injection R4 as -> ->. rewrite C3, <- app_assoc in C4. simpl in C4.
    destruct (a2.2) as [e2|]; simpl; by rewrite C4.
  - simpl. by rewrite C3.
Qed.

Lemma calls_flushHeaders (w : streamWriter) :
  ∃ more, rw_calls (orig (flushHeaders w)) = rw_calls (orig w) ++ more.
Proof.
  unfold flushHeaders. destruct (headersFlushed w).
  - exists []. by rewrite app_nil_r.
  - simpl. by eexists.
Qed.

Lemma calls_fallBack (w : streamWriter) :
  ∃ more, rw_calls (orig (fallBack w)) = rw_calls (orig w) ++ more.
Proof.
  unfold fallBack.
  destruct (flushBuffer_spec (flushHeaders (set_state w passthrough)))
    as (C & _).
  destruct (calls_flushHeaders (set_state w passthrough)) as [m1 C1].
  rewrite C, C1, <- app_assoc. by eexists.
Qed.

Lemma writeInjected_error (w : streamWriter) (p u : bytes) (c : nat)
    (n : Z) (e : error) :
  (writeInjected w p u c).1 = (n, Some e) →
  n = Z.of_nat (length p)
  ∧ ∃ more q k, rw_calls (orig (writeInjected w p u c).2)
                = rw_calls (orig w) ++ more ++ [CallWrite q k (Some e)].
Proof.
  unfold writeInjected.
  set (w1 := prepareHeadersForInjection (set_state w injecting)).
  destruct (calls_flushHeaders w1) as [m1 C1].
  change (orig w1) with (orig w) in C1.
  destruct (origWrite_spec (flushHeaders w1) u) as (R3 & C3 & _).
  destruct (origWrite (flushHeaders w1) u) as [[n3 e3] w3]. simpl in R3, C3.
  rewrite C1 in C3.
  destruct e3 as [e3|].
  { simpl. intros [= <- <-]. split; [done|]. rewrite C3.
    injection R3 as _ <-. rewrite <- app_assoc. eexists _, _, _; reflexivity. }
  destruct (c <? length p); [|done].
  destruct (origWrite_spec w3 (drop c p)) as (R4 & C4 & _).
  destruct (origWrite w3 (drop c p)) as [[n4 e4] w4]. simpl in R4, C4.
  destruct e4 as [e4|]; [|done].
  simpl. intros [= <- <-]. split; [done|]. rewrite C4, C3.
  injection R4 as _ <-. rewrite <- !app_assoc, (app_assoc m1).
  eexists _, _, _; reflexivity.
Qed.

(** X13. [Write] invents no error: every error it returns is the one the
    sink's [Write] returned in the last call [Write] made on it, after
    which it made no other; and the count it returns lies between zero and
    [len(p)]. *)
Theorem Write_error_is_the_sinks (lowerTable : Z → Z) (w w' : streamWriter)
    (p : bytes) (n : Z) (e : error) :
  Write lowerTable w p = Some ((n, Some e), w') →
  (0 ≤ n ≤ Z.of_nat (length p))%Z
  ∧ ∃ more q k, rw_calls (orig w')
                = rw_calls (orig w) ++ more ++ [CallWrite q k (Some e)].
Proof.
  intros HW.
  destruct (implicitHeader_same w) as (Hs1 & Hh1 & Hb1 & Hc1 & Ho1 & HF1).
  assert (Hdec : state w = undecided ∨ state w ≠ undecided)
    by (destruct (state w); auto).
  destruct Hdec as [Es|Hne].
  - destruct p as [|b p'].
    { by rewrite Write_empty in HW by done. }
    pose proof (Write_undecided lowerTable w (b :: p') Es) as HU.
    specialize (HU ltac:(done)). cbv zeta in HU.
    set (c := absorbed w (b :: p')) in *.
    set (w2 := set_buf (implicitHeader w)
                       (buf (implicitHeader w) ++ take c (b :: p'))) in *.
    assert (Ho2 : orig w2 = orig w) by exact Ho1.
    destruct HU as [HW1|[(HW1 & _)|[(u & _ & _ & HW1)|(_ & _ & HW1)]]];
      rewrite HW1 in HW; [| | |done].
    + destruct (forwardRest_spec (fallBack w2) (b :: p') c) as (R & C & _).
      destruct (calls_fallBack w2) as [m C2]. rewrite Ho2 in C2.
      destruct (forwardRest (fallBack w2) (b :: p') c) as [r1 w1].
      injection HW as -> <-. cbn [fst snd] in R, C.
      pose proof (answer_le (rw_script (orig (fallBack w2))) (drop c (b :: p')))
        as Hle.
      rewrite length_drop in Hle.
      destruct (c <? length (b :: p')); [|done].
      injection R as -> Ha. split; [lia|].
      rewrite C, C2, <- Ha, <- app_assoc. eexists _, _, _; reflexivity.
    + done.
    + destruct (writeInjected_error w2 (b :: p') u c n e) as [-> Hc].
      { by destruct (writeInjected w2 (b :: p') u c) as [r1 w1];
          injection HW as -> _. }
      split; [lia|]. rewrite Ho2 in Hc.
      destruct (writeInjected w2 (b :: p') u c) as [r1 w1].
      by injection HW as _ <-.
  - rewrite Write_terminal in HW by done.
    destruct (origWrite_spec (flushHeaders (implicitHeader w)) p)
      as (R & C & _).
    destruct (calls_flushHeaders (implicitHeader w)) as [m C1].
    rewrite Ho1 in C1.
    pose proof (answer_le (rw_script (orig (flushHeaders (implicitHeader w)))) p)
      as Hle.
    destruct (origWrite (flushHeaders (implicitHeader w)) p) as [r1 w1].
    injection HW as -> <-. cbn [fst snd] in R, C. injection R as -> Ha.
    split; [lia|].
    rewrite C, C1, <- Ha, <- app_assoc. eexists _, _, _; reflexivity.
Qed.

Lemma Write_error_is_the_sinks_witness :
  let sink := freshSink ∅ [None; Some (4, "reset"%string)] true true in
  let w := newStreamWriter sink 8 "https://a/script.js" "abc" "</head>"
             true false in
  let p := bytesOf "<html><head></head>" in
  ∃ w', Write noCaseTable w p = Some ((4%Z, Some "reset"%string), w')
        ∧ ∃ more q k, rw_calls (orig w')
                      = more ++ [CallWrite q k (Some "reset"%string)].
Proof.
  intros sink w p.
  destruct (Write noCaseTable w p) as [[[n [e|]] w']|] eqn:E;
    [|by vm_compute in E..].
  assert (Hn : n = 4%Z ∧ e = "reset"%string).
  { vm_compute in E. by injection E as <- <- _. }
  destruct Hn as [-> ->].
  destruct (Write_error_is_the_sinks noCaseTable w w' p 4 "reset" E)
    as (_ & more & q & k & C).
  exists w'. split; [done|]. by exists more, q, k.
Defined.

(** X14. A [Write] that takes the writer from undecided to injecting
    writes the spliced buffer first and the rest of the chunk after it, and
    only if the first write succeeded; it returns [len(p)] whatever the sink
    took, with the error of the write that failed, if one did. *)
Theorem injecting_write_result (lowerTable : Z → Z) (w w' : streamWriter)
    (p : bytes) (r : Z * option error) :
  state w = undecided → headersFlushed w = false →
  Write lowerTable w p = Some (r, w') → state w' = injecting →
  let c := absorbed w p in
  ∃ u h,
    tryInject lowerTable (buf w ++ take c p) (scriptSrc w) (websiteID w)
      (injectBefore w) (alsoMatchBodyClose w) = Injected u
    ∧ let a1 := answer (rw_script (orig w)) u in
      let a2 := answer (tail (rw_script (orig w))) (drop c p) in
      rw_calls (orig w')
      = rw_calls (orig w)
        ++ CallWriteHeader h (status (implicitHeader w))
        :: CallWrite u a1.1 a1.2
        :: (if a1.2 is None
            then if c <? length p then [CallWrite (drop c p) a2.1 a2.2]
                 else []
            else [])
      ∧ r = (Z.of_nat (length p),
             if a1.2 is Some e then Some e
             else if c <? length p then a2.2 else None).
Proof.
  intros Es HF HW Hs' c.
  destruct (implicitHeader_same w) as (Hs1 & Hh1 & Hb1 & Hc1 & Ho1 & HF1).
  destruct p as [|b p'].
  { rewrite Write_empty in HW by done. result_of HW r w'. congruence. }
  pose proof (Write_undecided lowerTable w (b :: p') Es) as HU.
  specialize (HU ltac:(done)). cbv zeta in HU. fold c in HU.
  set (w2 := set_buf (implicitHeader w)
                     (buf (implicitHeader w) ++ take c (b :: p'))) in *.
  assert (HF2 : headersFlushed w2 = false) by (by rewrite <- HF, <- HF1).
  destruct HU as [HW1|[(HW1 & _)|[(u & Htry & _ & HW1)|(_ & _ & HW1)]]];
    rewrite HW1 in HW; [| | |done]; result_of HW r w'.
  - by rewrite state_forwardRest, state_fallBack in Hs'.
  - exfalso. change (state (implicitHeader w) = injecting) in Hs'. congruence.
  - destruct (writeInjected_spec w2 (b :: p') u c HF2) as [C R].
    cbv zeta in C, R.
    change (orig w2) with (orig (implicitHeader w)) in C, R.
    change (status w2) with (status (implicitHeader w)) in C.
    rewrite Ho1 in C, R.
    change (buf w2) with (buf (implicitHeader w) ++ take c (b :: p')) in Htry.
    rewrite Hb1 in Htry.
    eexists u, _. split; [exact Htry|]. cbv zeta. split; [exact C|exact R].
Qed.

Lemma injecting_write_result_witness :
  let sink := freshSink ∅ [Some (0, "closed"%string)] true true in
  let w := newStreamWriter sink 13 "https://a/script.js" "abc" "</head>"
             true false in
  let p := bytesOf "<head></head><body>" in
  ∃ w' u h,
    Write noCaseTable w p = Some ((19%Z, Some "closed"%string), w')
    ∧ tryInject noCaseTable (take 13 p) "https://a/script.js" "abc" "</head>"
        true = Injected u
    ∧ rw_calls (orig w')
      = [CallWriteHeader h 200; CallWrite u 0 (Some "closed"%string)].
Proof.
  intros sink w p.
  destruct (Write noCaseTable w p) as [[r w']|] eqn:E; [|by vm_compute in E].
  assert (Hs : state w' = injecting).
  { vm_compute in E. injection E as _ <-. by vm_compute. }
  destruct (injecting_write_result noCaseTable w w' p r eq_refl eq_refl E Hs)
    as (u & h & Htry & C & ->).
  exists w', u, h. split; [reflexivity|].
  split; [exact Htry|exact C].
Defined.

(** ** Responses that are left alone *)

Section LeftAlone.

Variable lowerTable : Z → Z.

Lemma run_app (w w1 : streamWriter) (ops1 ops2 : list op) :
  run lowerTable w ops1 = Some w1 →
  run lowerTable w (ops1 ++ ops2) = run lowerTable w1 ops2.
Proof.
  revert w. induction ops1 as [|d ops1 IH]; intros w H; simpl in *.
  - by injection H as ->.
  - destruct (step lowerTable w d); [by apply IH|done].
Qed.

(** Once a step has resolved the response to passthrough on a sink that
    takes every write, the rest runs to its end and the sink has the body
    as written. *)
Lemma passthrough_response (o : ResponseWriter) (limit : Z)
    (src id tgt : string) (also n2 : bool) (ops1 ops2 : list op) (d : op)
    (w1 w2 : streamWriter) :
  rw_calls o = [] → faultless o →
  run lowerTable (newStreamWriter o limit src id tgt also n2) ops1 = Some w1 →
  step lowerTable w1 d = Some w2 → state w2 = passthrough →
  ∃ w, serve lowerTable (newStreamWriter o limit src id tgt also n2)
         (ops1 ++ d :: ops2) = Some w
       ∧ state w = passthrough
       ∧ delivered (rw_calls (orig w)) = written (ops1 ++ d :: ops2).
Proof.
  intros Hcalls Hf Hrun1 Hstep Hs2.
  destruct (run_decided lowerTable ops2 w2) as (w3 & Hrun3 & Hs3);
    [by rewrite Hs2|].
  rewrite Hs2 in Hs3.
  assert (Hrun : run lowerTable (newStreamWriter o limit src id tgt also n2)
                   (ops1 ++ d :: ops2) = Some w3).
  { rewrite (run_app _ _ _ _ Hrun1). simpl. by rewrite Hstep. }
  exists w3. unfold serve. rewrite Hrun. simpl.
  rewrite finish_terminal by (by rewrite Hs3).
  split; [done|]. split; [done|].
  pose proof (streaming_new lowerTable o limit src id tgt also n2 Hcalls Hf)
    as H0.
  pose proof (streaming_run _ _ _ _ _ _ H0 Hrun) as (_ & _ & H1).
  rewrite Hs3 in H1. by destruct H1.
Qed.

Lemma Write_encoded (w : streamWriter) (p : bytes) :
  state w = undecided → p ≠ [] →
  Header.Get (header w) "Content-Encoding" ≠ EmptyString →
  Write lowerTable w p = Some (origWrite (fallBack (implicitHeader w)) p).
Proof.
  intros Es Hp Hce. unfold Write.
  destruct (implicitHeader_same w) as (Hs1 & Hh1 & _).
  rewrite Hs1, Es, Hh1.
  replace (length p =? 0) with false
    by (symmetry; apply Nat.eqb_neq; by destruct p).
  apply String.eqb_neq in Hce. by rewrite Hce.
Qed.

Lemma Write_script_present (w : streamWriter) (p : bytes) :
  state w = undecided → p ≠ [] →
  Contains (buf w ++ take (absorbed w p) p) (bytesOf (scriptSrc w)) = true →
  ∃ r w', Write lowerTable w p = Some (r, w') ∧ state w' = passthrough.
Proof.
  intros Es Hp Hc.
  destruct (implicitHeader_same w) as (_ & _ & Hb1 & _).
  pose proof (Write_undecided lowerTable w p Es Hp) as HU. cbv zeta in HU.
  change (buf (set_buf (implicitHeader w) ?b)) with b in HU.
  rewrite Hb1, Hc in HU.
  destruct HU as [HW|[(_ & _ & _ & ?)|[(u & _ & ? & _)|(_ & ? & _)]]];
    [|done..].
  rewrite HW. destruct (forwardRest _ _ _) as [r w'] eqn:E.
  exists r, w'. split; [done|].
  change w' with (r, w').2. rewrite <- E.
  by rewrite state_forwardRest, state_fallBack.
Qed.

End LeftAlone.

(** X15. An encoded response is left alone. If the captured headers name
    a [Content-Encoding] when the handler writes a chunk that is not empty
    to an undecided writer, the response is resolved to passthrough there
    and then, without a look at the body: on a sink that takes every write
    the response runs to its end and the sink receives the bytes written,
    unchanged. *)
Theorem encoded_response_untouched (lowerTable : Z → Z) (o : ResponseWriter)
    (limit : Z) (src id tgt : string) (also n2 : bool) (ops1 ops2 : list op)
    (w1 : streamWriter) (p : bytes) :
  rw_calls o = [] → faultless o →
  run lowerTable (newStreamWriter o limit src id tgt also n2) ops1 = Some w1 →
  state w1 = undecided →
  Header.Get (header w1) "Content-Encoding" ≠ EmptyString →
  p ≠ [] →
  ∃ w, serve lowerTable (newStreamWriter o limit src id tgt also n2)
         (ops1 ++ OpWrite p :: ops2) = Some w
       ∧ state w = passthrough
       ∧ delivered (rw_calls (orig w)) = written (ops1 ++ OpWrite p :: ops2).
Proof.
  intros Hcalls Hf Hrun Es Hce Hp.
  apply (passthrough_response lowerTable o limit src id tgt also n2 ops1 ops2
           (OpWrite p) w1
           (origWrite (fallBack (implicitHeader w1)) p).2 Hcalls Hf Hrun).
  - simpl. by rewrite Write_encoded.
  - by rewrite state_origWrite, state_fallBack.
Qed.

Lemma encoded_response_untouched_witness :
  let ops1 := [OpHeaderSet "Content-Type" "text/html";
               OpHeaderSet "content-encoding" "gzip"] in
  let p := bytesOf "<html><head></head></html>" in
  ∃ w, serve noCaseTable (exampleWriter 1024) (ops1 ++ [OpWrite p]) = Some w
       ∧ state w = passthrough
       ∧ delivered (rw_calls (orig w)) = p.
Proof.
  intros ops1 p.
  destruct (run noCaseTable (exampleWriter 1024) ops1) as [w1|] eqn:E1;
    [|by vm_compute in E1].
  assert (H1 : state w1 = undecided
               ∧ Header.Get (header w1) "Content-Encoding" = "gzip"%string).
  { vm_compute in E1. injection E1 as <-. by vm_compute. }
  destruct H1 as [Hs Hce].
  apply (encoded_response_untouched noCaseTable plainSink 1024
           "https://a/script.js" "abc" "</head>" true false ops1 [] w1 p
           eq_refl (List.Forall_nil _) E1 Hs).
  - by rewrite Hce.
  - done.
Defined.

(** X16. No second snippet. If the bytes held back, with the part of the
    chunk a [Write] absorbs, already contain the script source, the response
    is resolved to passthrough: on a sink that takes every write it runs to
    its end and the sink receives the bytes written, unchanged. *)
Theorem tagged_response_untouched (lowerTable : Z → Z) (o : ResponseWriter)
    (limit : Z) (src id tgt : string) (also n2 : bool) (ops1 ops2 : list op)
    (w1 : streamWriter) (p : bytes) :
  rw_calls o = [] → faultless o →
  run lowerTable (newStreamWriter o limit src id tgt also n2) ops1 = Some w1 →
  state w1 = undecided → p ≠ [] →
  Contains (buf w1 ++ take (absorbed w1 p) p) (bytesOf src) = true →
  ∃ w, serve lowerTable (newStreamWriter o limit src id tgt also n2)
         (ops1 ++ OpWrite p :: ops2) = Some w
       ∧ state w = passthrough
       ∧ delivered (rw_calls (orig w)) = written (ops1 ++ OpWrite p :: ops2).
Proof.
  intros Hcalls Hf Hrun Es Hp Hc.
  pose proof (streaming_new lowerTable o limit src id tgt also n2 Hcalls Hf)
    as H0.
  pose proof (streaming_run _ _ _ _ _ _ H0 Hrun) as (Hcfg & _).
  assert (Hsrc : scriptSrc w1 = src) by (by injection Hcfg).
  destruct (Write_script_present lowerTable w1 p Es Hp) as (r & w2 & HW & Hs2);
    [by rewrite Hsrc|].
  apply (passthrough_response lowerTable o limit src id tgt also n2 ops1 ops2
           (OpWrite p) w1 w2 Hcalls Hf Hrun); [|done].
  simpl. by rewrite HW.
Qed.

Lemma tagged_response_untouched_witness :
  let p := bytesOf "<head><script src=https://a/script.js></script></head>" in
  ∃ w, serve noCaseTable (exampleWriter 1024) [OpWrite p] = Some w
       ∧ state w = passthrough
       ∧ delivered (rw_calls (orig w)) = p.
Proof.
  intros p.
  apply (tagged_response_untouched noCaseTable plainSink 1024
           "https://a/script.js" "abc" "</head>" true false [] []
           (exampleWriter 1024) p eq_refl (List.Forall_nil _) eq_refl eq_refl).
  - done.
  - by vm_compute.
Defined.

(** ** Flush and Hijack *)

(** What the sink implements does not change. *)
Lemma caps_flushHeaders (w : streamWriter) :
  rw_flusher (orig (flushHeaders w)) = rw_flusher (orig w)
  ∧ rw_hijacker (orig (flushHeaders w)) = rw_hijacker (orig w).
Proof. crush. Qed.

Lemma caps_origWrite (w : streamWriter) (p : bytes) :
  rw_flusher (orig (origWrite w p).2) = rw_flusher (orig w)
  ∧ rw_hijacker (orig (origWrite w p).2) = rw_hijacker (orig w).
Proof. crush. Qed.

Lemma caps_fallBack (w : streamWriter) :
  rw_flusher (orig (fallBack w)) = rw_flusher (orig w)
  ∧ rw_hijacker (orig (fallBack w)) = rw_hijacker (orig w).
Proof. crush. Qed.

Lemma caps_forwardRest (w : streamWriter) (p : bytes) (c : nat) :
  rw_flusher (orig (forwardRest w p c).2) = rw_flusher (orig w)
  ∧ rw_hijacker (orig (forwardRest w p c).2) = rw_hijacker (orig w).
Proof.
  unfold forwardRest. destruct (c <? length p); [apply caps_origWrite|done].
Qed.

Lemma caps_writeInjected (w : streamWriter) (p u : bytes) (c : nat) :
  rw_flusher (orig (writeInjected w p u c).2) = rw_flusher (orig w)
  ∧ rw_hijacker (orig (writeInjected w p u c).2) = rw_hijacker (orig w).
Proof.
  unfold writeInjected.
  set (w1 := flushHeaders (prepareHeadersForInjection (set_state w injecting))).
  assert (H1 : rw_flusher (orig w1) = rw_flusher (orig w)
               ∧ rw_hijacker (orig w1) = rw_hijacker (orig w))
    by apply (caps_flushHeaders
                (prepareHeadersForInjection (set_state w injecting))).
  pose proof (caps_origWrite w1 u) as H2.
  destruct (origWrite w1 u) as [[n e] w2]. simpl in H2.
  destruct e as [e|]; [simpl; destruct H1, H2; split; congruence|].
  destruct (c <? length p);
    [|simpl; destruct H1, H2; split; congruence].
  pose proof (caps_origWrite w2 (drop c p)) as H3.
  destruct (origWrite w2 (drop c p)) as [[n3 e3] w3]. simpl in H3.
  destruct e3; simpl; destruct H1, H2, H3; split; congruence.
Qed.

Lemma caps_finish (w : streamWriter) :
  rw_flusher (orig (finish w)) = rw_flusher (orig w)
  ∧ rw_hijacker (orig (finish w)) = rw_hijacker (orig w).
Proof. unfold finish. destruct (state w); [apply caps_fallBack|done..]. Qed.

Section Control.

Variable lowerTable : Z → Z.

Lemma caps_Write (w w' : streamWriter) (p : bytes) (r : Z * option error) :
  Write lowerTable w p = Some (r, w') →
  rw_flusher (orig w') = rw_flusher (orig w)
  ∧ rw_hijacker (orig w') = rw_hijacker (orig w).
Proof.
  intros HW.
  destruct (implicitHeader_same w) as (Hs1 & Hh1 & Hb1 & Hc1 & Ho1 & HF1).
  assert (Hdec : state w = undecided ∨ state w ≠ undecided)
    by (destruct (state w); auto).
  destruct Hdec as [Es|Hne].
  - destruct p as [|b p'].
    { rewrite Write_empty in HW by done. result_of HW r w'. by rewrite Ho1. }
    pose proof (Write_undecided lowerTable w (b :: p') Es) as HU.
    specialize (HU ltac:(done)). cbv zeta in HU.
    set (c := absorbed w (b :: p')) in *.
    set (w2 := set_buf (implicitHeader w)
                       (buf (implicitHeader w) ++ take c (b :: p'))) in *.
    assert (Ho2 : orig w2 = orig w) by exact Ho1.
    destruct HU as [HW1|[(HW1 & _)|[(u & _ & _ & HW1)|(_ & _ & HW1)]]];
      rewrite HW1 in HW; [| | |done]; result_of HW r w'.
    + destruct (caps_forwardRest (fallBack w2) (b :: p') c) as [-> ->].
      destruct (caps_fallBack w2) as [-> ->]. by rewrite Ho2.
    + by rewrite Ho2.
    + destruct (caps_writeInjected w2 (b :: p') u c) as [-> ->].
      by rewrite Ho2.
  - rewrite Write_terminal in HW by done. result_of HW r w'.
    destruct (caps_origWrite (flushHeaders (implicitHeader w)) p) as [-> ->].
    destruct (caps_flushHeaders (implicitHeader w)) as [-> ->].
    by rewrite Ho1.
Qed.

Lemma caps_step (w w' : streamWriter) (d : op) :
  step lowerTable w d = Some w' →
  rw_flusher (orig w') = rw_flusher (orig w)
  ∧ rw_hijacker (orig w') = rw_hijacker (orig w).
Proof.
  intros Hstep. destruct d as [k v|k v|k|f|c|p| |]; simpl in Hstep.
  - by injection Hstep as <-.
  - by injection Hstep as <-.
  - by injection Hstep as <-.
  - by injection Hstep as <-.
  - injection Hstep as <-. unfold WriteHeader. by destruct (wroteHeader w).
  - destruct (Write lowerTable w p) as [[r w1]|] eqn:HW; [|done].
    injection Hstep as <-. by apply (caps_Write w w1 p r).
  - injection Hstep as <-. rewrite Flush_finish.
    destruct (rw_flusher (orig (finish w))); [|apply caps_finish].
    apply (caps_finish w).
  - injection Hstep as <-. pose proof (caps_finish w) as Hc.
    destruct (rw_hijacker (orig w)) eqn:E.
    + rewrite Hijack_finish by done. exact Hc.
    + by rewrite Hijack_unsupported.
Qed.

Lemma caps_run (ops : list op) (w w' : streamWriter) :
  run lowerTable w ops = Some w' →
  rw_flusher (orig w') = rw_flusher (orig w)
  ∧ rw_hijacker (orig w') = rw_hijacker (orig w).
Proof.
  revert w. induction ops as [|d ops IH]; intros w Hrun.
  - by injection Hrun as <-.
  - simpl in Hrun. destruct (step lowerTable w d) as [w1|] eqn:E; [|done].
    destruct (caps_step w w1 d E) as [<- <-]. by apply IH.
Qed.

Lemma run_snoc (w w' : streamWriter) (ops : list op) (d : op) :
  run lowerTable w (ops ++ [d]) = Some w' →
  ∃ w1, run lowerTable w ops = Some w1 ∧ step lowerTable w1 d = Some w'.
Proof.
  revert w. induction ops as [|d' ops IH]; intros w H; simpl in *.
  - destruct (step lowerTable w d) as [w1|] eqn:E; [|done].
    injection H as <-. by exists w.
  - destruct (step lowerTable w d'); [by apply IH|done].
Qed.

End Control.

(** X17. The sink's [Flush] or [Hijack] is never called while bytes are
    held back. On a sink that takes every write and implements the
    interface, when the handler flushes or hijacks, the call reaches the
    sink after everything the handler has written so far has been
    delivered (as written, or with the snippet spliced in if the injection
    had already taken place), and the writer is no longer undecided. *)
Theorem control_after_release (lowerTable : Z → Z) (o : ResponseWriter)
    (limit : Z) (src id tgt : string) (also n2 : bool) (ops : list op)
    (d : op) (w : streamWriter) :
  rw_calls o = [] → faultless o →
  (d = OpFlush ∧ rw_flusher o = true)
  ∨ (d = OpHijack ∧ rw_hijacker o = true) →
  run lowerTable (newStreamWriter o limit src id tgt also n2) (ops ++ [d])
  = Some w →
  state w ≠ undecided
  ∧ ∃ before,
      rw_calls (orig w)
      = before ++ [match d with OpFlush => CallFlush | _ => CallHijack end]
      ∧ (delivered before = written ops
         ∨ splicedInto (snippetOf src id) (written ops) (delivered before)).
Proof.
  intros Hcalls Hf Hd Hrun.
  apply run_snoc in Hrun as (w1 & Hrun & Hstep).
  pose proof (streaming_new lowerTable o limit src id tgt also n2 Hcalls Hf)
    as H0.
  pose proof (streaming_run _ _ _ _ _ _ H0 Hrun) as H1. simpl in H1.
  destruct (streaming_finish _ _ _ _ H1) as ((Hc & _ & H) & Hne).
  injection Hc as _ Hsrc Hid _ _ _.
  destruct (caps_run lowerTable ops _ w1 Hrun) as [Hfl Hhj].
  destruct (caps_finish w1) as [Hfl' Hhj']. simpl in Hfl, Hhj.
  assert (Hdel : delivered (rw_calls (orig (finish w1))) = written ops
                 ∨ splicedInto (snippetOf src id) (written ops)
                     (delivered (rw_calls (orig (finish w1))))).
  { destruct (state (finish w1)); [done| |].
    - left. by destruct H.
    - right. destruct H as (_ & H & _). by rewrite Hsrc, Hid in H. }
  destruct Hd as [[-> Hcap]|[-> Hcap]]; simpl in Hstep.
  - injection Hstep as <-. rewrite Flush_finish, Hfl', Hfl, Hcap.
    split; [done|]. by exists (rw_calls (orig (finish w1))).
  - rewrite Hijack_finish in Hstep by (by rewrite Hhj, Hcap).
    injection Hstep as <-.
    split; [done|]. by exists (rw_calls (orig (finish w1))).
Qed.

Lemma control_after_release_witness :
  let body := bytesOf "<html><head>" in
  ∃ w, run noCaseTable (exampleWriter 1024) ([OpWrite body] ++ [OpFlush])
       = Some w
       ∧ state w ≠ undecided
       ∧ ∃ before,
           rw_calls (orig w) = before ++ [CallFlush]
           ∧ (delivered before = body
              ∨ splicedInto (snippetOf "https://a/script.js" "abc") body
                            (delivered before)).
Proof.
  intros body.
  destruct (run noCaseTable (exampleWriter 1024) ([OpWrite body] ++ [OpFlush]))
    as [w|] eqn:E; [|by vm_compute in E].
  exists w. split; [done|].
  exact (control_after_release noCaseTable plainSink 1024
           "https://a/script.js" "abc" "</head>" true false
           [OpWrite body] OpFlush w eq_refl
           (List.Forall_nil _) (or_introl (conj eq_refl eq_refl)) E).
Defined.

(** X18. Whatever the bytes of the buffer, ASCII or not, a successful
    [tryInject] returns the buffer with the snippet spliced in at one
    offset: every byte of the buffer is there, in order and unchanged, the
    result is longer by the length of the snippet, it contains the script
    source, and a second pass over it, with any identifier and targets,
    injects nothing. *)
Theorem tryInject_sound (lowerTable : Z → Z) (prefix out : bytes)
    (src id tgt : string) (also : bool) :
  tryInject lowerTable prefix src id tgt also = Injected out →
  splicedInto (snippetOf src id) prefix out
  ∧ length out = length prefix + length (snippetOf src id)
  ∧ Contains prefix (bytesOf src) = false
  ∧ Contains out (bytesOf src) = true
  ∧ ∀ id' tgt' also',
      tryInject lowerTable out src id' tgt' also' = NotInjected.
Proof.
  intros H.
  pose proof (tryInject_twice lowerTable prefix out src id tgt also src) as H2.
  destruct (tryInject_Injected lowerTable _ _ _ _ _ _ H)
    as (idx & Hle & -> & Hc & _).
  split; [by exists idx|]. split.
  { rewrite !length_app, length_take, length_drop. lia. }
  split; [done|]. split.
  { apply Contains_app, snippetOf_contains. }
  intros id' tgt' also'. by apply H2.
Qed.

Lemma tryInject_sound_witness :
  let prefix := bytesOf "<HTML><Head><title>t</title></Head></HTML>" in
  ∃ out, tryInject noCaseTable prefix "https://a/script.js" "abc" "</head>"
           false = Injected out
         ∧ splicedInto (snippetOf "https://a/script.js" "abc") prefix out
         ∧ tryInject noCaseTable out "https://a/script.js" "abc" "</head>"
             false = NotInjected.
Proof.
  intros prefix.
  destruct (tryInject noCaseTable prefix "https://a/script.js" "abc" "</head>"
              false) as [out| |] eqn:E; [|by vm_compute in E..].
  destruct (tryInject_sound noCaseTable prefix out "https://a/script.js" "abc"
              "</head>" false E) as (Hs & _ & _ & _ & H2).
  exists out. split; [done|]. split; [done|]. apply H2.
Defined.

(** ** The middleware *)

(** The integrity of the stream, for [serve] on any writer configuration:
    shared by the statements on a bare writer and on [ServeHTTP]. *)
Lemma serve_stream (lowerTable : Z → Z) (o : ResponseWriter) (limit : Z)
    (src id tgt : string) (also n2 : bool) (ops : list op) (w : streamWriter) :
  rw_calls o = [] → faultless o →
  serve lowerTable (newStreamWriter o limit src id tgt also n2) ops = Some w →
  websiteID w = id ∧ scriptSrc w = src
  ∧ ((state w = passthrough ∧ delivered (rw_calls (orig w)) = written ops)
     ∨ (state w = injecting
        ∧ splicedInto (snippetOf src id) (written ops)
                      (delivered (rw_calls (orig w))))).
Proof.
  intros Hcalls Hf Hserve. unfold serve in Hserve.
  destruct (run _ _ ops) as [w1|] eqn:Hrun; [|done]. injection Hserve as <-.
  pose proof (streaming_new lowerTable o limit src id tgt also n2 Hcalls Hf)
    as H0.
  pose proof (streaming_run _ _ _ _ _ _ H0 Hrun) as H1. simpl in H1.
  destruct (streaming_finish _ _ _ _ H1) as ((Hc & _ & H) & Hne).
  injection Hc as _ Hsrc Hid _ _ _. split; [done|]. split; [done|].
  destruct (state (finish w1)); [done| |].
  - left. by destruct H.
  - right. destruct H as (_ & H & _). by rewrite Hsrc, Hid in H.
Qed.

Lemma Get_Del_same (h : Header) (k : string) :
  Header.Get (Header.Del h k) k = EmptyString.
Proof. unfold Header.Get, Header.Del. by rewrite lookup_delete_eq. Qed.

Lemma Get_Del_other (h : Header) (k k' : string) :
  textproto.CanonicalMIMEHeaderKey k' ≠ textproto.CanonicalMIMEHeaderKey k →
  Header.Get (Header.Del h k) k' = Header.Get h k'.
Proof.
  intros Hne. unfold Header.Get, Header.Del. by rewrite lookup_delete_ne.
Qed.

(** X19. What a wrapped request comes to. [ServeHTTP] wraps the sink only
    for a GET request that is not an upgrade and for which a website
    identifier is found; the identifier in the snippet is never blank and
    is the trimmed configured identifier if that is not blank, else the
    trimmed value of the request header, else the trimmed default. On a
    sink that takes every write, the client then receives the body the
    wrapped handler wrote, as it is or with that one snippet spliced in. *)
Theorem ServeHTTP_wrapped (lowerTable : Z → Z) (m : Middleware.t)
    (next : Request.t → list op) (rw : ResponseWriter) (req r : Request.t)
    (w : streamWriter) :
  rw_calls rw = [] → faultless rw →
  ServeHTTP lowerTable m next rw req = Wrapped r (Some w) →
  let configured := TrimSpace (Middleware.websiteID m) in
  let requested :=
    TrimSpace (Header.Get (Request.Header req) (Middleware.websiteIDHeader m)) in
  let fallback := TrimSpace (Middleware.defaultWebsiteID m) in
  Request.Method req = "GET"%string
  ∧ isUpgradeRequest lowerTable req = false
  ∧ websiteID w ≠ EmptyString
  ∧ (configured ≠ EmptyString → websiteID w = configured)
  ∧ (configured = EmptyString → requested ≠ EmptyString →
     websiteID w = requested)
  ∧ (configured = EmptyString → requested = EmptyString →
     websiteID w = fallback)
  ∧ ((state w = passthrough
      ∧ delivered (rw_calls (orig w)) = written (next r))
     ∨ (state w = injecting
        ∧ splicedInto (snippetOf (Middleware.scriptSrc m) (websiteID w))
            (written (next r)) (delivered (rw_calls (orig w))))).
Proof.
  intros Hcalls Hf HS configured requested fallback. unfold ServeHTTP in HS.
  destruct (String.eqb (Request.Method req) http_MethodGet) eqn:EM;
    [|done]. simpl in HS.
  destruct (isUpgradeRequest lowerTable req) eqn:EU; [done|].
  cbv zeta in HS. fold configured requested fallback in HS.
  set (id2 := if String.eqb configured EmptyString then requested
              else configured) in *.
  set (id3 := if String.eqb id2 EmptyString then fallback else id2) in *.
  destruct (String.eqb id3 EmptyString) eqn:E3; [done|].
  injection HS as <- HS.
  destruct (serve_stream lowerTable _ _ _ _ _ _ _ _ w Hcalls Hf HS)
    as (Hid & Hsrc & Hres).
  apply String.eqb_eq in EM. apply String.eqb_neq in E3.
  split; [done|]. split; [done|]. rewrite Hid.
  split; [done|]. unfold id3, id2. repeat split.
  - intros Hc%String.eqb_neq. rewrite Hc. by rewrite Hc.
  - intros Hc%String.eqb_eq Hr%String.eqb_neq. rewrite Hc. by rewrite Hr.
  - intros Hc%String.eqb_eq Hr%String.eqb_eq. rewrite Hc. by rewrite Hr.
  - exact Hres.
Qed.

Lemma ServeHTTP_wrapped_witness :
  let m := New CreateConfig in
  let req := Request.mk "GET"
               (Header.Set_ ∅ "x-analytics-website-id" "  site-7 ") in
  let next := λ _ : Request.t,
    [OpHeaderSet "Content-Type" "text/html";
     OpWrite (bytesOf "<html><head></head></html>")] in
  ∃ r w,
    ServeHTTP noCaseTable m next plainSink req = Wrapped r (Some w)
    ∧ websiteID w = "site-7"%string
    ∧ ((state w = passthrough
        ∧ delivered (rw_calls (orig w)) = written (next r))
       ∨ (state w = injecting
          ∧ splicedInto
              (snippetOf "https://analytics.jubnl.ch/script.js" (websiteID w))
              (written (next r)) (delivered (rw_calls (orig w))))).
Proof.
  intros m req next.
  destruct (ServeHTTP noCaseTable m next plainSink req) as [r|r [w|]] eqn:E;
    [by vm_compute in E| |by vm_compute in E].
  destruct (ServeHTTP_wrapped noCaseTable m next plainSink req r w eq_refl
              (List.Forall_nil _) E) as (_ & _ & _ & _ & Hid & _ & Hres).
  exists r, w. split; [done|]. split; [|exact Hres].
  rewrite Hid; by vm_compute.
Defined.

(** X20. The request the wrapped handler receives is the client's, less
    the entry of its header map under [Accept-Encoding] when the middleware
    strips it: the method is the same, that entry is gone, and every other
    entry of the map is there with its whole list of values. Without the
    flag the request is forwarded as it is. *)
Theorem ServeHTTP_forwards (lowerTable : Z → Z) (m : Middleware.t)
    (next : Request.t → list op) (rw : ResponseWriter) (req r : Request.t)
    (res : option streamWriter) :
  ServeHTTP lowerTable m next rw req = Wrapped r res →
  Request.Method r = Request.Method req
  ∧ (Middleware.stripAcceptEncoding m = false → r = req)
  ∧ (Middleware.stripAcceptEncoding m = true →
     Request.Header r !! "Accept-Encoding"%string = None
     ∧ ∀ k, k ≠ "Accept-Encoding"%string →
            Request.Header r !! k = Request.Header req !! k).
Proof.
  intros HS. unfold ServeHTTP in HS.
  destruct (negb _); [done|].
  destruct (isUpgradeRequest lowerTable req); [done|]. cbv zeta in HS.
  destruct (String.eqb _ EmptyString) in HS; [done|].
  injection HS as <- _.
  destruct (Middleware.stripAcceptEncoding m); simpl.
  - split; [done|]. split; [done|]. intros _. unfold Header.Del.
    change (textproto.CanonicalMIMEHeaderKey "Accept-Encoding")
      with "Accept-Encoding"%string.
    split; [apply lookup_delete_eq|].
    intros k Hk. by apply lookup_delete_ne.
  - split; [done|]. split; [done|]. done.
Qed.

Lemma ServeHTTP_forwards_witness :
  let h := Header.Add (Header.Add (Header.Set_ ∅ "accept-encoding" "gzip, br")
                         "Accept" "text/html")
                      "Accept" "application/xhtml+xml" in
  let req := Request.mk "GET" h in
  ∃ r res,
    ServeHTTP noCaseTable (New CreateConfig) (λ _, []) plainSink req
    = Wrapped r res
    ∧ Request.Header req !! "Accept-Encoding"%string
      = Some ["gzip, br"%string]
    ∧ Request.Header r !! "Accept-Encoding"%string = None
    ∧ Request.Header r !! "Accept"%string
      = Some ["text/html"%string; "application/xhtml+xml"%string].
Proof.
  intros h req.
  destruct (ServeHTTP noCaseTable (New CreateConfig) (λ _, []) plainSink req)
    as [r|r res] eqn:E; [by vm_compute in E|].
  destruct (ServeHTTP_forwards noCaseTable (New CreateConfig) (λ _, [])
              plainSink req r res E) as (_ & _ & H).
  destruct (H eq_refl) as [H1 H2].
  exists r, res. split; [done|]. split; [by vm_compute|]. split; [done|].
  rewrite H2 by done. by vm_compute.
Defined.

(** X21. Requests that are handed on untouched. A request whose method is
    not GET, an upgrade request (an [Upgrade] header, and a [Connection]
    header naming [upgrade] in any casing), and a request for which the
    configured identifier, the request header and the default are all
    blank, go to the wrapped handler with the sink itself and the request
    unchanged. *)
Theorem ServeHTTP_direct (lowerTable : Z → Z) (m : Middleware.t)
    (next : Request.t → list op) (rw : ResponseWriter) (req : Request.t) :
  let conn := bytesOf (Header.Get (Request.Header req) "Connection") in
  Request.Method req ≠ "GET"%string
  ∨ (Header.Get (Request.Header req) "Upgrade" ≠ EmptyString
     ∧ forallb isASCII conn = true
     ∧ ∃ l r, map lowerASCII conn = l ++ bytesOf "upgrade" ++ r)
  ∨ (TrimSpace (Middleware.websiteID m) = EmptyString
     ∧ TrimSpace (Header.Get (Request.Header req)
                             (Middleware.websiteIDHeader m)) = EmptyString
     ∧ TrimSpace (Middleware.defaultWebsiteID m) = EmptyString) →
  ServeHTTP lowerTable m next rw req = Direct req.
Proof.
  intros conn H. unfold ServeHTTP.
  destruct (String.eqb (Request.Method req) http_MethodGet) eqn:EM; [|done].
  simpl. destruct (isUpgradeRequest lowerTable req) eqn:EU; [done|].
  destruct H as [H|[(Hu & Ha & l & r & Hc)|(H1 & H2 & H3)]].
  - by apply String.eqb_eq in EM.
  - exfalso. unfold isUpgradeRequest in EU. cbv zeta in EU.
    apply String.eqb_neq in Hu. rewrite Hu in EU. fold conn in EU.
    rewrite ToLower_ascii, Hc in EU by done.
    assert (Contains (l ++ bytesOf "upgrade" ++ r) (bytesOf "upgrade") = true)
      as Hin by (apply Contains_true; by exists l, r).
    by rewrite Hin in EU.
  - cbv zeta. by rewrite H1, H2, H3.
Qed.

Lemma ServeHTTP_direct_witness :
  let h := Header.Set_ (Header.Set_ ∅ "Upgrade" "websocket")
                       "Connection" "keep-alive, Upgrade" in
  let req := Request.mk "GET" h in
  ServeHTTP noCaseTable (New CreateConfig) (λ _, []) plainSink req
  = Direct req.
Proof.
  intros h req.
  apply (ServeHTTP_direct noCaseTable (New CreateConfig) (λ _, []) plainSink
           req).
  right; left. split; [by vm_compute|]. split; [by vm_compute|].
  exists (bytesOf "keep-alive, "), []. by vm_compute.
Defined.

(** X22. The default configuration. The middleware [New] builds from
    [CreateConfig] wraps every GET request that is not an upgrade: it takes
    the website identifier from the request header
    [X-Analytics-Website-Id], trimmed, and the default identifier when that
    is blank; it strips [Accept-Encoding], looks ahead 32 KiB, and injects
    before [</head>], else before [</body>], on 2xx responses only. *)
Theorem default_middleware (lowerTable : Z → Z) (next : Request.t → list op)
    (rw : ResponseWriter) (req : Request.t) :
  Request.Method req = "GET"%string →
  isUpgradeRequest lowerTable req = false →
  let requested :=
    TrimSpace (Header.Get (Request.Header req) "X-Analytics-Website-Id") in
  let id := if String.eqb requested EmptyString
            then "c1df940e-066c-40df-a48a-fb0c92eac0a3"%string
            else requested in
  let r := Request.mk (Request.Method req)
             (Header.Del (Request.Header req) "Accept-Encoding") in
  ServeHTTP lowerTable (New CreateConfig) next rw req
  = Wrapped r
      (serve lowerTable
         (newStreamWriter rw 32768 "https://analytics.jubnl.ch/script.js" id
            "</head>" true false)
         (next r)).
Proof.
  intros HM HU requested id r. unfold ServeHTTP. rewrite HU.
  replace (String.eqb (Request.Method req) http_MethodGet) with true
    by (symmetry; by apply String.eqb_eq).
  change (Middleware.websiteID (New CreateConfig)) with EmptyString.
  change (Middleware.websiteIDHeader (New CreateConfig))
    with "X-Analytics-Website-Id"%string.
  change (TrimSpace EmptyString) with EmptyString.
  cbv zeta. fold requested.
  change (String.eqb EmptyString EmptyString) with true. cbv iota.
  assert (Hd : TrimSpace (Middleware.defaultWebsiteID (New CreateConfig))
               = "c1df940e-066c-40df-a48a-fb0c92eac0a3"%string)
    by (by vm_compute).
  rewrite Hd. fold id.
  assert (Hid : String.eqb id EmptyString = false).
  { unfold id. destruct (String.eqb requested EmptyString) eqn:E; [done|].
    exact E. }
  rewrite Hid. reflexivity.
Qed.

Lemma default_middleware_witness :
  let req := Request.mk "GET" (Header.Set_ ∅ "Accept-Encoding" "gzip") in
  let next := λ _ : Request.t, [OpWrite (bytesOf "<html></html>")] in
  let r := Request.mk "GET"
             (Header.Del (Request.Header req) "Accept-Encoding") in
  ServeHTTP noCaseTable (New CreateConfig) next plainSink req
  = Wrapped r
      (serve noCaseTable
         (newStreamWriter plainSink 32768
            "https://analytics.jubnl.ch/script.js"
            "c1df940e-066c-40df-a48a-fb0c92eac0a3" "</head>" true false)
         (next r)).
Proof.
  intros req next r.
  exact (default_middleware noCaseTable next plainSink req eq_refl eq_refl).
Defined.

(** ** The status the client receives *)

Lemma implicitHeader_declared (w : streamWriter) :
  wroteHeader w = true → implicitHeader w = w.
Proof. unfold implicitHeader. by intros ->. Qed.

Section Status.

Variable lowerTable : Z → Z.

(** The log of the sink only grows. *)
Lemma calls_Write (w w' : streamWriter) (p : bytes) (r : Z * option error) :
  Write lowerTable w p = Some (r, w') →
  ∃ more, rw_calls (orig w') = rw_calls (orig w) ++ more.
Proof.
  intros HW.
  destruct (implicitHeader_same w) as (Hs1 & Hh1 & Hb1 & Hc1 & Ho1 & HF1).
  assert (Hdec : state w = undecided ∨ state w ≠ undecided)
    by (destruct (state w); auto).
  destruct Hdec as [Es|Hne].
  - destruct p as [|b p'].
    { rewrite Write_empty in HW by done. result_of HW r w'.
      exists []. by rewrite Ho1, app_nil_r. }
    pose proof (Write_undecided lowerTable w (b :: p') Es) as HU.
    specialize (HU ltac:(done)). cbv zeta in HU.
    set (c := absorbed w (b :: p')) in *.
    set (w2 := set_buf (implicitHeader w)
                       (buf (implicitHeader w) ++ take c (b :: p'))) in *.
    assert (Ho2 : orig w2 = orig w) by exact Ho1.
    destruct HU as [HW1|[(HW1 & _)|[(u & _ & _ & HW1)|(_ & _ & HW1)]]];
      rewrite HW1 in HW; [| | |done]; result_of HW r w'.
    + destruct (forwardRest_spec (fallBack w2) (b :: p') c) as (_ & C & _).
      destruct (calls_fallBack w2) as [m C2].
      rewrite C, C2, Ho2, <- app_assoc. by eexists.
    + exists []. by rewrite Ho2, app_nil_r.
    + unfold writeInjected.
      set (w3 := prepareHeadersForInjection (set_state w2 injecting)).
      destruct (calls_flushHeaders w3) as [m1 C1].
      change (orig w3) with (orig w2) in C1. rewrite Ho2 in C1.
      destruct (origWrite_spec (flushHeaders w3) u) as (_ & C3 & _).
      destruct (origWrite (flushHeaders w3) u) as [[n3 e3] w4].
      simpl in C3. rewrite C1, <- app_assoc in C3.
      destruct e3 as [e3|]; [simpl; rewrite C3; by eexists|].
      destruct (c <? length (b :: p')); [|simpl; rewrite C3; by eexists].
      destruct (origWrite_spec w4 (drop c (b :: p'))) as (_ & C4 & _).
      destruct (origWrite w4 (drop c (b :: p'))) as [[n4 e4] w5].
      simpl in C4. rewrite C3, <- app_assoc in C4.
      destruct e4; simpl; rewrite C4; by eexists.
  - rewrite Write_terminal in HW by done. result_of HW r w'.
    destruct (origWrite_spec (flushHeaders (implicitHeader w)) p)
      as (_ & C & _).
    destruct (calls_flushHeaders (implicitHeader w)) as [m C1].
    rewrite C, C1, Ho1, <- app_assoc. by eexists.
Qed.

Lemma calls_finish (w : streamWriter) :
  ∃ more, rw_calls (orig (finish w)) = rw_calls (orig w) ++ more.
Proof.
  unfold finish. destruct (state w); [apply calls_fallBack| |];
    exists []; by rewrite app_nil_r.
Qed.

Lemma calls_step (w w' : streamWriter) (d : op) :
  step lowerTable w d = Some w' →
  ∃ more, rw_calls (orig w') = rw_calls (orig w) ++ more.
Proof.
  intros Hstep. destruct d as [k v|k v|k|f|c|p| |]; simpl in Hstep.
  - injection Hstep as <-. exists []. by rewrite app_nil_r.
  - injection Hstep as <-. exists []. by rewrite app_nil_r.
  - injection Hstep as <-. exists []. by rewrite app_nil_r.
  - injection Hstep as <-. exists []. by rewrite app_nil_r.
  - injection Hstep as <-. exists []. rewrite app_nil_r.
    unfold WriteHeader. by destruct (wroteHeader w).
  - destruct (Write lowerTable w p) as [[r w1]|] eqn:HW; [|done].
    injection Hstep as <-. by apply (calls_Write w w1 p r).
  - injection Hstep as <-. rewrite Flush_finish.
    destruct (calls_finish w) as [m C].
    destruct (rw_flusher _); [|by eexists].
    simpl. rewrite C, <- app_assoc. by eexists.
  - injection Hstep as <-. destruct (rw_hijacker (orig w)) eqn:E.
    + rewrite Hijack_finish by done. simpl.
      destruct (calls_finish w) as [m C]. rewrite C, <- app_assoc.
      by eexists.
    + rewrite Hijack_unsupported by done. exists []. by rewrite app_nil_r.
Qed.

(** Where a response stands once a status [c] is declared: an undecided
    writer holds it and has called nothing; after the decision the log
    starts with the [WriteHeader] that carries it. *)
Lemma declared_step (c : Z) (w w' : streamWriter) (d : op) :
  (state w = undecided →
   wroteHeader w = true ∧ status w = c ∧ headersFlushed w = false
   ∧ rw_calls (orig w) = []) →
  (state w ≠ undecided →
   ∃ h rest, rw_calls (orig w) = CallWriteHeader h c :: rest) →
  step lowerTable w d = Some w' →
  (state w' = undecided →
   wroteHeader w' = true ∧ status w' = c ∧ headersFlushed w' = false
   ∧ rw_calls (orig w') = [])
  ∧ (state w' ≠ undecided →
     ∃ h rest, rw_calls (orig w') = CallWriteHeader h c :: rest).
Proof.
  intros HU HD Hstep.
  assert (Hdec : state w = undecided ∨ state w ≠ undecided)
    by (destruct (state w); auto).
  destruct Hdec as [Es|Hne].
  2:{ destruct (step_decided lowerTable w d Hne) as (w1 & E1 & Es1).
      rewrite E1 in Hstep. injection Hstep as <-.
      destruct (calls_step w w1 d E1) as [m C].
      destruct (HD Hne) as (h & rest & C0).
      split; [intros E; by rewrite Es1 in E|]. intros _.
      rewrite C, C0. by eexists _, _. }
  destruct (HU Es) as (Hw & Hst & HF & Hcalls). clear HU HD.
  assert (Hfin : ∃ h rest, rw_calls (orig (finish w))
                           = CallWriteHeader h c :: rest).
  { rewrite finish_fallBack by done.
    destruct (fallBack_spec w HF) as (C & _). rewrite C, Hcalls, Hst.
    by eexists _, _. }
  destruct d as [k v|k v|k|f|c'|p| |]; simpl in Hstep.
  - injection Hstep as <-. split; [done|]. intros H. by destruct H.
  - injection Hstep as <-. split; [done|]. intros H. by destruct H.
  - injection Hstep as <-. split; [done|]. intros H. by destruct H.
  - injection Hstep as <-. split; [done|]. intros H. by destruct H.
  - injection Hstep as <-. unfold WriteHeader. rewrite Hw.
    split; [done|]. intros H. by destruct H.
  - destruct (Write lowerTable w p) as [[r w1]|] eqn:HW; [|done].
    injection Hstep as <-.
    pose proof (implicitHeader_declared w Hw) as Hi.
    destruct p as [|b p'].
    { rewrite Write_empty in HW by done. result_of HW r w1. rewrite Hi.
      split; [done|]. intros H. by destruct H. }
    pose proof (Write_undecided lowerTable w (b :: p') Es) as HU.
    specialize (HU ltac:(done)). cbv zeta in HU. rewrite Hi in HU.
    set (k := absorbed w (b :: p')) in *.
    set (w2 := set_buf w (buf w ++ take k (b :: p'))) in *.
    assert (HF2 : headersFlushed w2 = false) by exact HF.
    destruct HU as [HW1|[(HW1 & _)|[(u & _ & _ & HW1)|(_ & _ & HW1)]]];
      rewrite HW1 in HW; [| | |done]; result_of HW r w1.
    + split; [by rewrite state_forwardRest, state_fallBack|]. intros _.
      destruct (forwardRest_spec (fallBack w2) (b :: p') k) as (_ & C & _).
      destruct (fallBack_spec w2 HF2) as (C2 & _).
      change (orig w2) with (orig w) in C2.
      change (status w2) with (status w) in C2.
      rewrite C, C2, Hcalls, Hst. by eexists _, _.
    + split; [done|]. intros H. by destruct H.
    + split; [by rewrite state_writeInjected|]. intros _.
      destruct (writeInjected_calls w2 (b :: p') u k HF2) as (rest & C & _).
      change (orig w2) with (orig w) in C.
      change (status w2) with (status w) in C.
      rewrite C, Hcalls, Hst. by eexists _, _.
  - injection Hstep as <-. rewrite Flush_finish.
    destruct Hfin as (h & rest & C).
    assert (Hne : state (finish w) ≠ undecided)
      by (rewrite finish_fallBack, state_fallBack; done).
    destruct (rw_flusher _).
    + split; [intros E; by destruct Hne|]. intros _. simpl. rewrite C.
      by eexists _, _.
    + split; [intros E; by destruct Hne|]. intros _. by eexists _, _.
  - destruct (rw_hijacker (orig w)) eqn:E.
    + rewrite Hijack_finish in Hstep by done. injection Hstep as <-.
      destruct Hfin as (h & rest & C).
      assert (Hne : state (finish w) ≠ undecided)
        by (rewrite finish_fallBack, state_fallBack; done).
      split; [intros E'; by destruct Hne|]. intros _. simpl. rewrite C.
      by eexists _, _.
    + rewrite Hijack_unsupported in Hstep by done. injection Hstep as <-.
      split; [done|]. intros H. by destruct H.
Qed.

End Status.

Lemma declared_run (lowerTable : Z → Z) (c : Z) (ops : list op)
    (w w' : streamWriter) :
  (state w = undecided →
   wroteHeader w = true ∧ status w = c ∧ headersFlushed w = false
   ∧ rw_calls (orig w) = []) →
  (state w ≠ undecided →
   ∃ h rest, rw_calls (orig w) = CallWriteHeader h c :: rest) →
  run lowerTable w ops = Some w' →
  ∃ h rest, rw_calls (orig (finish w')) = CallWriteHeader h c :: rest.
Proof.
  revert w. induction ops as [|d ops IH]; intros w HU HD Hrun.
  - injection Hrun as <-.
    assert (Hdec : state w = undecided ∨ state w ≠ undecided)
      by (destruct (state w); auto).
    destruct Hdec as [Es|Hne].
    + destruct (HU Es) as (_ & Hst & HF & Hcalls).
      rewrite finish_fallBack by done.
      destruct (fallBack_spec w HF) as (C & _). rewrite C, Hcalls, Hst.
      by eexists _, _.
    + rewrite finish_terminal by done. by apply HD.
  - simpl in Hrun. destruct (step lowerTable w d) as [w1|] eqn:E; [|done].
    destruct (declared_step lowerTable c w w1 d HU HD E) as [HU1 HD1].
    by apply (IH w1).
Qed.

Lemma header_ops_run (lowerTable : Z → Z) (hops : list op)
    (w : streamWriter) :
  Forall (λ o, isHeaderOp o = true) hops →
  ∃ w', run lowerTable w hops = Some w'
        ∧ state w' = state w ∧ wroteHeader w' = wroteHeader w
        ∧ status w' = status w ∧ headersFlushed w' = headersFlushed w
        ∧ orig w' = orig w.
Proof.
  revert w. induction hops as [|d hops IH]; intros w H; [by eexists|].
  apply Forall_cons in H as [Hd H].
  destruct d as [k v|k v|k|f|c|p| |]; try discriminate Hd; simpl;
    match goal with
    | |- context [run _ ?w1 hops] =>
      destruct (IH w1 H) as (w' & -> & ?); by exists w'
    end.
Qed.

(** X23. The status the client receives is the first the handler
    declared. After any number of header changes, the first [WriteHeader],
    [Write] or [Flush] commits the response to a status (its argument for
    [WriteHeader], 200 for the other two); whatever the handler does next,
    later calls of [WriteHeader] included, and whatever the sink answers,
    the one [WriteHeader] of the sink carries that status. *)
Theorem status_first_declared (lowerTable : Z → Z) (o : ResponseWriter)
    (limit : Z) (src id tgt : string) (also n2 : bool) (hops rest : list op)
    (d : op) (c : Z) (w : streamWriter) :
  rw_calls o = [] →
  Forall (λ o, isHeaderOp o = true) hops →
  declares d = Some c →
  serve lowerTable (newStreamWriter o limit src id tgt also n2)
    (hops ++ d :: rest) = Some w →
  ∃ h more, rw_calls (orig w) = CallWriteHeader h c :: more.
Proof.
  intros Hcalls Hhops Hd Hserve.
  destruct (header_ops_run lowerTable hops
              (newStreamWriter o limit src id tgt also n2) Hhops)
    as (w0 & Hrun0 & Es & Hw & Hst & HF & Ho).
  simpl in Es, Hw, Hst, HF, Ho.
  unfold serve in Hserve.
  rewrite (run_app _ _ _ _ _ Hrun0) in Hserve. simpl in Hserve.
  destruct (step lowerTable w0 d) as [w1|] eqn:E1; [|done].
  destruct (run lowerTable w1 rest) as [w2|] eqn:E2; [|done].
  injection Hserve as <-.
  assert (Hcalls0 : rw_calls (orig w0) = []) by (by rewrite Ho).
  refine (declared_run lowerTable c rest w1 w2 _ _ E2).
  - (* the writer is still undecided after [d] *)
    destruct d as [k v|k v|k|f|c'|p| |]; try discriminate Hd; simpl in E1.
    + injection Hd as ->. injection E1 as <-. unfold WriteHeader.
      rewrite Hw. done.
    + injection Hd as <-.
      destruct (Write lowerTable w0 p) as [[r w1']|] eqn:HW; [|done].
      injection E1 as <-. rewrite Write_implicitHeader in HW.
      assert (E : step lowerTable (implicitHeader w0) (OpWrite p) = Some w1')
        by (simpl; by rewrite HW).
      refine (proj1 (declared_step lowerTable http_StatusOK
                       (implicitHeader w0) w1' (OpWrite p) _ _ E)).
      * intros _. unfold implicitHeader, WriteHeader. rewrite Hw. done.
      * intros H. destruct H. by rewrite state_implicitHeader.
    + injection E1 as <-. intros H. exfalso. revert H.
      rewrite Flush_finish, finish_fallBack by done.
      destruct (rw_flusher _); simpl; by rewrite state_fallBack.
  - (* the decision was taken by [d] *)
    destruct d as [k v|k v|k|f|c'|p| |]; try discriminate Hd; simpl in E1.
    + injection E1 as <-. intros H. destruct H. unfold WriteHeader.
      by rewrite Hw.
    + injection Hd as <-.
      destruct (Write lowerTable w0 p) as [[r w1']|] eqn:HW; [|done].
      injection E1 as <-. rewrite Write_implicitHeader in HW.
      assert (E : step lowerTable (implicitHeader w0) (OpWrite p) = Some w1')
        by (simpl; by rewrite HW).
      refine (proj2 (declared_step lowerTable http_StatusOK
                       (implicitHeader w0) w1' (OpWrite p) _ _ E)).
      * intros _. unfold implicitHeader, WriteHeader. rewrite Hw. done.
      * intros H. destruct H. by rewrite state_implicitHeader.
    + injection Hd as <-. injection E1 as <-. intros _.
      rewrite Flush_finish, finish_fallBack by done.
      destruct (fallBack_spec w0 HF) as (C & _).
      rewrite Hcalls0, Hst in C.
      destruct (rw_flusher _); simpl; rewrite C; by eexists _, _.
Qed.

Lemma status_first_declared_witness :
  ∃ w h more,
    serve noCaseTable (exampleWriter 1024)
      ([OpHeaderSet "Content-Type" "text/html"]
       ++ OpWriteHeader 404
       :: [OpWrite (bytesOf "<html><head></head>"); OpWriteHeader 500])
    = Some w
    ∧ rw_calls (orig w) = CallWriteHeader h 404 :: more.
Proof.
  destruct (serve noCaseTable (exampleWriter 1024)
      ([OpHeaderSet "Content-Type" "text/html"]
       ++ OpWriteHeader 404
       :: [OpWrite (bytesOf "<html><head></head>"); OpWriteHeader 500]))
    as [w|] eqn:E; [|by vm_compute in E].
  destruct (status_first_declared noCaseTable plainSink 1024
              "https://a/script.js" "abc" "</head>" true false
              [OpHeaderSet "Content-Type" "text/html"]
              [OpWrite (bytesOf "<html><head></head>"); OpWriteHeader 500]
              (OpWriteHeader 404) 404 w eq_refl) as (h & more & C).
  - by repeat constructor.
  - done.
  - exact E.
  - by exists w, h, more.
Defined.

(** ** Responses the classifier rejects *)

Section Rejected.

Variable lowerTable : Z → Z.

Lemma Write_candidateNo (w : streamWriter) (p : bytes) :
  state w = undecided → p ≠ [] →
  (∀ sample, htmlCandidateFromHeadersAndSniff lowerTable
               (implicitHeader w) sample = candidateNo) →
  ∃ r w', Write lowerTable w p = Some (r, w') ∧ state w' = passthrough.
Proof.
  intros Es Hp Hno.
  assert (Hlen : (length p =? 0) = false)
    by (apply Nat.eqb_neq; by destruct p).
  unfold Write. rewrite state_implicitHeader, Es, Hlen.
  set (w1 := implicitHeader w) in *.
  destruct (negb (String.eqb _ _)).
  { destruct (origWrite (fallBack w1) p) as [r w'] eqn:E.
    exists r, w'. split; [done|]. change w' with (r, w').2.
    by rewrite <- E, state_origWrite, state_fallBack. }
  destruct (_ <=? 0)%Z.
  { destruct (origWrite (fallBack w1) p) as [r w'] eqn:E.
    exists r, w'. split; [done|]. change w' with (r, w').2.
    by rewrite <- E, state_origWrite, state_fallBack. }
  cbv zeta.
  set (c := if (Z.of_nat (length p) <=? _)%Z then _ else _).
  set (w2 := set_buf w1 (buf w1 ++ take c p)).
  assert (Hc : htmlCandidateFromHeadersAndSniff lowerTable w2 (buf w2)
               = candidateNo) by apply (Hno (buf w2)).
  rewrite Hc.
  destruct (forwardRest (fallBack w2) p c) as [r w'] eqn:E.
  exists r, w'. split; [done|]. change w' with (r, w').2.
  by rewrite <- E, state_forwardRest, state_fallBack.
Qed.

End Rejected.

(** X24. Responses that are not HTML pages pass unchanged. If, when the
    handler writes a chunk that is not empty to an undecided writer, the
    status is outside the accepted class (2xx, or 2xx to 5xx when
    [injectOnNon2xx] is set), or the declared content type is not blank and
    names neither [text/html] nor [application/xhtml+xml], the response is
    resolved to passthrough whatever its body: on a sink that takes every
    write it runs to its end and the sink receives the bytes written,
    unchanged. *)
Theorem rejected_response_untouched (lowerTable : Z → Z) (o : ResponseWriter)
    (limit : Z) (src id tgt : string) (also n2 : bool) (ops1 ops2 : list op)
    (w1 : streamWriter) (p : bytes) :
  rw_calls o = [] → faultless o →
  run lowerTable (newStreamWriter o limit src id tgt also n2) ops1 = Some w1 →
  state w1 = undecided → p ≠ [] →
  let ct := ToLower lowerTable
              (bytesOf (Header.Get (header w1) "Content-Type")) in
  ¬ acceptedStatus (implicitHeader w1)
  ∨ (Contains ct (bytesOf "text/html") = false
     ∧ Contains ct (bytesOf "application/xhtml+xml") = false
     ∧ TrimSpace_isEmpty ct = false) →
  ∃ w, serve lowerTable (newStreamWriter o limit src id tgt also n2)
         (ops1 ++ OpWrite p :: ops2) = Some w
       ∧ state w = passthrough
       ∧ delivered (rw_calls (orig w)) = written (ops1 ++ OpWrite p :: ops2).
Proof.
  intros Hcalls Hf Hrun Es Hp ct Hrej.
  destruct (Write_candidateNo lowerTable w1 p Es Hp) as (r & w2 & HW & Hs2).
  { intros sample. unfold htmlCandidateFromHeadersAndSniff.
    destruct (isStatusEligible (implicitHeader w1)) eqn:E; [|done].
    cbn [negb].
    destruct Hrej as [Hst|(H1 & H2 & H3)].
    - by apply isStatusEligible_accepted in E.
    - destruct (implicitHeader_same w1) as (_ & Hh & _). cbv zeta.
      rewrite Hh. fold ct. by rewrite H1, H2, H3. }
  apply (passthrough_response lowerTable o limit src id tgt also n2 ops1 ops2
           (OpWrite p) w1 w2 Hcalls Hf Hrun); [|done].
  simpl. by rewrite HW.
Qed.

Lemma rejected_response_untouched_witness :
  let ops1 := [OpHeaderSet "Content-Type" "application/json";
               OpWriteHeader 200] in
  let p := bytesOf "{ <html><head></head> }" in
  ∃ w, serve noCaseTable (exampleWriter 1024) (ops1 ++ [OpWrite p]) = Some w
       ∧ state w = passthrough
       ∧ delivered (rw_calls (orig w)) = p.
Proof.
  intros ops1 p.
  destruct (run noCaseTable (exampleWriter 1024) ops1) as [w1|] eqn:E1;
    [|by vm_compute in E1].
  assert (H1 : state w1 = undecided
               ∧ Header.Get (header w1) "Content-Type"
                 = "application/json"%string).
  { vm_compute in E1. injection E1 as <-. by vm_compute. }
  destruct H1 as [Hs Hct].
  apply (rejected_response_untouched noCaseTable plainSink 1024
           "https://a/script.js" "abc" "</head>" true false ops1 [] w1 p
           eq_refl (List.Forall_nil _) E1 Hs); [done|].
  right. rewrite Hct. by vm_compute.
Defined.

(** ** An HTML page *)

Section Page.

Variable lowerTable : Z → Z.

Lemma step_decided_delivered (w w' : streamWriter) (d : op) :
  faultless (orig w) → state w ≠ undecided → headersFlushed w = true →
  step lowerTable w d = Some w' →
  faultless (orig w') ∧ state w' = state w ∧ headersFlushed w' = true
  ∧ delivered (rw_calls (orig w'))
    = delivered (rw_calls (orig w)) ++ chunk d.
Proof.
  intros Hf Hne HF Hstep.
  assert (Hrec : ∀ c, c = CallFlush ∨ c = CallHijack →
            delivered (rw_calls (orig w) ++ [c])
            = delivered (rw_calls (orig w)) ++ []).
  { intros c Hc. rewrite delivered_app. by destruct Hc as [-> | ->]. }
  destruct d as [k v|k v|k|f|c|p| |]; simpl in Hstep; simpl chunk.
  - injection Hstep as <-. by rewrite app_nil_r.
  - injection Hstep as <-. by rewrite app_nil_r.
  - injection Hstep as <-. by rewrite app_nil_r.
  - injection Hstep as <-. by rewrite app_nil_r.
  - injection Hstep as <-. rewrite app_nil_r. unfold WriteHeader.
    by destruct (wroteHeader w).
  - rewrite Write_terminal in Hstep by done. injection Hstep as <-.
    destruct (implicitHeader_same w) as (Hs1 & _ & _ & _ & Ho1 & HF1).
    rewrite flushHeaders_flushed by (by rewrite HF1).
    destruct (origWrite_faultless (implicitHeader w) p) as (_ & Hf' & D & _);
      [by rewrite Ho1|].
    rewrite Ho1 in D.
    by rewrite state_origWrite, headersFlushed_origWrite, Hs1, HF1.
  - injection Hstep as <-. rewrite Flush_finish, finish_terminal by done.
    destruct (rw_flusher (orig w)); [|by rewrite app_nil_r].
    simpl. by rewrite (Hrec CallFlush) by auto.
  - injection Hstep as <-. destruct (rw_hijacker (orig w)) eqn:E.
    + rewrite Hijack_finish, finish_terminal by done. simpl.
      by rewrite (Hrec CallHijack) by auto.
    + rewrite Hijack_unsupported by done. by rewrite app_nil_r.
Qed.

Lemma run_decided_delivered (ops : list op) (w w' : streamWriter) :
  faultless (orig w) → state w ≠ undecided → headersFlushed w = true →
  run lowerTable w ops = Some w' →
  state w' = state w
  ∧ delivered (rw_calls (orig w'))
    = delivered (rw_calls (orig w)) ++ written ops.
Proof.
  revert w. induction ops as [|d ops IH]; intros w Hf Hne HF Hrun.
  - injection Hrun as <-. by rewrite app_nil_r.
  - simpl in Hrun. destruct (step lowerTable w d) as [w1|] eqn:E; [|done].
    destruct (step_decided_delivered w w1 d Hf Hne HF E)
      as (Hf1 & Hs1 & HF1 & D1).
    destruct (IH w1 Hf1) as [Hs2 D2]; [by rewrite Hs1|done|done|].
    split; [congruence|].
    by rewrite D2, D1, written_cons, app_assoc.
Qed.

(** The path of [Write] that injects. *)
Lemma Write_injects (w : streamWriter) (p u : bytes) :
  implicitHeader w = w → state w = undecided → p ≠ [] →
  Header.Get (header w) "Content-Encoding" = EmptyString →
  (Z.of_nat (length (buf w) + length p) ≤ lookaheadLimit w)%Z →
  let w2 := set_buf w (buf w ++ p) in
  htmlCandidateFromHeadersAndSniff lowerTable w2 (buf w2) = candidateYes →
  Contains (buf w2) (bytesOf (scriptSrc w)) = false →
  tryInject lowerTable (buf w2) (scriptSrc w) (websiteID w) (injectBefore w)
    (alsoMatchBodyClose w) = Injected u →
  Write lowerTable w p = Some (writeInjected w2 p u (length p)).
Proof.
  intros Hi Es Hp Hce Hlim w2 Hcand Hc Htry.
  assert (Hlen : (length p =? 0) = false)
    by (apply Nat.eqb_neq; by destruct p).
  assert (Hpos : 0 < length p) by (destruct p; [done|simpl; lia]).
  unfold Write. rewrite Hi, Es, Hlen, Hce. cbn [String.eqb negb].
  replace (lookaheadLimit w - Z.of_nat (length (buf w)) <=? 0)%Z with false
    by (symmetry; apply Z.leb_gt; lia).
  replace (Z.of_nat (length p)
           <=? lookaheadLimit w - Z.of_nat (length (buf w)))%Z with true
    by (symmetry; apply Z.leb_le; lia).
  cbv zeta. rewrite firstn_all. fold w2.
  change (scriptSrc w2) with (scriptSrc w).
  change (websiteID w2) with (websiteID w).
  change (injectBefore w2) with (injectBefore w).
  change (alsoMatchBodyClose w2) with (alsoMatchBodyClose w).
  by rewrite Hcand, Hc, Htry.
Qed.

(** On ASCII, [tryInject] splices at the first occurrence of the target. *)
Lemma tryInject_ascii_first (prefix : bytes) (src id tgt : string)
    (also : bool) (i : nat) :
  forallb isASCII prefix = true → prefix ≠ [] →
  Contains prefix (bytesOf src) = false →
  firstOccurrence (map lowerASCII prefix)
    (ToLower lowerTable (bytesOf tgt)) i →
  tryInject lowerTable prefix src id tgt also
  = Injected (take i prefix ++ snippetOf src id ++ drop i prefix).
Proof.
  intros Ha Hne Hc Hi%Index_firstOccurrence. unfold tryInject.
  replace (length prefix =? 0) with false
    by (symmetry; apply Nat.eqb_neq; by destruct prefix).
  rewrite Hc, ToLower_ascii, Hi by done. unfold spliceAt.
  apply Index_le in Hi. rewrite length_map in Hi.
  replace (length prefix <? i) with false
    by (symmetry; apply Nat.ltb_ge; lia).
  done.
Qed.

End Page.

(** X25. An HTML page gets its snippet before the target. When the
    handler has declared an accepted status and an HTML content type, no
    content encoding, and writes as its first chunk an ASCII page that fits
    the look-ahead limit, holds the target and not the script source, then
    on a sink that takes every write the response ends injecting and the
    client receives the page with the snippet immediately before the first
    case-insensitive occurrence of the target, followed by whatever the
    handler writes after. *)
Theorem html_page_injected (lowerTable : Z → Z) (o : ResponseWriter)
    (limit : Z) (src id tgt : string) (also n2 : bool) (ops1 ops2 : list op)
    (w1 : streamWriter) (p : bytes) (i : nat) :
  rw_calls o = [] → faultless o →
  run lowerTable (newStreamWriter o limit src id tgt also n2) ops1 = Some w1 →
  written ops1 = [] → state w1 = undecided →
  acceptedStatus (implicitHeader w1) →
  Contains (ToLower lowerTable
              (bytesOf (Header.Get (header w1) "Content-Type")))
           (bytesOf "text/html") = true →
  Header.Get (header w1) "Content-Encoding" = EmptyString →
  forallb isASCII p = true → p ≠ [] →
  (Z.of_nat (length p) ≤ lookaheadLimit w1)%Z →
  Contains p (bytesOf src) = false →
  firstOccurrence (map lowerASCII p) (ToLower lowerTable (bytesOf tgt)) i →
  ∃ w, serve lowerTable (newStreamWriter o limit src id tgt also n2)
         (ops1 ++ OpWrite p :: ops2) = Some w
       ∧ state w = injecting
       ∧ delivered (rw_calls (orig w))
         = take i p ++ snippetOf src id ++ drop i p ++ written ops2.
Proof.
  intros Hcalls Hf Hrun Hw1 Es Hst Hct Hce Ha Hp Hlim Hsrc Hi.
  pose proof (streaming_new lowerTable o limit src id tgt also n2 Hcalls Hf)
    as H0.
  pose proof (streaming_run _ _ _ _ _ _ H0 Hrun) as (Hcfg & Hf1 & H1).
  rewrite Es in H1. destruct H1 as (HF1 & D1 & B1 & _).
  simpl in B1. rewrite Hw1 in B1.
  injection Hcfg as _ Hsrc1 Hid1 Htgt1 Halso1 _.
  destruct (implicitHeader_same w1) as (Hs' & Hh' & Hb' & Hc' & Ho' & HF').
  injection Hc' as Hlim' Hsrc' Hid' Htgt' Halso' _.
  set (w1' := implicitHeader w1) in *.
  set (u := take i p ++ snippetOf src id ++ drop i p).
  assert (HW : Write lowerTable w1' p
               = Some (writeInjected (set_buf w1' (buf w1' ++ p)) p u
                                     (length p))).
  { apply Write_injects; try done.
    - apply implicitHeader_idem.
    - by rewrite Hs'.
    - by rewrite Hh'.
    - rewrite Hb', B1, Hlim'. simpl. lia.
    - unfold htmlCandidateFromHeadersAndSniff.
      apply isStatusEligible_accepted in Hst.
      change (isStatusEligible (set_buf w1' _)) with (isStatusEligible w1').
      rewrite Hst. cbn [negb].
      change (header (set_buf w1' _)) with (header w1').
      by rewrite Hh', Hct.
    - simpl. by rewrite Hb', B1, Hsrc', Hsrc1.
    - simpl. rewrite Hb', B1, Hsrc', Hid', Htgt', Halso', Hsrc1, Hid1, Htgt1.
      by apply tryInject_ascii_first. }
  pose proof (Write_implicitHeader lowerTable w1 p) as HWi.
  fold w1' in HWi. rewrite <- HWi in HW. clear HWi.
  set (w2 := set_buf w1' (buf w1' ++ p)) in *.
  assert (HF2 : headersFlushed w2 = false) by (by rewrite <- HF1, <- HF').
  assert (Hf2 : faultless (orig w2)) by (by rewrite <- Ho' in Hf1).
  destruct (writeInjected_faultless w2 p u (length p) HF2 Hf2)
    as (Hf3 & D3 & _).
  change (orig w2) with (orig w1') in D3. rewrite Ho', D1 in D3.
  rewrite drop_all, app_nil_r in D3. simpl in D3.
  set (w3 := (writeInjected w2 p u (length p)).2) in *.
  assert (Hs3 : state w3 = injecting) by apply state_writeInjected.
  assert (HF3 : headersFlushed w3 = true)
    by apply headersFlushed_writeInjected.
  destruct (run_decided lowerTable ops2 w3) as (w4 & Hrun4 & Hs4);
    [by rewrite Hs3|].
  destruct (run_decided_delivered lowerTable ops2 w3 w4 Hf3) as [_ D4];
    [by rewrite Hs3|done|done|].
  exists w4. unfold serve.
  rewrite (run_app _ _ _ _ _ Hrun). simpl. rewrite HW. simpl.
  fold w3. rewrite Hrun4. simpl.
  rewrite finish_terminal by (by rewrite Hs4, Hs3).
  split; [done|]. split; [congruence|].
  change (delivered (rw_calls (orig w4))
          = take i p ++ snippetOf src id ++ drop i p ++ written ops2).
  rewrite D4, D3. unfold u. by rewrite <- !app_assoc.
Qed.

Lemma html_page_injected_witness :
  let ops1 := [OpHeaderSet "Content-Type" "text/html; charset=utf-8"] in
  let p := bytesOf "<HTML><HEAD><TITLE>t</TITLE></HEAD><BODY>" in
  ∃ w, serve noCaseTable (exampleWriter 1024)
         (ops1 ++ OpWrite p :: [OpWrite (bytesOf "</BODY></HTML>")]) = Some w
       ∧ state w = injecting
       ∧ delivered (rw_calls (orig w))
         = bytesOf "<HTML><HEAD><TITLE>t</TITLE>"
           ++ snippetOf "https://a/script.js" "abc"
           ++ bytesOf "</HEAD><BODY>" ++ bytesOf "</BODY></HTML>".
Proof.
  intros ops1 p.
  destruct (run noCaseTable (exampleWriter 1024) ops1) as [w1|] eqn:E1;
    [|by vm_compute in E1].
  assert (H1 : state w1 = undecided
               ∧ Header.Get (header w1) "Content-Type"
                 = "text/html; charset=utf-8"%string
               ∧ Header.Get (header w1) "Content-Encoding" = EmptyString
               ∧ status (implicitHeader w1) = 200%Z
               ∧ lookaheadLimit w1 = 1024%Z).
  { vm_compute in E1. injection E1 as <-. by vm_compute. }
  destruct H1 as (Hs & Hct & Hce & Hst & Hlim).
  apply (html_page_injected noCaseTable plainSink 1024
           "https://a/script.js" "abc" "</head>" true false ops1
           [OpWrite (bytesOf "</BODY></HTML>")] w1 p 28
           eq_refl (List.Forall_nil _) E1 eq_refl Hs).
  - left. rewrite Hst. lia.
  - rewrite Hct. by vm_compute.
  - exact Hce.
  - by vm_compute.
  - done.
  - rewrite Hlim. vm_compute. discriminate.
  - by vm_compute.
  - split; [by vm_compute|].
    intros j Hj. do 28 (destruct j as [|j]; [by vm_compute|]). lia.
Defined.

(** ** What an undecided writer holds *)

Section Held.

Variable lowerTable : Z → Z.

Lemma held_step (pre : bytes) (w w' : streamWriter) (d : op) :
  (state w = undecided →
   buf w = pre ∧ (Z.of_nat (length pre) < lookaheadLimit w)%Z) →
  step lowerTable w d = Some w' →
  state w' = undecided →
  buf w' = pre ++ chunk d
  ∧ (Z.of_nat (length (pre ++ chunk d)) < lookaheadLimit w')%Z.
Proof.
  intros HK Hstep Es'.
  assert (Hdec : state w = undecided ∨ state w ≠ undecided)
    by (destruct (state w); auto).
  destruct Hdec as [Es|Hne].
  2:{ destruct (step_decided lowerTable w d Hne) as (w1 & E1 & Es1).
      rewrite E1 in Hstep. injection Hstep as <-. congruence. }
  destruct (HK Es) as [Hb Hlim]. clear HK.
  destruct d as [k v|k v|k|f|c|p| |]; simpl in Hstep; simpl chunk.
  - injection Hstep as <-. by rewrite app_nil_r.
  - injection Hstep as <-. by rewrite app_nil_r.
  - injection Hstep as <-. by rewrite app_nil_r.
  - injection Hstep as <-. by rewrite app_nil_r.
  - injection Hstep as <-. rewrite app_nil_r. unfold WriteHeader.
    by destruct (wroteHeader w).
  - destruct (Write lowerTable w p) as [[r w1]|] eqn:HW; [|done].
    injection Hstep as <-.
    destruct (implicitHeader_same w) as (Hs1 & _ & Hb1 & Hc1 & _).
    assert (Hl1 : lookaheadLimit (implicitHeader w) = lookaheadLimit w)
      by (by injection Hc1).
    destruct p as [|b p'].
    { rewrite Write_empty in HW by done. result_of HW r w1.
      by rewrite app_nil_r, Hb1, Hl1. }
    pose proof (Write_undecided lowerTable w (b :: p') Es) as HU.
    specialize (HU ltac:(done)). cbv zeta in HU.
    destruct HU as [HW1|[(HW1 & Hc & Hlt & _)|[(u & _ & _ & HW1)|(_ & _ & HW1)]]];
      rewrite HW1 in HW; [| | |done]; result_of HW r w1.
    + by rewrite state_forwardRest, state_fallBack in Es'.
    + simpl in Hlt. rewrite Hc, firstn_all, Hb1, Hb in Hlt.
      simpl. by rewrite Hc, firstn_all, Hb1, Hb, Hl1.
    + by rewrite state_writeInjected in Es'.
  - injection Hstep as <-. exfalso. revert Es'.
    rewrite Flush_finish, finish_fallBack by done.
    destruct (rw_flusher _); simpl; by rewrite state_fallBack.
  - destruct (rw_hijacker (orig w)) eqn:E.
    + rewrite Hijack_finish in Hstep by done. injection Hstep as <-.
      exfalso. revert Es'. rewrite finish_fallBack by done. simpl.
      by rewrite state_fallBack.
    + rewrite Hijack_unsupported in Hstep by done. injection Hstep as <-.
      by rewrite app_nil_r.
Qed.

Lemma held_run (ops : list op) (pre : bytes) (w w' : streamWriter) :
  (state w = undecided →
   buf w = pre ∧ (Z.of_nat (length pre) < lookaheadLimit w)%Z) →
  run lowerTable w ops = Some w' →
  state w' = undecided →
  buf w' = pre ++ written ops
  ∧ (Z.of_nat (length (pre ++ written ops)) < lookaheadLimit w')%Z.
Proof.
  revert pre w. induction ops as [|d ops IH]; intros pre w HK Hrun Es'.
  - injection Hrun as <-. rewrite app_nil_r. by apply HK.
  - simpl in Hrun. destruct (step lowerTable w d) as [w1|] eqn:E; [|done].
    rewrite written_cons, app_assoc.
    apply (IH (pre ++ chunk d) w1); [|done|done].
    intros Es1. by apply (held_step pre w w1 d).
Qed.

End Held.

(** X26. An undecided writer holds all that was written, and less than
    the limit. At every point of a response, on any sink, if the writer is
    still undecided its buffer is exactly the bytes the handler has written
    so far, and they are fewer than [lookaheadLimit]: once the handler has
    written that many bytes the decision has been taken. *)
Theorem undecided_buffers_all (lowerTable : Z → Z) (o : ResponseWriter)
    (limit : Z) (src id tgt : string) (also n2 : bool) (ops : list op)
    (w : streamWriter) :
  run lowerTable (newStreamWriter o limit src id tgt also n2) ops = Some w →
  state w = undecided →
  buf w = written ops
  ∧ (Z.of_nat (length (written ops)) < lookaheadLimit w)%Z.
Proof.
  intros Hrun Es.
  apply (held_run lowerTable ops []
           (newStreamWriter o limit src id tgt also n2) w); [|done|done].
  intros _. split; [done|].
  change (0 < (if (limit <=? 0)%Z then 64 * 1024 else limit))%Z.
  destruct (Z.leb_spec limit 0); lia.
Qed.

Lemma undecided_buffers_all_witness :
  let ops := [OpWrite (bytesOf "<html>"); OpHeaderSet "X-A" "b";
              OpWrite (bytesOf "<head>")] in
  ∃ w, run noCaseTable (exampleWriter 1024) ops = Some w
       ∧ state w = undecided
       ∧ buf w = bytesOf "<html><head>"
       ∧ (Z.of_nat (length (written ops)) < lookaheadLimit w)%Z.
Proof.
  intros ops.
  destruct (run noCaseTable (exampleWriter 1024) ops) as [w|] eqn:E;
    [|by vm_compute in E].
  assert (Hs : state w = undecided).
  { vm_compute in E. injection E as <-. by vm_compute. }
  exists w. split; [done|]. split; [done|].
  exact (undecided_buffers_all noCaseTable plainSink 1024
           "https://a/script.js" "abc" "</head>" true false ops w E Hs).
Defined.
